(** * Cratering: the crater-shape kernel and the crater population generator

    A shallow embedding of [crater_functions.py]:
    - [crater_depth], the kernel that adds one crater to the elevation field
      of a raster grid;
    - [crater_production_function_inverse] and
      [generate_CSFD_from_production_function], which draw the crater
      diameters of a time interval from a production function;
    - [weights], which draws the index of a diameter of an integer range;
    - [make_noisy_surface], which builds a grid with a random surface;
    - [add_craters1], [add_craters2] and [central_crater], which draw or
      take diameters and centers and call the kernel.
    The plotting functions are not modelled.

    Numbers.  A float64 is a real number ([R]) or [NaN].  Rounding and
    overflow are not modelled: arithmetic on finite values is real
    arithmetic.  [NaN] stands for every result that is not a real number
    (numpy's nan, and inf where a division by zero or the logarithm of zero
    produces it); it propagates through arithmetic and every comparison with
    it is false.  It is kept because [crater_depth] takes the mean of a
    possibly empty slice of the elevation field, and [np.average] of an
    empty slice is nan.  Elevations and time are such values; distances,
    diameters and the values of the external functions are reals.

    Python scalars ([diameter], the shape parameters) follow Python's float
    rules: a division by zero raises [ZeroDivisionError], and a negative
    base raised to a fractional power is a complex number.

    Arrays are lists; an index array is a list of positions.  The in-place
    statements of the source ([a[idx] += vals]) are functions from the old
    array to the new one, with [None] for Python's IndexError.

    Loops.  The loop of the inverter is bounded by its own counter.  The
    time loop of the generator has no bound in the source; here it runs on
    fuel and reports when the fuel is used up.

    External collaborators (the numpy random generator, the craterstats
    production and chronology functions, and landlab's raster grid) are
    interfaces, given as classes or, for a grid, as the record of what the
    program reads of it. *)

From Stdlib Require Import Reals Lra Lia.
From stdpp Require Import base option list strings gmap.

Local Open Scope R_scope.

(** ** Decidable comparisons on reals *)

#[global] Instance Req_decision : EqDecision R := Req_dec_T.
#[global] Instance Rle_decision : RelDecision Rle := Rle_dec.
#[global] Instance Rlt_decision : RelDecision Rlt := Rlt_dec.
#[global] Instance Rge_decision : RelDecision Rge := Rge_dec.
#[global] Instance Rgt_decision : RelDecision Rgt := Rgt_dec.
#[global] Instance R_inhabited : Inhabited R := populate 0.

(** ** Array values: a real or NaN *)

Inductive num : Type :=
  | Fin (r : R)
  | NaN.

#[global] Instance num_inhabited : Inhabited num := populate NaN.

Definition lift2 (f : R → R → R) (x y : num) : num :=
  match x, y with
  | Fin a, Fin b => Fin (f a b)
  | _, _ => NaN
  end.

Definition nadd : num → num → num := lift2 Rplus.
Definition nsub : num → num → num := lift2 Rminus.
Definition nmul : num → num → num := lift2 Rmult.

(** numpy division: a zero divisor gives a non-finite result. *)
Definition ndiv (x y : num) : num :=
  match x, y with
  | Fin a, Fin b => if decide (b = 0) then NaN else Fin (a / b)
  | _, _ => NaN
  end.

Definition nneg (x : num) : num :=
  match x with Fin a => Fin (- a) | NaN => NaN end.

(** [np.log]: non-finite at and below zero. *)
Definition nlog (x : R) : num :=
  if decide (0 < x) then Fin (ln x) else NaN.

(** [x <= y] on array values: false as soon as one side is NaN. *)
Definition nle (x y : num) : bool :=
  match x, y with
  | Fin a, Fin b => bool_decide (a <= b)
  | _, _ => false
  end.

(** [np.min] of a two-element list. *)
Definition np_min2 (x y : num) : num := lift2 Rmin x y.

(** numpy's [x ** y] on float arrays.  A positive base gives the real power.
    [0 ** y] is 0 for [y > 0] and 1 for [y = 0]; for [y < 0] numpy gives inf.
    A negative base gives nan (numpy computes a real result there only when
    [y] is an integer, which the exponents of this program are not, being
    fractional powers of the diameter; distances are never negative). *)
Definition np_pow (x y : R) : num :=
  if decide (0 < x) then Fin (Rpower x y)
  else if decide (x = 0) then
    (if decide (0 < y) then Fin 0 else if decide (y = 0) then Fin 1 else NaN)
  else NaN.

Declare Scope num_scope.
Delimit Scope num_scope with num.
Bind Scope num_scope with num.
Infix "+" := nadd : num_scope.
Infix "-" := nsub : num_scope.
Infix "*" := nmul : num_scope.
Infix "/" := ndiv : num_scope.

(** ** numpy index arrays *)

(** [np.where(cond)[0]]: the positions at which the condition holds, in
    increasing order. *)
Fixpoint where_from (k : nat) (p : R → bool) (d : list R) : list nat :=
  match d with
  | [] => []
  | x :: d' =>
      if p x then k :: where_from (S k) p d' else where_from (S k) p d'
  end.

Definition np_where (p : R → bool) (d : list R) : list nat := where_from 0 p d.

(** [a[idx]] with an index array: a copy of the selected entries;
    [None] is Python's IndexError (an index beyond the array). *)
Definition take_idx {A} (a : list A) (idx : list nat) : option (list A) :=
  mapM (λ i, a !! i) idx.

(** [a[idx] = vals]: the entries are stored one after the other. *)
Fixpoint set_idx {A} (a : list A) (idx : list nat) (vals : list A) : list A :=
  match idx, vals with
  | i :: idx', x :: vals' => set_idx (<[i := x]> a) idx' vals'
  | _, _ => a
  end.

(** [a[idx] += vals], which Python runs as [a[idx] = a[idx] + vals]. *)
Definition iadd_idx (a : list num) (idx : list nat) (vals : list num)
  : option (list num) :=
  cur ← take_idx a idx;
  Some (set_idx a idx (zip_with nadd cur vals)).

(** The array that holds [vals] at the positions [idx] and zero everywhere
    else: what [a[idx] += vals] adds to [a], node by node. *)
Definition scatter (n : nat) (idx : list nat) (vals : list num) : list num :=
  set_idx (replicate n (Fin 0)) idx vals.

(** [np.average]: the sum over the count; nan on an empty slice. *)
Definition nsum (l : list num) : num := foldr nadd (Fin 0) l.

Definition np_average (l : list num) : num :=
  (nsum l / Fin (INR (length l)))%num.

(** ** Exceptions *)

Inductive exn : Type :=
  | ZeroDivisionError
  | IndexError
  | UFuncTypeError.

(** ** The random generator *)

(** [np.random.default_rng(seed)] and the two draws the program makes.  A
    draw returns the value and the generator's next state. *)
Class RandomSource := {
  rng : Type;
  default_rng : Z → rng;
  lognormal : rng → R → R → R * rng;
  uniform : rng → R → R → R * rng
}.

(** The module-level variables [seed] and [rn_gen] (lines 18-19).  Every
    function of the module reads [seed] and binds a local [rn_gen] of its
    own, which hides the module-level generator. *)
Record module_state `{RandomSource} := {
  seed : Z;
  rn_gen : rng
}.

Definition initial_module `{RandomSource} : module_state :=
  {| seed := 3; rn_gen := default_rng 3 |}.

(** ** Shape parameters (lines 125-145 of the source) *)

Inductive shape : Type :=
  | Shape (H1 H2 m n : R)
  | ShapeZeroDivision
  | ShapeComplex.

(** Python's [x ** y] for a float [x >= 0] and an exponent [y > 0]. *)
Definition float_pow (x y : R) : R :=
  if decide (0 < x) then Rpower x y else 0.

(** [diameter] is the diameter in meters.  A negative diameter makes every
    fractional power, and so every shape parameter, complex. *)
Definition shape_parameters (diameter : R) : shape :=
  if decide (diameter < 0) then ShapeComplex
  else
    let '(H1, H2, m) :=
      if decide (diameter <= 7000) then
        (2.54 * float_pow diameter 0.67,
         1.93 * float_pow diameter 0.52,
         0.73 * float_pow diameter 0.11)
      else
        (12.20 * float_pow diameter 0.49,
         0.79 * float_pow diameter 0.6,
         0.64 * float_pow diameter 0.13) in
    let H2H1 := H2 - H1 in
    let den := H2H1 / 2 + H1 / (m + 2) in
    if decide (den = 0) then ShapeZeroDivision
    else Shape H1 H2 m (2 - H2 / den).

(** ** crater_depth *)

Section crater_depth.
Context `{RandomSource}.

(** [rim == True], lines 156-179. *)
Definition crater_with_rim (mg : list num) (d : list R)
    (diameter radius H1 H2 m n Z_noise : R) : list num * option exn :=
  let I_ := 1 in
  let H2H1 := H2 - H1 in
  let in_idx := np_where (λ x, bool_decide (x <= radius)) d in
  let out_idx := np_where (λ x, bool_decide (x > radius)) d in
  match take_idx mg in_idx, take_idx mg out_idx with
  | Some Z_in, Some Z_out =>
      let avgin := np_average Z_in in
      let avgout := np_average Z_out in
      let E_ref_in := Z_in in
      let d_in := (λ i, d !!! i) <$> in_idx in
      let d_out := (λ i, d !!! i) <$> out_idx in
      let E_ref_out :=
        (λ dk, avgin + avgout * np_pow (dk / radius) (- n))%num <$> d_out in
      let DH_in :=
        (λ dk, Fin H2H1
               + Fin (Z_noise * H1) * np_pow ((2 * dk) / diameter) m)%num
          <$> d_in in
      let DE_in :=
        zip_with nadd DH_in
          (zip_with nmul
             ((λ x, Fin 1 * x)%num <$> zip_with nsub E_ref_in Z_in)
             ((λ dk, Fin (1 - I_ * (dk / radius) ^ 2)) <$> d_in)) in
      match iadd_idx mg in_idx DE_in with
      | None => (mg, Some IndexError)
      | Some mg1 =>
          let DH_out :=
            (λ dk, Fin H2 * np_pow ((2 * dk) / diameter) (- n))%num
              <$> d_out in
          let G := (λ dh, np_min2 (Fin (1 - I_)) (dh / Fin H2)%num)
                     <$> DH_out in
          let DE_out :=
            zip_with nadd DH_out
              (zip_with nmul G (zip_with nsub E_ref_out Z_out)) in
          match iadd_idx mg1 out_idx DE_out with
          | None => (mg1, Some IndexError)
          | Some mg2 => (mg2, None)
          end
      end
  | _, _ => (mg, Some IndexError)
  end.

(** [rim == False], lines 182-199. *)
Definition crater_without_rim (mg : list num) (d : list R)
    (diameter radius H1 H2 m : R) : list num * option exn :=
  let I_ := 1 in
  let H2H1 := H2 - H1 in
  let in_idx := np_where (λ x, bool_decide (x <= radius * 0.9)) d in
  let out_idx := np_where (λ x, bool_decide (x > radius * 0.9)) d in
  match take_idx mg in_idx with
  | None => (mg, Some IndexError)
  | Some Z_in =>
      let E_ref_in := Z_in in
      let d_in := (λ i, d !!! i) <$> in_idx in
      let DH_in :=
        (λ dk, Fin H2H1 + Fin H1 * np_pow ((2 * dk) / diameter) m)%num
          <$> d_in in
      let DE_in :=
        zip_with nadd DH_in
          (zip_with nmul
             ((λ x, Fin 1 * x)%num <$> zip_with nsub E_ref_in Z_in)
             ((λ dk, Fin (1 - I_ * (dk / radius) ^ 2)) <$> d_in)) in
      match iadd_idx mg in_idx DE_in with
      | None => (mg, Some IndexError)
      | Some mg1 =>
          match iadd_idx mg1 out_idx
                  (replicate (length out_idx) (Fin 0)) with
          | None => (mg1, Some IndexError)
          | Some mg2 => (mg2, None)
          end
      end
  end.

(** The array expressions of the two branches read at one node with
    elevation [z] and distance [x] (the inheritance parameter [I] is 1).
    [c] is the factor of the power term: [Z_noise * H1] with a rim, [H1]
    without. *)
Definition DH_in_at (diameter H1 H2 c m x : R) : num :=
  (Fin (H2 - H1) + Fin c * np_pow ((2 * x) / diameter) m)%num.

Definition DE_in_at (diameter radius H1 H2 c m : R) (z : num) (x : R)
  : num :=
  (DH_in_at diameter H1 H2 c m x
   + (Fin 1 * (z - z)) * Fin (1 - 1 * (x / radius) ^ 2))%num.

Definition DH_out_at (diameter H2 n x : R) : num :=
  (Fin H2 * np_pow ((2 * x) / diameter) (- n))%num.

Definition E_ref_out_at (radius n : R) (avgin avgout : num) (x : R) : num :=
  (avgin + avgout * np_pow (x / radius) (- n))%num.

Definition DE_out_at (diameter radius H2 n : R) (avgin avgout z : num)
    (x : R) : num :=
  (DH_out_at diameter H2 n x
   + np_min2 (Fin (1 - 1)) (DH_out_at diameter H2 n x / Fin H2)
     * (E_ref_out_at radius n avgin avgout x - z))%num.

(** With complex shape parameters the index arrays are still built and
    read; the first in-place addition of a complex array to the float
    field is refused by numpy. *)
Definition crater_complex (mg : list num) (d : list R)
    (radius : R) (rim : bool) : list num * option exn :=
  if rim then
    let in_idx := np_where (λ x, bool_decide (x <= radius)) d in
    let out_idx := np_where (λ x, bool_decide (x > radius)) d in
    match take_idx mg in_idx, take_idx mg out_idx with
    | Some _, Some _ => (mg, Some UFuncTypeError)
    | _, _ => (mg, Some IndexError)
    end
  else
    let in_idx := np_where (λ x, bool_decide (x <= radius * 0.9)) d in
    match take_idx mg in_idx with
    | Some _ => (mg, Some UFuncTypeError)
    | None => (mg, Some IndexError)
    end.

(** Lines 148-150: the noise factor of the crater, the first draw of the
    local generator. *)
Definition draw_Z_noise (rn_gen : rng) : R :=
  let ejecta_noise := 0.05 in
  let noise1 := ejecta_noise / Rpower (exp 1 * exp 1 - 1.0) 0.5 in
  let noise2 := (1.0 - 0.5 * noise1) * noise1 in
  (lognormal rn_gen 0 noise2).1.

(** The kernel.  [mg] is the elevation field of the grid, [d] the
    distance of every node to the crater center, [diameter] the diameter
    in km.  The result is the field as the call leaves it and the
    exception, if one was raised. *)
Definition crater_depth (g : module_state) (mg : list num) (d : list R)
    (diameter : R) (rim : bool) : list num * option exn :=
  let rn_gen := default_rng (seed g) in
  let diameter := diameter * 1000 in
  let radius := diameter / 2 in
  match shape_parameters diameter with
  | ShapeZeroDivision => (mg, Some ZeroDivisionError)
  | ShapeComplex => crater_complex mg d radius rim
  | Shape H1 H2 m n =>
      let Z_noise := draw_Z_noise rn_gen in
      if rim then crater_with_rim mg d diameter radius H1 H2 m n Z_noise
      else crater_without_rim mg d diameter radius H1 H2 m
  end.

(** A grid is an object in memory; [crater_depth] mutates the elevation
    field of the grid it is given and returns that same grid.  [None]: the
    reference does not denote a grid. *)
Definition crater_depth_at (g : module_state) (σ : gmap nat (list num))
    (grid : nat) (d : list R) (diameter : R) (rim : bool)
  : option (gmap nat (list num) * option exn) :=
  mg ← σ !! grid;
  let '(mg', e) := crater_depth g mg d diameter rim in
  Some (<[grid := mg']> σ, e).

(** [mg'] is reached from [mg] by in-place additions [a[idx] += vals] at
    index arrays of distinct positions, and by nothing else. *)
Inductive in_place_additions : list num → list num → Prop :=
  | additions_none mg : in_place_additions mg mg
  | additions_step mg idx vals mg1 mg2 :
      NoDup idx → length vals = length idx →
      iadd_idx mg idx vals = Some mg1 →
      in_place_additions mg1 mg2 →
      in_place_additions mg mg2.

(** [mg'] is [mg] with an increment added at every node. *)
Definition additive_update (mg mg' : list num) : Prop :=
  ∃ delta, length delta = length mg ∧ mg' = zip_with nadd mg delta.

(** Two fields have the same nodes that are not finite numbers. *)
Definition same_finiteness (a b : list num) : Prop :=
  Forall2 (λ x y, x = NaN ↔ y = NaN) a b.

(** A crater event, and the field after a series of calls (the loops of
    [add_craters1] and [add_craters2] call [crater_depth] once per crater). *)
Record crater_event := {
  ev_distances : list R;
  ev_diameter : R;
  ev_rim : bool
}.

Definition apply_crater (g : module_state) (mg : list num)
    (ev : crater_event) : list num :=
  (crater_depth g mg (ev_distances ev) (ev_diameter ev) (ev_rim ev)).1.

Definition apply_craters (g : module_state) (mg : list num)
    (evs : list crater_event) : list num :=
  foldl (apply_crater g) mg evs.
End crater_depth.

(** ** numpy helpers of the inverter *)

(** [np.linspace(start, stop, num)]: [start + i * step], the last sample
    set to [stop]. *)
Definition np_linspace (start stop : R) (n : nat) : list R :=
  let step := (stop - start) / INR (n - 1) in
  <[(n - 1)%nat := stop]> ((λ i, start + INR i * step) <$> seq 0 n).

(** [np.searchsorted(a, v)] (side left): numpy's bisection. *)
Fixpoint bisect_left (fuel : nat) (a : list R) (v : R) (lo hi : nat) : nat :=
  match fuel with
  | O => lo
  | S fuel' =>
      if decide (lo < hi)%nat then
        let mid := (lo + (hi - lo) / 2)%nat in
        if decide (a !!! mid < v) then bisect_left fuel' a v (S mid) hi
        else bisect_left fuel' a v lo mid
      else lo
  end.

Definition np_searchsorted (a : list R) (v : R) : nat :=
  bisect_left (length a) a v 0 (length a).

(** The bisection of [np.interp]: one past the last sample that is [<= key]. *)
Fixpoint bisect_right (fuel : nat) (a : list R) (key : R) (imin imax : nat)
  : nat :=
  match fuel with
  | O => imin
  | S fuel' =>
      if decide (imin < imax)%nat then
        let imid := (imin + (imax - imin) / 2)%nat in
        if decide (key >= a !!! imid) then bisect_right fuel' a key (S imid) imax
        else bisect_right fuel' a key imin imid
      else imin
  end.

(** [np.interp(x, xp, fp)] for a scalar [x]: clamped outside the samples,
    linear between two samples.  numpy first tries the samples next to a
    guess and then bisects; on non-decreasing [xp] (what [np.interp]
    requires) that finds the same interval as the plain bisection here. *)
Definition np_interp (x : R) (xp fp : list R) : R :=
  let len := length xp in
  if decide (x > xp !!! (len - 1)%nat) then fp !!! (len - 1)%nat
  else if decide (x < xp !!! 0%nat) then fp !!! 0%nat
  else
    match bisect_right len xp x 0 len with
    | O => fp !!! 0%nat
    | S j =>
        if decide (j = len - 1)%nat then fp !!! j
        else if decide (xp !!! j = x) then fp !!! j
        else
          let slope := (fp !!! S j - fp !!! j) / (xp !!! S j - xp !!! j) in
          slope * (x - xp !!! j) + fp !!! j
    end.

(** Python indexing [a[i]]: a negative index counts from the end. *)
Definition py_get (a : list R) (i : Z) : option R :=
  if decide (0 <= i)%Z then a !! Z.to_nat i
  else if decide (- Z.of_nat (length a) <= i)%Z
       then a !! Z.to_nat (Z.of_nat (length a) + i)
       else None.

(** [np.log10] of a positive number.  (At and below zero numpy gives -inf
    or nan; cumulative frequencies, diameters and targets are positive.) *)
Definition np_log10 (x : R) : R := ln x / ln 10.

(** ** Results of the loops *)

Inductive outcome (A : Type) : Type :=
  | Done (a : A)
  | Raised (e : exn)
  | OutOfFuel.
Arguments Done {A} a.
Arguments Raised {A} e.
Arguments OutOfFuel {A}.

(** ** The production and chronology functions of craterstats *)

Class ProductionFn := {
  pf_cumulative : R → R;       (* evaluate("cumulative", D) *)
  pf_range : R * R             (* the calibrated diameter range *)
}.

Class ChronologyFn := {
  phi : R → R
}.

(** ** crater_production_function_inverse *)

Section inverse.
Context `{ProductionFn}.

Definition divisions : nat := 9.

(** One pass of the [while True] body: the interpolated [x], [y1] and the
    narrowed bracket; IndexError when [x0[[q, q - 1]]] is out of range. *)
Definition inverse_body (log_y : R) (xrange : R * R)
  : option (R * R * (R * R)) :=
  let x0 := np_linspace xrange.2 xrange.1 divisions in
  let y0 := (λ x, np_log10 (pf_cumulative (Rpower 10.0 x))) <$> x0 in
  let x := np_interp log_y y0 x0 in
  let y1 := np_log10 (pf_cumulative (Rpower 10.0 x)) in
  let q := np_searchsorted y0 log_y in
  match py_get x0 (Z.of_nat q), py_get x0 (Z.of_nat q - 1) with
  | Some a, Some b => Some (x, y1, (a, b))
  | _, _ => None
  end.

(** The loop, with the iteration counter [count] of the source.  The
    result carries the last [x] and the number of passes made. *)
Fixpoint inverse_loop (fuel : nat) (log_y tol : R) (xrange : R * R)
    (count : nat) : outcome (R * nat) :=
  match fuel with
  | O => OutOfFuel
  | S fuel' =>
      match inverse_body log_y xrange with
      | None => Raised IndexError
      | Some (x, y1, xrange') =>
          let count := (count + 1)%nat in
          if bool_decide (Rabs (y1 - log_y) < tol)
             || bool_decide (99 < count)%nat
          then Done (x, count)
          else inverse_loop fuel' log_y tol xrange' count
      end
  end.

(** The counter stops the loop after 100 passes at the latest, so 100
    units of fuel are never used up. *)
Definition inverse_iterations (irange : R * R) (y tol : R)
  : outcome (R * nat) :=
  let log_y := np_log10 y in
  let xrange := (np_log10 irange.1, np_log10 irange.2) in
  inverse_loop 100 log_y tol xrange 0.

Definition crater_production_function_inverse (irange : R * R) (y tol : R)
  : outcome R :=
  match inverse_iterations irange y tol with
  | Done (x, _) => Done (Rpower 10 x)
  | Raised e => Raised e
  | OutOfFuel => OutOfFuel
  end.
End inverse.

Definition default_tol : R := 1e-6.

(** ** generate_CSFD_from_production_function *)

Definition extrapolation_warning : string :=
  "Crater range of interest was outside of production functions's defined range. Extrapolating."%string.

Section generate.
Context `{RandomSource} `{ProductionFn} `{ChronologyFn}.

(** Lines 301-311: the diameter range and the warnings issued. *)
Definition setup_diameter_range (size_interval : option (R * R))
    (cell_size : R) : (R * R) * list string :=
  match size_interval with
  | None => ((cell_size, pf_range.2), [])
  | Some diameter_range =>
      if bool_decide (diameter_range.1 < pf_range.1)
         || bool_decide (diameter_range.2 > pf_range.2)
      then (diameter_range, [extrapolation_warning])
      else (diameter_range, [])
  end.

Section loop.
Variable time_interval : R * R.
Variable diameter_range : R * R.
Variable Area : R.
Variable poisson_intervals : bool.

(** [N = production_function.evaluate("cumulative", [1.0, d0, d1])]. *)
Definition N_ (i : nat) : R :=
  [pf_cumulative 1.0; pf_cumulative diameter_range.1;
   pf_cumulative diameter_range.2] !!! i.

Definition N1_ratio : R := N_ 1 / N_ 0.

(** One pass of the body of the time loop at time [t]: the diameter,
    the time increment and the generator's next state. *)
Definition gen_body (t : R) (rn_gen : rng) : outcome (R * num * rng) :=
  let '(u, rn_gen) := uniform rn_gen 0 1 in
  let y := u * (N_ 1 - N_ 2) + N_ 2 in
  match crater_production_function_inverse diameter_range y default_tol with
  | Raised e => Raised e
  | OutOfFuel => OutOfFuel
  | Done d =>
      let phi_t := phi t in
      let lam := phi_t * N1_ratio * Area in
      if poisson_intervals then
        let '(u, rn_gen) := uniform rn_gen 0 1 in
        Done (d, (nneg (nlog u) / Fin lam)%num, rn_gen)
      else
        Done (d, (Fin 1.0 / Fin lam)%num, rn_gen)
  end.

(** [while t <= time_interval[0]].  The result carries the diameters and
    the time at which the loop stopped. *)
Fixpoint gen_loop (fuel : nat) (t : num) (rn_gen : rng) (list_d : list R)
  : outcome (list R * num) :=
  match fuel with
  | O => OutOfFuel
  | S fuel' =>
      match t with
      | Fin tr =>
          if bool_decide (tr <= time_interval.1) then
            match gen_body tr rn_gen with
            | Raised e => Raised e
            | OutOfFuel => OutOfFuel
            | Done (d, dt, rn_gen') =>
                gen_loop fuel' (t + dt)%num rn_gen' (list_d ++ [d])
            end
          else Done (list_d, t)
      | NaN => Done (list_d, t)
      end
  end.
(** The time loop in the words of the specification, a relation between
    the state at the loop's test and how the loop ends.  At each pass: a
    fresh uniform draw [u], the target [y = u * (N[1] - N[2]) + N[2]], the
    diameter [d] of that target, the rate
    [lambda = phi(t) * N1_ratio * Area], and the time increment
    [-ln(u2) / lambda] for a second fresh draw [u2] with Poisson intervals,
    [1 / lambda] without. *)
Definition spec_time_increment (t : R) (rn1 : rng) (dt : num) (rn2 : rng)
  : Prop :=
  let lambda := phi t * N1_ratio * Area in
  if poisson_intervals
  then ∃ u2, uniform rn1 0 1 = (u2, rn2) ∧
             dt = (nneg (nlog u2) / Fin lambda)%num
  else rn2 = rn1 ∧ dt = (Fin 1 / Fin lambda)%num.

Inductive spec_time_loop
  : num → rng → list R → outcome (list R * num) → Prop :=
  | spec_loop_ends t rn_gen list_d :
      (∀ tr, t = Fin tr → ¬ tr <= time_interval.1) →
      spec_time_loop t rn_gen list_d (Done (list_d, t))
  | spec_loop_raises t rn_gen list_d u rn1 e :
      t <= time_interval.1 →
      uniform rn_gen 0 1 = (u, rn1) →
      crater_production_function_inverse diameter_range
        (u * (N_ 1 - N_ 2) + N_ 2) default_tol = Raised e →
      spec_time_loop (Fin t) rn_gen list_d (Raised e)
  | spec_loop_pass t rn_gen list_d u rn1 d dt rn2 r :
      t <= time_interval.1 →
      uniform rn_gen 0 1 = (u, rn1) →
      crater_production_function_inverse diameter_range
        (u * (N_ 1 - N_ 2) + N_ 2) default_tol = Done d →
      spec_time_increment t rn1 dt rn2 →
      spec_time_loop (Fin t + dt)%num rn2 (list_d ++ [d]) r →
      spec_time_loop (Fin t) rn_gen list_d r.
End loop.

(** [return list_d]. *)
Definition loop_result (r : outcome (list R * num)) : outcome (list R) :=
  match r with
  | Done (l, _) => Done l
  | Raised e => Raised e
  | OutOfFuel => OutOfFuel
  end.

(** The generator: the diameters (or how the run ended) and the warnings.
    [fuel] bounds the passes of the time loop, which the source does
    not. *)
Definition generate_CSFD_from_production_function (g : module_state)
    (fuel : nat) (time_interval : R * R) (size_interval : option (R * R))
    (domain_area cell_size : R) (poisson_intervals : bool)
  : outcome (list R) * list string :=
  let rn_gen := default_rng (seed g) in
  let Area := domain_area in
  let list_d := [] in
  let '(diameter_range, warns) :=
    setup_diameter_range size_interval cell_size in
  let t := Fin time_interval.2 in
  (loop_result (gen_loop time_interval diameter_range Area poisson_intervals
                  fuel t rn_gen list_d),
   warns).
End generate.

(** ** The shape term of a crater without rim at one node

    What [crater_depth] with [rim == False] adds at a node, as a function
    of the diameter (km) and of the node's distance ([None]: the distance
    array has no entry for the node). *)
Definition no_rim_increment (diameter : R) (x : option R) : num :=
  let diameter := diameter * 1000 in
  let radius := diameter / 2 in
  match shape_parameters diameter, x with
  | Shape H1 H2 m _, Some x =>
      if bool_decide (x <= radius * 0.9)
      then DH_in_at diameter H1 H2 H1 m x
      else Fin 0
  | _, _ => Fin 0
  end.

(** ** weights (lines 21-52)

    [rn_gen.random(1)] is one more draw of the generator. *)
Class RandomSample `{RandomSource} := {
  random : rng → R * rng
}.

(** [range(a, b)]. *)
Definition py_range (a b : Z) : list Z :=
  (λ i, (a + Z.of_nat i)%Z) <$> seq 0 (Z.to_nat (b - a)).

(** [Kx * D ** -delta] for an int [D], with [Kx = 1.0] and [delta = 2.0]:
    Python raises ZeroDivisionError for [0 ** -2.0]. *)
Definition weight (D : Z) : option R :=
  let Kx := 1.0 in
  if decide (D = 0%Z) then None else Some (Kx * powerRZ (IZR D) (- 2)).

(** The second loop: subtract the weights one after the other and return
    the index at which [rnd] gets negative; Python's [None] when the loop
    runs out. *)
Fixpoint weights_scan (i : nat) (rnd : R) (ws : list R) : option nat :=
  match ws with
  | [] => None
  | ww :: ws' =>
      let rnd := rnd - ww in
      if decide (rnd < 0) then Some i else weights_scan (S i) rnd ws'
  end.

(** [sum(weights)]. *)
Definition py_sum (l : list R) : R := foldl Rplus 0 l.

Definition weights `{RandomSample} (g : module_state) (minD maxD : Z)
  : outcome (option nat) :=
  let rn_gen := default_rng (seed g) in
  match mapM weight (py_range minD maxD) with
  | None => Raised ZeroDivisionError
  | Some ws =>
      let rnd := (random rn_gen).1 * py_sum ws in
      Done (weights_scan 0 rnd ws)
  end.

(** ** The drivers: add_craters1, add_craters2, central_crater
    (lines 344-480)

    What the drivers use of a landlab [RasterModelGrid]: the number of node
    columns, the node spacing, the distances of the nodes to a point, and
    the elevation field at the nodes, which [crater_depth] updates in
    place. *)
Record RasterModelGrid := {
  number_of_node_columns : Z;
  dx : R;
  calc_distances_of_nodes_to_point : Z * Z → list R;
  topographic__elevation : list num
}.

(** The grid after its elevation field has been updated. *)
Definition with_elevation (mg : RasterModelGrid) (z : list num)
  : RasterModelGrid :=
  {| number_of_node_columns := number_of_node_columns mg;
     dx := dx mg;
     calc_distances_of_nodes_to_point := calc_distances_of_nodes_to_point mg;
     topographic__elevation := z |}.

(** [int(x)] of a float: truncation toward zero. *)
Definition py_int (x : R) : Z :=
  if decide (0 <= x) then Int_part x else (- Int_part (- x))%Z.

(** [rn_gen.integers(low, high, endpoint=True)] for [low <= high]. *)
Class RandomIntegers `{RandomSource} := {
  integers : rng → Z → Z → Z * rng
}.

(** The exceptions of a driver: those of the functions above, the
    TypeError of a list indexed with [None], the ValueError of [integers]
    with [low > high] and of arrays that do not broadcast, and whatever
    landlab's grid constructor raises. *)
Inductive py_exn : Type :=
  | Kernel (e : exn)
  | TypeError
  | ValueError
  | LandlabError.

(** How a driver's call ended. *)
Inductive driver_end : Type :=
  | Returned
  | Threw (e : py_exn)
  | NoMoreFuel.

Section drivers.
Context `{RandomSample} `{!RandomIntegers} `{ProductionFn} `{ChronologyFn}.

(** [(rn_gen.integers(1, high, endpoint=True),
      rn_gen.integers(1, high, endpoint=True))]; [None] is the
    ValueError. *)
Definition crater_center (rn_gen : rng) (high : Z)
  : option ((Z * Z) * rng) :=
  if decide (high < 1)%Z then None
  else
    let '(x, rn_gen) := integers rn_gen 1 high in
    let '(y, rn_gen) := integers rn_gen 1 high in
    Some ((x, y), rn_gen).

(** The body of the loop of [add_craters1] (lines 381-386), [n] times. *)
Fixpoint add_craters1_loop (g : module_state) (mg : RasterModelGrid)
    (grid_size minD maxD : Z) (rim : bool) (n : nat) (rn_gen : rng)
    (z : list num) : list num * driver_end :=
  match n with
  | O => (z, Returned)
  | S n' =>
      match weights g minD maxD with
      | Raised e => (z, Threw (Kernel e))
      | OutOfFuel => (z, NoMoreFuel)
      | Done None => (z, Threw TypeError)
      | Done (Some a) =>
          match py_range minD maxD !! a with
          | None => (z, Threw (Kernel IndexError))
          | Some diameter =>
              match crater_center rn_gen grid_size with
              | None => (z, Threw ValueError)
              | Some (cratercenter, rn_gen') =>
                  let d :=
                    calc_distances_of_nodes_to_point mg cratercenter in
                  match crater_depth g z d (IZR diameter) rim with
                  | (z', Some e) => (z', Threw (Kernel e))
                  | (z', None) =>
                      add_craters1_loop g mg grid_size minD maxD rim n'
                        rn_gen' z'
                  end
              end
          end
      end
  end.

Definition add_craters1 (g : module_state) (mg : RasterModelGrid)
    (Ncraters minD maxD : Z) (rim : bool) : RasterModelGrid * driver_end :=
  let rn_gen := default_rng (seed g) in
  let xy := number_of_node_columns mg in
  let cell_size := dx mg in
  let grid_size := py_int (cell_size * IZR xy) in
  let '(z, e) :=
    add_craters1_loop g mg grid_size minD maxD rim (Z.to_nat Ncraters)
      rn_gen (topographic__elevation mg) in
  (with_elevation mg z, e).

(** The body of the loop of [add_craters2] (lines 441-445), once for
    every diameter of the list. *)
Fixpoint add_craters2_loop (g : module_state) (mg : RasterModelGrid)
    (grid_size : Z) (rim : bool) (diameter_list : list R) (rn_gen : rng)
    (z : list num) : list num * driver_end :=
  match diameter_list with
  | [] => (z, Returned)
  | diameter :: rest =>
      match crater_center rn_gen (grid_size * 1000) with
      | None => (z, Threw ValueError)
      | Some (cratercenter, rn_gen') =>
          let d := calc_distances_of_nodes_to_point mg cratercenter in
          match crater_depth g z d diameter rim with
          | (z', Some e) => (z', Threw (Kernel e))
          | (z', None) => add_craters2_loop g mg grid_size rim rest rn_gen' z'
          end
      end
  end.

(** [fuel] bounds the passes of the generator's time loop. *)
Definition add_craters2 (g : module_state) (fuel : nat)
    (mg : RasterModelGrid) (time_interval : R * R)
    (size_interval : option (R * R)) (poisson_intervals rim : bool)
  : RasterModelGrid * driver_end :=
  let rn_gen := default_rng (seed g) in
  let xy := number_of_node_columns mg in
  let cell_size := dx mg / 1000 in
  let grid_size := py_int (cell_size * IZR xy) in
  let domain_area := IZR (grid_size * grid_size) in
  match (generate_CSFD_from_production_function g fuel time_interval
           size_interval domain_area cell_size poisson_intervals).1 with
  | Raised e => (mg, Threw (Kernel e))
  | OutOfFuel => (mg, NoMoreFuel)
  | Done diameter_list =>
      let '(z, e) :=
        add_craters2_loop g mg grid_size rim diameter_list rn_gen
          (topographic__elevation mg) in
      (with_elevation mg z, e)
  end.

Definition central_crater (g : module_state) (mg : RasterModelGrid)
    (diameter : R) (rim : bool) : RasterModelGrid * driver_end :=
  let xy := number_of_node_columns mg in
  let cell_size := dx mg in
  let grid_size := py_int (cell_size * IZR xy) in
  let d :=
    calc_distances_of_nodes_to_point mg
      (py_int (IZR grid_size / 2), py_int (IZR grid_size / 2)) in
  match crater_depth g (topographic__elevation mg) d diameter rim with
  | (z', Some e) => (with_elevation mg z', Threw (Kernel e))
  | (z', None) => (with_elevation mg z', Returned)
  end.

(** The crater events of a run: one per center, with the diameter that
    goes with it. *)
Definition events_at (mg : RasterModelGrid) (rim : bool)
    (centers : list (Z * Z)) (diameters : list R) : list crater_event :=
  zip_with
    (λ c D, {| ev_distances := calc_distances_of_nodes_to_point mg c;
               ev_diameter := D; ev_rim := rim |})
    centers diameters.
End drivers.

(** ** make_noisy_surface (lines 54-91)

    What [make_noisy_surface] uses of landlab and numpy:
    [RasterModelGrid((xy, xy), xy_spacing=cell_size)] ([None]: the
    constructor raises), [mg.number_of_nodes], [mg.node_x], and
    [rn_gen.random(n)], an array of [n] draws. *)
Class Landlab := {
  raster_model_grid : Z → R → option RasterModelGrid;
  number_of_nodes : RasterModelGrid → nat;
  node_x : RasterModelGrid → list R
}.

Class RandomArray `{RandomSource} := {
  random_n : rng → nat → list R * rng
}.

(** [z op= a] on one-dimensional arrays: element by element when the
    lengths agree, with the one element of [a] when it has one, and
    ValueError ([None]) otherwise. *)
Definition np_inplace (f : num → num → num) (z a : list num)
  : option (list num) :=
  if decide (length a = length z) then Some (zip_with f z a)
  else match a with
       | [x] => Some ((λ v, f v x) <$> z)
       | _ => None
       end.

Definition make_noisy_surface `{Landlab} `{RandomArray} (g : module_state)
    (grid_size cell_size : Z) (slope rf : R) : RasterModelGrid + py_exn :=
  let rn_gen := default_rng (seed g) in
  if decide (cell_size = 0)%Z then inr (Kernel ZeroDivisionError)
  else
    let xy := py_int (IZR grid_size / IZR cell_size) in
    match raster_model_grid xy (IZR cell_size) with
    | None => inr LandlabError
    | Some mg =>
        let z := replicate (number_of_nodes mg) (Fin 0) in
        match np_inplace nsub z
                ((λ x, (Fin (x * slope) / Fin rf)%num) <$> node_x mg) with
        | None => inr ValueError
        | Some z =>
            match np_inplace nadd z
                    (Fin <$> (random_n rn_gen (number_of_nodes mg)).1) with
            | None => inr ValueError
            | Some z =>
                inl (with_elevation mg ((λ v, (v * Fin rf)%num) <$> z))
            end
        end
    end.

(** ** Sample collaborators

    A generator whose state is a counter that starts at the seed and counts
    the draws made: in state [k] the uniform draw is [1 / (k + 2)] and the
    lognormal draw is 1.  A production function with cumulative frequency 1
    at every diameter, and a chronology function of constant rate 1. *)

Definition counting_source : RandomSource := {|
  rng := nat;
  default_rng := λ s, Z.to_nat s;
  lognormal := λ k _ _, (1, S k);
  uniform := λ k _ _, (/ INR (k + 2), S k)
|}.

(** The module of the source after seven draws from its module-level
    generator. *)
Definition advanced_module : @module_state counting_source :=
  @Build_module_state counting_source 3 7%nat.

Definition flat_production : ProductionFn := {|
  pf_cumulative := λ _, 1;
  pf_range := (1, 10)
|}.

Definition unit_chronology : ChronologyFn := {|
  phi := λ _, 1
|}.

(** ** More sample collaborators

    The production function N(D) = D^-2, and the [random] draw of the
    counting generator. *)
Definition power_law_production : ProductionFn := {|
  pf_cumulative := λ D, Rpower D (- 2);
  pf_range := (1, 10)
|}.

Definition counting_sample : @RandomSample counting_source :=
  @Build_RandomSample counting_source (λ k : nat, (/ INR (k + 2), S k)).

Definition counting_integers : @RandomIntegers counting_source :=
  @Build_RandomIntegers counting_source
    (λ (k : nat) (low high : Z), (low, S k)).

(** A grid of two columns of nodes, one kilometer apart. *)
Definition small_grid : RasterModelGrid := {|
  number_of_node_columns := 2;
  dx := 1000;
  calc_distances_of_nodes_to_point := λ _, [0; 1000; 1000; 1500];
  topographic__elevation := [Fin 0; Fin 0; Fin 0; Fin 0]
|}.

(** A grid whose side is half a grid unit. *)
Definition narrow_grid : RasterModelGrid := {|
  number_of_node_columns := 2;
  dx := 0.25;
  calc_distances_of_nodes_to_point := λ _, [0; 0.25; 0.25; 0.5];
  topographic__elevation := [Fin 0; Fin 0; Fin 0; Fin 0]
|}.

(** A square raster of [xy] columns: the nodes are numbered row by row and
    [node_x] is the column times the spacing. *)
Definition square_landlab : Landlab := {|
  raster_model_grid := λ xy spacing,
    Some {| number_of_node_columns := xy;
            dx := spacing;
            calc_distances_of_nodes_to_point :=
              λ _, replicate (Z.to_nat (xy * xy)) 0;
            topographic__elevation := [] |};
  number_of_nodes := λ mg,
    Z.to_nat (number_of_node_columns mg * number_of_node_columns mg);
  node_x := λ mg,
    (λ i, IZR (Z.of_nat i mod number_of_node_columns mg) * dx mg)
      <$> seq 0 (Z.to_nat (number_of_node_columns mg
                           * number_of_node_columns mg))
|}.

Definition counting_array : @RandomArray counting_source :=
  @Build_RandomArray counting_source
    (λ (k : nat) (n : nat), (replicate n (/ INR (k + 2)), (k + n)%nat)).

(** * Properties *)

(** ** Arithmetic on array values *)

Lemma nadd_0_r (x : num) : (x + Fin 0)%num = x.
Proof. destruct x as [r|]; cbn; [f_equal; lra | done]. Qed.

Lemma nadd_assoc (x y z : num) : (x + (y + z))%num = (x + y + z)%num.
Proof. destruct x, y, z; cbn; try done. f_equal; lra. Qed.

Lemma nadd_NaN_l (x : num) : (NaN + x)%num = NaN.
Proof. done. Qed.

Lemma nadd_NaN_r (x : num) : (x + NaN)%num = NaN.
Proof. by destruct x. Qed.

Lemma nsub_NaN_l (x : num) : (NaN - x)%num = NaN.
Proof. done. Qed.

Lemma nmul_NaN_r (x : num) : (x * NaN)%num = NaN.
Proof. by destruct x. Qed.

(** ** Index arrays *)

Lemma where_from_elem k p d i :
  i ∈ where_from k p d ↔
  ∃ x, (k ≤ i)%nat ∧ d !! (i - k)%nat = Some x ∧ p x = true.
Proof.
  revert k. induction d as [|y d IH]; intros k; cbn.
  - split; [by intros ?%elem_of_nil | by intros (? & _ & ? & _)].
  - assert (Hrest : i ∈ where_from (S k) p d ↔
      ∃ x, (k < i)%nat ∧ d !! (i - S k)%nat = Some x ∧ p x = true).
    { rewrite IH. split; intros (x & ? & ? & ?); exists x; repeat split; auto; lia. }
    destruct (p y) eqn:Hy.
    + rewrite elem_of_cons, Hrest. split.
      * intros [-> | (x & ? & Hx & ?)].
        -- exists y. rewrite Nat.sub_diag. auto.
        -- exists x. repeat split; [lia | | done].
           replace (i - k)%nat with (S (i - S k)) by lia. done.
      * intros (x & Hk & Hx & Hp).
        destruct (decide (i = k)) as [-> | Hne]; [by left | right].
        exists x. repeat split; [lia | | done].
        replace (i - k)%nat with (S (i - S k)) in Hx by lia. done.
    + rewrite Hrest. split.
      * intros (x & ? & Hx & ?). exists x. repeat split; [lia | | done].
        replace (i - k)%nat with (S (i - S k)) by lia. done.
      * intros (x & Hk & Hx & Hp).
        destruct (decide (i = k)) as [-> | Hne].
        { rewrite Nat.sub_diag in Hx. cbn in Hx. congruence. }
        exists x. repeat split; [lia | | done].
        replace (i - k)%nat with (S (i - S k)) in Hx by lia. done.
Qed.

Lemma where_from_NoDup k p d : NoDup (where_from k p d).
Proof.
  revert k. induction d as [|y d IH]; intros k; cbn; [constructor |].
  destruct (p y); [| apply IH].
  constructor; [| apply IH].
  rewrite where_from_elem. intros (x & ? & _). lia.
Qed.

Lemma np_where_elem p d i :
  i ∈ np_where p d ↔ ∃ x, d !! i = Some x ∧ p x = true.
Proof.
  unfold np_where. rewrite where_from_elem.
  rewrite Nat.sub_0_r. split.
  - intros (x & _ & ? & ?). eauto.
  - intros (x & ? & ?). exists x. repeat split; [lia | done | done].
Qed.

Lemma np_where_NoDup p d : NoDup (np_where p d).
Proof. apply where_from_NoDup. Qed.

Lemma np_where_lt p d i : i ∈ np_where p d → (i < length d)%nat.
Proof.
  rewrite np_where_elem. intros (x & Hx & _). by eapply lookup_lt_Some.
Qed.

Lemma take_idx_length {A} (a : list A) idx vs :
  take_idx a idx = Some vs → length vs = length idx.
Proof. intros Hm. symmetry. by eapply length_mapM. Qed.

Lemma take_idx_lookup {A} (a : list A) idx vs k i :
  take_idx a idx = Some vs → idx !! k = Some i → vs !! k = a !! i.
Proof.
  unfold take_idx. rewrite mapM_Some. intros HF Hk.
  destruct (Forall2_lookup_l _ _ _ _ _ HF Hk) as (y & -> & Hy). done.
Qed.

Lemma take_idx_is_Some {A} (a : list A) idx :
  is_Some (take_idx a idx) ↔ Forall (λ i, (i < length a)%nat) idx.
Proof.
  unfold take_idx. rewrite mapM_is_Some. apply Forall_proper; [| done].
  intros i. apply lookup_lt_is_Some.
Qed.

Lemma take_idx_None {A} (a : list A) idx :
  take_idx a idx = None ↔ ∃ i, i ∈ idx ∧ (length a ≤ i)%nat.
Proof.
  rewrite eq_None_not_Some, take_idx_is_Some. split.
  - intros Hn. apply not_Forall_Exists in Hn; [| intros; apply _].
    apply Exists_exists in Hn as (i & ? & Hi). exists i. cbn in Hi. split; [done | lia].
  - intros (i & Hi & Hge) HF. rewrite Forall_forall in HF. apply HF in Hi. lia.
Qed.

Lemma length_set_idx {A} (a : list A) idx vals :
  length (set_idx a idx vals) = length a.
Proof.
  revert a vals. induction idx as [|i idx IH]; intros a [|x vals]; cbn; auto.
  by rewrite IH, length_insert.
Qed.

Lemma set_idx_lookup_notin {A} (a : list A) idx vals j :
  j ∉ idx → set_idx a idx vals !! j = a !! j.
Proof.
  revert a vals. induction idx as [|i idx IH]; intros a [|x vals] Hj; cbn; auto.
  apply not_elem_of_cons in Hj as [Hne Hj].
  rewrite IH by done. by apply list_lookup_insert_ne.
Qed.

Lemma set_idx_lookup_in {A} (a : list A) idx vals k j x :
  NoDup idx → idx !! k = Some j → vals !! k = Some x → (j < length a)%nat →
  set_idx a idx vals !! j = Some x.
Proof.
  revert a vals k. induction idx as [|i idx IH]; intros a [|y vals] k Hnd Hk Hx Hlt;
    try done.
  apply NoDup_cons in Hnd as [Hi Hnd]. destruct k as [|k]; cbn in *.
  - simplify_eq. rewrite set_idx_lookup_notin by done.
    by apply list_lookup_insert_eq.
  - eapply IH; eauto. by rewrite length_insert.
Qed.

(** ** In-place addition at an index array *)

Lemma iadd_idx_is_Some a idx vals :
  is_Some (iadd_idx a idx vals) ↔ Forall (λ i, (i < length a)%nat) idx.
Proof.
  rewrite <- take_idx_is_Some. unfold iadd_idx.
  destruct (take_idx a idx); cbn; split; intros [? ?]; eauto; done.
Qed.

Lemma iadd_idx_length a idx vals a' :
  iadd_idx a idx vals = Some a' → length a' = length a.
Proof.
  unfold iadd_idx. destruct (take_idx a idx); cbn; [| done].
  intros [= <-]. apply length_set_idx.
Qed.

Lemma iadd_idx_notin a idx vals a' j :
  iadd_idx a idx vals = Some a' → j ∉ idx → a' !! j = a !! j.
Proof.
  unfold iadd_idx. destruct (take_idx a idx); cbn; [| done].
  intros [= <-] Hj. by apply set_idx_lookup_notin.
Qed.

Lemma iadd_idx_in a idx vals a' k j x :
  NoDup idx → iadd_idx a idx vals = Some a' →
  idx !! k = Some j → vals !! k = Some x →
  ∃ z, a !! j = Some z ∧ a' !! j = Some (z + x)%num.
Proof.
  unfold iadd_idx. destruct (take_idx a idx) as [cur|] eqn:Hcur; cbn; [| done].
  intros Hnd [= <-] Hk Hx.
  assert (is_Some (cur !! k)) as [z Hz].
  { apply lookup_lt_is_Some. rewrite (take_idx_length _ _ _ Hcur).
    by eapply lookup_lt_Some. }
  pose proof (take_idx_lookup _ _ _ _ _ Hcur Hk) as Hzj.
  rewrite Hz in Hzj. exists z. split; [done |].
  eapply set_idx_lookup_in; eauto.
  - rewrite lookup_zip_with, Hz, Hx. done.
  - by eapply lookup_lt_Some.
Qed.

Lemma length_scatter n idx vals : length (scatter n idx vals) = n.
Proof. unfold scatter. by rewrite length_set_idx, length_replicate. Qed.

Lemma iadd_idx_additive a idx vals a' :
  NoDup idx → length vals = length idx → iadd_idx a idx vals = Some a' →
  a' = zip_with nadd a (scatter (length a) idx vals).
Proof.
  intros Hnd Hlen Ha'. apply list_eq. intros j.
  rewrite lookup_zip_with. unfold scatter.
  destruct (decide (j ∈ idx)) as [Hin | Hnin].
  - apply list_elem_of_lookup in Hin as [k Hk].
    assert (is_Some (vals !! k)) as [x Hx].
    { apply lookup_lt_is_Some. rewrite Hlen. by eapply lookup_lt_Some. }
    destruct (iadd_idx_in _ _ _ _ _ _ _ Hnd Ha' Hk Hx) as (z & Hz & ->).
    rewrite Hz. cbn.
    erewrite set_idx_lookup_in; eauto.
    rewrite length_replicate. by eapply lookup_lt_Some.
  - rewrite (iadd_idx_notin _ _ _ _ _ Ha' Hnin).
    rewrite set_idx_lookup_notin by done.
    destruct (a !! j) as [z|] eqn:Hz; cbn; [| done].
    rewrite lookup_replicate_2 by (by eapply lookup_lt_Some). cbn.
    by rewrite nadd_0_r.
Qed.

Lemma zip_with_nadd_zeros (a : list num) :
  zip_with nadd a (replicate (length a) (Fin 0)) = a.
Proof.
  induction a as [|x a IH]; cbn; [done |]. by rewrite nadd_0_r, IH.
Qed.

(** [a[idx] += 0] leaves every entry as it is. *)
Lemma iadd_idx_zeros a idx a' :
  iadd_idx a idx (replicate (length idx) (Fin 0)) = Some a' → a' = a.
Proof.
  unfold iadd_idx. destruct (take_idx a idx) as [cur|] eqn:Hcur; cbn; [| done].
  intros [= <-]. apply list_eq. intros j.
  assert (Hz : zip_with nadd cur (replicate (length idx) (Fin 0)) = cur).
  { rewrite <- (take_idx_length _ _ _ Hcur). apply zip_with_nadd_zeros. }
  rewrite Hz. clear Hz.
  revert a cur Hcur. induction idx as [|i idx IH]; intros a cur Hcur; [done |].
  unfold take_idx in Hcur. cbn in Hcur.
  destruct (a !! i) as [z|] eqn:Hi; cbn in Hcur; [| done].
  destruct (mapM (λ i, a !! i) idx) as [cur'|] eqn:Hm; cbn in Hcur; [| done].
  injection Hcur as <-. cbn.
  rewrite list_insert_id by done. by apply IH.
Qed.

(** ** The crater kernel without a rim *)

Section crater_properties.
Context `{RandomSource}.

Lemma crater_complex_fst mg d radius rim :
  (crater_complex mg d radius rim).1 = mg.
Proof.
  unfold crater_complex. by repeat case_match.
Qed.

Lemma crater_without_rim_outside mg d diameter radius H1 H2 m i :
  i ∉ np_where (λ x, bool_decide (x <= radius * 0.9)) d →
  (crater_without_rim mg d diameter radius H1 H2 m).1 !! i = mg !! i.
Proof.
  intros Hi. unfold crater_without_rim.
  destruct (take_idx mg _) as [Z_in|]; [| done]. cbn zeta.
  destruct (iadd_idx mg _ _) as [mg1|] eqn:H1'; [| done].
  assert (mg1 !! i = mg !! i) as Hmg1 by (by eapply iadd_idx_notin).
  destruct (iadd_idx mg1 _ _) as [mg2|] eqn:H2'; [| done].
  apply iadd_idx_zeros in H2' as ->. done.
Qed.

(** C2.  Without a rim, [crater_depth] leaves the elevation of every node
    whose distance from the crater center exceeds 0.9 * radius exactly as it
    was, for every field, distance array and positive diameter; a node whose
    elevation changed has a distance of at most 0.9 * radius. *)
Theorem crater_depth_no_rim_frame (g : module_state) (mg : list num)
    (d : list R) (diameter : R) :
  0 < diameter →
  let radius := diameter * 1000 / 2 in
  let mg' := (crater_depth g mg d diameter false).1 in
  (∀ i x, d !! i = Some x → x > 0.9 * radius → mg' !! i = mg !! i) ∧
  (∀ i, mg' !! i ≠ mg !! i → ∃ x, d !! i = Some x ∧ x <= 0.9 * radius).
Proof.
  intros Hpos radius mg'.
  assert (Hout : ∀ i,
    i ∉ np_where (λ x, bool_decide (x <= radius * 0.9)) d → mg' !! i = mg !! i).
  { intros i Hi. unfold mg', crater_depth.
    destruct (shape_parameters _); [| done | by rewrite crater_complex_fst].
    by apply crater_without_rim_outside. }
  split.
  - intros i x Hx Hgt. apply Hout. rewrite np_where_elem.
    intros (y & Hy & Hle). rewrite Hx in Hy. injection Hy as <-.
    apply bool_decide_eq_true in Hle. lra.
  - intros i Hne.
    destruct (decide (i ∈ np_where (λ x, bool_decide (x <= radius * 0.9)) d))
      as [Hin | Hnin]; [| by apply Hout in Hnin].
    apply np_where_elem in Hin as (x & Hx & Hle).
    apply bool_decide_eq_true in Hle. exists x. split; [done | lra].
Qed.

(** ** Shape parameters *)

Lemma float_pow_pos x y : 0 < x → float_pow x y = Rpower x y.
Proof. intros Hx. unfold float_pow. by rewrite decide_True. Qed.

Lemma Rpower_pos x y : 0 < Rpower x y.
Proof. unfold Rpower. apply exp_pos. Qed.

(** C1.  For every positive diameter, with [Dm] the diameter in meters,
    [crater_depth] takes the shape parameters of the regime switch: below or
    at 7000 m the simple-crater values of H1, H2 and m_exp, above 7000 m the
    complex-crater values; the exterior exponent is
    n = 2 - H2 / ((H2 - H1)/2 + H1/(m_exp + 2)) of exactly these values, and
    the crater is built from H1, H2, m_exp and n.  (Where the denominator of
    n is zero the formula has no value and Python's division raises.) *)
Theorem crater_depth_shape_parameters (g : module_state) (mg : list num)
    (d : list R) (diameter_km : R) (rim : bool) :
  0 < diameter_km →
  let Dm := diameter_km * 1000 in
  ∃ H1 H2 m_exp : R,
    (Dm <= 7000 →
       H1 = 2.54 * Rpower Dm 0.67 ∧ H2 = 1.93 * Rpower Dm 0.52 ∧
       m_exp = 0.73 * Rpower Dm 0.11) ∧
    (Dm > 7000 →
       H1 = 12.20 * Rpower Dm 0.49 ∧ H2 = 0.79 * Rpower Dm 0.6 ∧
       m_exp = 0.64 * Rpower Dm 0.13) ∧
    let den := (H2 - H1) / 2 + H1 / (m_exp + 2) in
    let n := 2 - H2 / den in
    (den ≠ 0 →
       shape_parameters Dm = Shape H1 H2 m_exp n ∧
       crater_depth g mg d diameter_km rim =
         if rim then
           crater_with_rim mg d Dm (Dm / 2) H1 H2 m_exp n
             (draw_Z_noise (default_rng (seed g)))
         else crater_without_rim mg d Dm (Dm / 2) H1 H2 m_exp) ∧
    (den = 0 →
       crater_depth g mg d diameter_km rim = (mg, Some ZeroDivisionError)).
Proof.
  intros Hpos Dm. assert (0 < Dm) as HDm by (unfold Dm; lra).
  unfold crater_depth, shape_parameters. fold Dm.
  rewrite decide_False by lra.
  rewrite !float_pow_pos by done.
  destruct (decide (Dm <= 7000)) as [Hle | Hgt].
  - exists (2.54 * Rpower Dm 0.67), (1.93 * Rpower Dm 0.52),
      (0.73 * Rpower Dm 0.11).
    split; [done |]. split; [intros; lra |]. cbn zeta. split.
    + intros Hden. by rewrite decide_False.
    + intros Hden. by rewrite decide_True.
  - exists (12.20 * Rpower Dm 0.49), (0.79 * Rpower Dm 0.6),
      (0.64 * Rpower Dm 0.13).
    split; [intros; lra |]. split; [done |]. cbn zeta. split.
    + intros Hden. by rewrite decide_False.
    + intros Hden. by rewrite decide_True.
Qed.

(** ** The crater kernel with a rim, node by node *)

Lemma take_idx_np_where {A} (a : list A) p d :
  (length d ≤ length a)%nat → is_Some (take_idx a (np_where p d)).
Proof.
  intros Hlen. apply take_idx_is_Some, Forall_forall. intros i Hi.
  apply np_where_lt in Hi. lia.
Qed.

Lemma inside_or_outside (radius x : R) :
  bool_decide (x > radius) = negb (bool_decide (x <= radius)).
Proof.
  destruct (decide (x <= radius)).
  - rewrite (bool_decide_eq_true_2 (x <= radius)) by done.
    apply bool_decide_eq_false_2. lra.
  - rewrite (bool_decide_eq_false_2 (x <= radius)) by done.
    apply bool_decide_eq_true_2. lra.
Qed.

(** When the distance array is not longer than the field, the branch with a
    rim raises nothing, and every node that has a distance receives the
    inside or the outside increment of its distance. *)
Lemma crater_with_rim_nodes mg d diameter radius H1 H2 m n noise :
  (length d ≤ length mg)%nat →
  ∃ mg' Z_in Z_out,
    crater_with_rim mg d diameter radius H1 H2 m n noise = (mg', None) ∧
    take_idx mg (np_where (λ x, bool_decide (x <= radius)) d) = Some Z_in ∧
    take_idx mg (np_where (λ x, bool_decide (x > radius)) d) = Some Z_out ∧
    length mg' = length mg ∧
    (∀ i, d !! i = None → mg' !! i = mg !! i) ∧
    (∀ i x z, d !! i = Some x → mg !! i = Some z →
       mg' !! i = Some (z + if bool_decide (x <= radius)
                            then DE_in_at diameter radius H1 H2 (noise * H1) m z x
                            else DE_out_at diameter radius H2 n
                                   (np_average Z_in) (np_average Z_out) z x)%num).
Proof.
  intros Hlen. unfold crater_with_rim.
  set (in_idx := np_where (λ x, bool_decide (x <= radius)) d).
  set (out_idx := np_where (λ x, bool_decide (x > radius)) d).
  destruct (take_idx_np_where mg (λ x, bool_decide (x <= radius)) d Hlen)
    as [Z_in HZin].
  destruct (take_idx_np_where mg (λ x, bool_decide (x > radius)) d Hlen)
    as [Z_out HZout].
  fold in_idx in HZin. fold out_idx in HZout. rewrite HZin, HZout. cbn zeta.
  set (DE_in := zip_with nadd _ _).
  set (DE_out := zip_with nadd _ _).
  assert (HlenZin : length Z_in = length in_idx) by (by eapply take_idx_length).
  assert (HlenZout : length Z_out = length out_idx) by (by eapply take_idx_length).
  assert (HlenDEin : length DE_in = length in_idx).
  { unfold DE_in.
    repeat first [rewrite length_zip_with | rewrite length_fmap]. lia. }
  assert (HlenDEout : length DE_out = length out_idx).
  { unfold DE_out.
    repeat first [rewrite length_zip_with | rewrite length_fmap]. lia. }
  destruct (iadd_idx mg in_idx DE_in) as [mg1|] eqn:Hmg1; last first.
  { exfalso. apply eq_None_not_Some in Hmg1. apply Hmg1.
    apply iadd_idx_is_Some, take_idx_is_Some. eauto. }
  pose proof (iadd_idx_length _ _ _ _ Hmg1) as Hlen1.
  destruct (iadd_idx mg1 out_idx DE_out) as [mg2|] eqn:Hmg2; last first.
  { exfalso. apply eq_None_not_Some in Hmg2. apply Hmg2.
    apply iadd_idx_is_Some. rewrite Hlen1. apply take_idx_is_Some. eauto. }
  pose proof (iadd_idx_length _ _ _ _ Hmg2) as Hlen2.
  exists mg2, Z_in, Z_out. repeat split; [congruence | |].
  - intros i Hi.
    assert (i ∉ in_idx) as Hni.
    { unfold in_idx. rewrite np_where_elem. intros (y & Hy & _). congruence. }
    assert (i ∉ out_idx) as Hno.
    { unfold out_idx. rewrite np_where_elem. intros (y & Hy & _). congruence. }
    rewrite (iadd_idx_notin _ _ _ _ _ Hmg2), (iadd_idx_notin _ _ _ _ _ Hmg1); done.
  - intros i x z Hx Hz. destruct (bool_decide (x <= radius)) eqn:Hin.
    + assert (i ∈ in_idx) as Hi by (unfold in_idx; rewrite np_where_elem; eauto).
      assert (i ∉ out_idx).
      { unfold out_idx. rewrite np_where_elem. intros (y & Hy & Hout).
        rewrite Hx in Hy. injection Hy as <-.
        rewrite inside_or_outside, Hin in Hout. done. }
      rewrite (iadd_idx_notin _ _ _ _ _ Hmg2) by done.
      apply list_elem_of_lookup in Hi as [k Hk].
      assert (DE_in !! k
              = Some (DE_in_at diameter radius H1 H2 (noise * H1) m z x))
        as HDE.
      { unfold DE_in.
        repeat first [rewrite lookup_zip_with | rewrite list_lookup_fmap].
        rewrite Hk, !(take_idx_lookup _ _ _ _ _ HZin Hk), Hz. cbn.
        by rewrite (list_lookup_total_correct _ _ _ Hx). }
      destruct (iadd_idx_in _ _ _ _ _ _ _ (np_where_NoDup _ _) Hmg1 Hk HDE)
        as (z' & Hz' & ->).
      congruence.
    + assert (i ∈ out_idx) as Hi.
      { unfold out_idx. rewrite np_where_elem. exists x. split; [done |].
        by rewrite inside_or_outside, Hin. }
      assert (i ∉ in_idx).
      { unfold in_idx. rewrite np_where_elem. intros (y & Hy & Hout).
        rewrite Hx in Hy. injection Hy as <-. congruence. }
      apply list_elem_of_lookup in Hi as [k Hk].
      assert (DE_out !! k = Some (DE_out_at diameter radius H2 n
                (np_average Z_in) (np_average Z_out) z x)) as HDE.
      { unfold DE_out.
        repeat first [rewrite lookup_zip_with | rewrite list_lookup_fmap].
        rewrite Hk, !(take_idx_lookup _ _ _ _ _ HZout Hk), Hz. cbn.
        by rewrite (list_lookup_total_correct _ _ _ Hx). }
      destruct (iadd_idx_in _ _ _ _ _ _ _ (np_where_NoDup _ _) Hmg2 Hk HDE)
        as (z' & Hz' & ->).
      rewrite (iadd_idx_notin _ _ _ _ _ Hmg1) in Hz' by done. congruence.
Qed.

(** Without a rim: the same when the distance array is not longer than the
    field; a node beyond 0.9 * radius keeps its elevation. *)
Lemma crater_without_rim_nodes mg d diameter radius H1 H2 m :
  (length d ≤ length mg)%nat →
  ∃ mg',
    crater_without_rim mg d diameter radius H1 H2 m = (mg', None) ∧
    length mg' = length mg ∧
    (∀ i, d !! i = None → mg' !! i = mg !! i) ∧
    (∀ i x z, d !! i = Some x → mg !! i = Some z →
       mg' !! i = Some (if bool_decide (x <= radius * 0.9)
                        then (z + DE_in_at diameter radius H1 H2 H1 m z x)%num
                        else z)).
Proof.
  intros Hlen. unfold crater_without_rim.
  set (in_idx := np_where (λ x, bool_decide (x <= radius * 0.9)) d).
  set (out_idx := np_where (λ x, bool_decide (x > radius * 0.9)) d).
  destruct (take_idx_np_where mg (λ x, bool_decide (x <= radius * 0.9)) d Hlen)
    as [Z_in HZin].
  fold in_idx in HZin. rewrite HZin. cbn zeta.
  set (DE_in := zip_with nadd _ _).
  assert (HlenZin : length Z_in = length in_idx) by (by eapply take_idx_length).
  destruct (iadd_idx mg in_idx DE_in) as [mg1|] eqn:Hmg1; last first.
  { exfalso. apply eq_None_not_Some in Hmg1. apply Hmg1.
    apply iadd_idx_is_Some, take_idx_is_Some. eauto. }
  pose proof (iadd_idx_length _ _ _ _ Hmg1) as Hlen1.
  destruct (iadd_idx mg1 out_idx _) as [mg2|] eqn:Hmg2; last first.
  { exfalso. apply eq_None_not_Some in Hmg2. apply Hmg2.
    apply iadd_idx_is_Some. rewrite Hlen1.
    apply take_idx_is_Some, take_idx_np_where. done. }
  apply iadd_idx_zeros in Hmg2 as ->.
  exists mg1. repeat split; [done | |].
  - intros i Hi. apply (iadd_idx_notin _ _ _ _ _ Hmg1).
    unfold in_idx. rewrite np_where_elem. intros (y & Hy & _). congruence.
  - intros i x z Hx Hz. destruct (bool_decide (x <= radius * 0.9)) eqn:Hin.
    + assert (i ∈ in_idx) as Hi by (unfold in_idx; rewrite np_where_elem; eauto).
      apply list_elem_of_lookup in Hi as [k Hk].
      assert (DE_in !! k = Some (DE_in_at diameter radius H1 H2 H1 m z x))
        as HDE.
      { unfold DE_in.
        repeat first [rewrite lookup_zip_with | rewrite list_lookup_fmap].
        rewrite Hk, !(take_idx_lookup _ _ _ _ _ HZin Hk), Hz. cbn.
        by rewrite (list_lookup_total_correct _ _ _ Hx). }
      destruct (iadd_idx_in _ _ _ _ _ _ _ (np_where_NoDup _ _) Hmg1 Hk HDE)
        as (z' & Hz' & ->).
      congruence.
    + rewrite (iadd_idx_notin _ _ _ _ _ Hmg1); [done |].
      unfold in_idx. rewrite np_where_elem. intros (y & Hy & Hout).
      rewrite Hx in Hy. injection Hy as <-. congruence.
Qed.

(** ** A crater that contains no node *)

Lemma np_average_nil : np_average [] = NaN.
Proof. unfold np_average. cbn. by rewrite decide_True. Qed.

Lemma DE_out_at_NaN diameter radius H2 n avgout z x :
  DE_out_at diameter radius H2 n NaN avgout z x = NaN.
Proof.
  unfold DE_out_at, E_ref_out_at.
  by rewrite nadd_NaN_l, nsub_NaN_l, nmul_NaN_r, nadd_NaN_r.
Qed.

(** With no node within the radius the mean of the inside elevations is the
    mean of an empty slice: every node that has a distance ends as NaN. *)
Lemma crater_with_rim_no_node_inside mg d diameter radius H1 H2 m n noise :
  (length d ≤ length mg)%nat →
  Forall (λ x, x > radius) d →
  ∃ mg', crater_with_rim mg d diameter radius H1 H2 m n noise = (mg', None) ∧
         length mg' = length mg ∧
         (∀ i, (i < length d)%nat → mg' !! i = Some NaN) ∧
         (∀ i, (length d ≤ i)%nat → mg' !! i = mg !! i).
Proof.
  intros Hlen Hout.
  destruct (crater_with_rim_nodes mg d diameter radius H1 H2 m n noise Hlen)
    as (mg' & Z_in & Z_out & Hrun & HZin & _ & Hlen' & Hnone & Hsome).
  assert (np_where (λ x, bool_decide (x <= radius)) d = []) as Hnil.
  { apply elem_of_nil_inv. intros i. rewrite np_where_elem.
    intros (x & Hx & Hle). apply bool_decide_eq_true in Hle.
    rewrite Forall_lookup in Hout. apply Hout in Hx. lra. }
  rewrite Hnil in HZin. injection HZin as <-.
  exists mg'. repeat split; [done | done | |].
  - intros i Hi.
    destruct (lookup_lt_is_Some_2 d i Hi) as [x Hx].
    destruct (lookup_lt_is_Some_2 mg i ltac:(lia)) as [z Hz].
    rewrite (Hsome i x z Hx Hz).
    rewrite Forall_lookup in Hout. pose proof (Hout _ _ Hx).
    rewrite bool_decide_eq_false_2 by lra.
    rewrite np_average_nil, DE_out_at_NaN. by destruct z.
  - intros i Hi. apply Hnone. by apply lookup_ge_None_2.
Qed.

(** ** The increments on a finite field with a node inside the crater *)

Lemma shape_parameters_positive Dm H1 H2 m n :
  0 < Dm → shape_parameters Dm = Shape H1 H2 m n → 0 < H1 ∧ 0 < H2 ∧ 0 < m.
Proof.
  intros HDm. unfold shape_parameters. rewrite decide_False by lra.
  rewrite !float_pow_pos by done.
  pose proof (Rpower_pos Dm 0.67). pose proof (Rpower_pos Dm 0.52).
  pose proof (Rpower_pos Dm 0.11). pose proof (Rpower_pos Dm 0.49).
  pose proof (Rpower_pos Dm 0.6). pose proof (Rpower_pos Dm 0.13).
  destruct (decide (Dm <= 7000)); cbn zeta; case_decide; try done;
    intros [= <- <- <- <-]; repeat split; lra.
Qed.

Lemma nsum_finite (l : list num) :
  Forall (λ z, ∃ r, z = Fin r) l → ∃ r, nsum l = Fin r.
Proof.
  induction 1 as [|z l [r ->] _ [s IH]]; cbn; [by eauto |].
  unfold nsum in IH. rewrite IH. cbn. eauto.
Qed.

Lemma np_average_finite (l : list num) :
  l ≠ [] → Forall (λ z, ∃ r, z = Fin r) l → ∃ r, np_average l = Fin r.
Proof.
  intros Hne Hfin. destruct (nsum_finite l Hfin) as [s Hs].
  unfold np_average. rewrite Hs. cbn.
  rewrite decide_False; [by eauto |].
  destruct l as [|z l]; [done |]. apply not_0_INR. cbn. lia.
Qed.

Lemma take_idx_finite (zs : list R) idx Z :
  take_idx (Fin <$> zs) idx = Some Z → Forall (λ z, ∃ r, z = Fin r) Z.
Proof.
  intros HZ. apply Forall_lookup. intros k z Hk.
  assert (is_Some (idx !! k)) as [i Hi].
  { apply lookup_lt_is_Some. rewrite <- (take_idx_length _ _ _ HZ).
    by eapply lookup_lt_Some. }
  rewrite (take_idx_lookup _ _ _ _ _ HZ Hi), list_lookup_fmap in Hk.
  destruct (zs !! i) as [r|]; [| done]. injection Hk as <-. eauto.
Qed.

Lemma take_idx_nonempty {A} (a : list A) idx Z :
  take_idx a idx = Some Z → idx ≠ [] → Z ≠ [].
Proof.
  intros HZ Hne ->. apply take_idx_length in HZ. by destruct idx.
Qed.

Lemma DE_in_at_finite diameter radius H1 H2 c m z x :
  DE_in_at diameter radius H1 H2 c m (Fin z) x = DH_in_at diameter H1 H2 c m x.
Proof.
  unfold DE_in_at. cbn [nsub nmul lift2].
  replace (1 * (z - z) * (1 - 1 * (x / radius) ^ 2)) with 0 by lra.
  apply nadd_0_r.
Qed.

Lemma DE_out_at_finite diameter radius H2 n a b z x :
  0 < diameter → 0 < radius → 0 < H2 → radius < x →
  DE_out_at diameter radius H2 n (Fin a) (Fin b) (Fin z) x
  = DH_out_at diameter H2 n x.
Proof.
  intros Hd Hr HH2 Hx. unfold DE_out_at, E_ref_out_at, DH_out_at, np_pow.
  assert (0 < 2 * x / diameter).
  { apply Rdiv_lt_0_compat; lra. }
  assert (0 < x / radius).
  { apply Rdiv_lt_0_compat; lra. }
  rewrite !decide_True by done. cbn [nadd nsub nmul lift2 ndiv np_min2].
  rewrite decide_False by lra. cbn [lift2].
  rewrite Rmin_left; last first.
  { pose proof (Rpower_pos (2 * x / diameter) (- n)).
    replace (H2 * Rpower (2 * x / diameter) (- n) / H2)
      with (Rpower (2 * x / diameter) (- n)) by (field; lra).
    lra. }
  f_equal. lra.
Qed.

(** On a field of finite elevations, when at least one node lies within the
    radius, every node with a distance receives the shape term alone: DH_in
    inside and DH_out outside. *)
Proposition crater_depth_increments_on_finite_field (g : module_state)
    (zs : list R) (d : list R) (diameter_km H1 H2 m n : R) :
  0 < diameter_km →
  let Dm := diameter_km * 1000 in
  let radius := Dm / 2 in
  let Z_noise := draw_Z_noise (default_rng (seed g)) in
  shape_parameters Dm = Shape H1 H2 m n →
  (length d ≤ length zs)%nat →
  (∃ x, x ∈ d ∧ x <= radius) →
  ∃ mg',
    crater_depth g (Fin <$> zs) d diameter_km true = (mg', None) ∧
    ∀ i x z, d !! i = Some x → zs !! i = Some z →
      mg' !! i = Some (Fin z + if bool_decide (x <= radius)
                               then DH_in_at Dm H1 H2 (Z_noise * H1) m x
                               else DH_out_at Dm H2 n x)%num.
Proof.
  intros Hpos Dm radius Z_noise Hshape Hlen (x0 & Hx0 & Hx0le).
  assert (0 < Dm) as HDm by (unfold Dm; lra).
  destruct (shape_parameters_positive _ _ _ _ _ HDm Hshape) as (_ & HH2 & _).
  unfold crater_depth. fold Dm. rewrite Hshape. fold radius. fold Z_noise.
  destruct (crater_with_rim_nodes (Fin <$> zs) d Dm radius H1 H2 m n Z_noise)
    as (mg' & Z_in & Z_out & -> & HZin & HZout & _ & _ & Hsome).
  { by rewrite length_fmap. }
  exists mg'. split; [done |]. intros i x z Hx Hz.
  rewrite (Hsome i x (Fin z) Hx) by (by rewrite list_lookup_fmap, Hz).
  do 2 f_equal. destruct (bool_decide (x <= radius)) eqn:Hin.
  - apply DE_in_at_finite.
  - apply bool_decide_eq_false in Hin.
    destruct (np_average_finite Z_in) as [a ->].
    { eapply take_idx_nonempty; [done |]. intros Hnil.
      apply list_elem_of_lookup in Hx0 as [j Hj].
      assert (j ∈ np_where (λ x, bool_decide (x <= radius)) d) as Hjin.
      { apply np_where_elem. exists x0. split; [done |].
        by apply bool_decide_eq_true_2. }
      rewrite Hnil in Hjin. by apply elem_of_nil in Hjin. }
    { by eapply take_idx_finite. }
    destruct (np_average_finite Z_out) as [b ->].
    { eapply take_idx_nonempty; [done |]. intros Hnil.
      assert (i ∈ np_where (λ x, bool_decide (x > radius)) d) as Hiout.
      { apply np_where_elem. exists x. split; [done |].
        apply bool_decide_eq_true_2. lra. }
      rewrite Hnil in Hiout. by apply elem_of_nil in Hiout. }
    { by eapply take_idx_finite. }
    apply DE_out_at_finite; unfold radius in *; lra.
Qed.

(** *** The shape parameters of a crater of 1 km *)

Lemma Rpower_root_lt (x r : R) (p q : nat) :
  0 < x → 0 < r → (0 < q)%nat → x ^ p < r ^ q →
  Rpower x (INR p / INR q) < r.
Proof.
  intros Hx Hr Hq Hlt.
  assert (0 < INR q) as Hq' by (apply lt_0_INR; lia).
  assert (Hroot : Rpower (r ^ q) (/ INR q) = r).
  { rewrite <- Rpower_pow, Rpower_mult, Rinv_r, Rpower_1 by lra. reflexivity. }
  unfold Rdiv. rewrite <- Rpower_mult, Rpower_pow by done.
  rewrite <- Hroot.
  apply Rlt_Rpower_l; [by apply Rinv_0_lt_compat |].
  split; [by apply pow_lt | done].
Qed.

Lemma Rpower_root_gt (x r : R) (p q : nat) :
  0 < x → 0 < r → (0 < q)%nat → r ^ q < x ^ p →
  r < Rpower x (INR p / INR q).
Proof.
  intros Hx Hr Hq Hlt.
  assert (0 < INR q) as Hq' by (apply lt_0_INR; lia).
  assert (Hroot : Rpower (r ^ q) (/ INR q) = r).
  { rewrite <- Rpower_pow, Rpower_mult, Rinv_r, Rpower_1 by lra. reflexivity. }
  unfold Rdiv. rewrite <- Rpower_mult, Rpower_pow by done.
  rewrite <- Hroot.
  apply Rlt_Rpower_l; [by apply Rinv_0_lt_compat |].
  split; [by apply pow_lt | done].
Qed.

Lemma pow_1000_067 : 99 < Rpower 1000 0.67.
Proof.
  apply Rlt_trans with (Rpower 1000 (INR 2 / INR 3)).
  - apply Rpower_root_gt; [lra | lra | lia | simpl; lra].
  - apply Rpower_lt; [lra | simpl; lra].
Qed.

Lemma pow_1000_052 : Rpower 1000 0.52 < 47.
Proof.
  apply Rlt_trans with (Rpower 1000 (INR 5 / INR 9)).
  - apply Rpower_lt; [lra | simpl; lra].
  - apply Rpower_root_lt; [lra | lra | lia | simpl; lra].
Qed.

Lemma pow_1000_011 : 1.9 < Rpower 1000 0.11.
Proof.
  apply Rlt_trans with (Rpower 1000 (INR 1 / INR 10)).
  - apply Rpower_root_gt; [lra | lra | lia | simpl; lra].
  - apply Rpower_lt; [lra | simpl; lra].
Qed.

(** At 1000 m the denominator of the exterior exponent is negative. *)
Lemma den_1000_nonzero :
  let H1 := 2.54 * Rpower 1000 0.67 in
  let H2 := 1.93 * Rpower 1000 0.52 in
  let m := 0.73 * Rpower 1000 0.11 in
  (H2 - H1) / 2 + H1 / (m + 2) ≠ 0.
Proof.
  intros H1 H2 m.
  pose proof pow_1000_067. pose proof pow_1000_052. pose proof pow_1000_011.
  pose proof (Rpower_pos 1000 0.52).
  assert (Hm : 1.387 <= m) by (unfold m; lra).
  assert (HH1 : 251.46 <= H1) by (unfold H1; lra).
  assert (HH2 : H2 <= 90.71) by (unfold H2; lra).
  assert (0 < H2) by (unfold H2; lra).
  clearbody H1 H2 m.
  assert (Heq : ((H2 - H1) / 2 + H1 / (m + 2)) * (2 * (m + 2))
                = H2 * (m + 2) - H1 * m) by (field; lra).
  intros Hz. rewrite Hz in Heq. nra.
Qed.

Lemma shape_parameters_1km :
  ∃ n, shape_parameters (1 * 1000)
       = Shape (2.54 * Rpower 1000 0.67) (1.93 * Rpower 1000 0.52)
               (0.73 * Rpower 1000 0.11) n.
Proof.
  replace (1 * 1000) with 1000 by lra.
  unfold shape_parameters.
  rewrite decide_False by lra. rewrite decide_True by lra.
  rewrite !float_pow_pos by lra.
  rewrite decide_False by apply den_1000_nonzero. eauto.
Qed.

(** C6.  The increment that [crater_depth] adds is not always the shape term
    alone.  A flat field of two nodes at elevation 0, both outside a crater
    of 1 km (radius 500 m) at distances 2000 m and 1000 m: [avgin] is the
    mean of an empty slice, the reference elevation outside is nan, and
    although the blend weight G is 0 the product G * (E_ref_out - Z_out) is
    nan.  Both nodes end as NaN; the outside shape term DH_out is a finite
    number there. *)
Theorem crater_depth_no_node_inside_nan (g : module_state) :
  crater_depth g [Fin 0; Fin 0] [2000; 1000] 1 true = ([NaN; NaN], None).
Proof.
  unfold crater_depth.
  destruct shape_parameters_1km as (n & ->).
  destruct (crater_with_rim_no_node_inside [Fin 0; Fin 0] [2000; 1000]
              (1 * 1000) (1 * 1000 / 2) (2.54 * Rpower 1000 0.67)
              (1.93 * Rpower 1000 0.52) (0.73 * Rpower 1000 0.11) n
              (draw_Z_noise (default_rng (seed g))))
    as (mg' & -> & Hlen & Hnan & _).
  - done.
  - repeat constructor; lra.
  - f_equal. destruct mg' as [|a [|b [|? ?]]]; try done.
    pose proof (Hnan 0%nat ltac:(cbn; lia)) as Ha.
    pose proof (Hnan 1%nat ltac:(cbn; lia)) as Hb.
    cbn in Ha, Hb. congruence.
Qed.

(** ** Additive updates and the length of the field *)

Lemma additive_update_refl mg : additive_update mg mg.
Proof.
  exists (replicate (length mg) (Fin 0)). split.
  - by rewrite length_replicate.
  - by rewrite zip_with_nadd_zeros.
Qed.

Lemma zip_with_nadd_assoc (a b c : list num) :
  zip_with nadd (zip_with nadd a b) c = zip_with nadd a (zip_with nadd b c).
Proof.
  revert b c. induction a as [|x a IH]; intros [|y b] [|z c]; cbn; try done.
  by rewrite IH, nadd_assoc.
Qed.

Lemma additive_update_trans mg1 mg2 mg3 :
  additive_update mg1 mg2 → additive_update mg2 mg3 → additive_update mg1 mg3.
Proof.
  intros (d1 & Hl1 & ->) (d2 & Hl2 & ->).
  exists (zip_with nadd d1 d2). split.
  - rewrite length_zip_with in *. lia.
  - by rewrite zip_with_nadd_assoc.
Qed.

Lemma additive_update_length mg mg' :
  additive_update mg mg' → length mg' = length mg.
Proof. intros (delta & Hl & ->). rewrite length_zip_with. lia. Qed.

Lemma iadd_idx_additive_update a idx vals a' :
  NoDup idx → length vals = length idx → iadd_idx a idx vals = Some a' →
  additive_update a a'.
Proof.
  intros Hnd Hlen Ha'. exists (scatter (length a) idx vals). split.
  - apply length_scatter.
  - by apply iadd_idx_additive.
Qed.

Lemma in_place_additions_trans mg1 mg2 mg3 :
  in_place_additions mg1 mg2 → in_place_additions mg2 mg3 →
  in_place_additions mg1 mg3.
Proof.
  induction 1 as [|mg idx vals mg1 mg2 Hnd Hlen Hadd _ IH]; [done |].
  intros H23. eapply additions_step; eauto.
Qed.

Lemma in_place_additions_one mg idx vals mg' :
  NoDup idx → length vals = length idx → iadd_idx mg idx vals = Some mg' →
  in_place_additions mg mg'.
Proof. intros. eapply additions_step; eauto. constructor. Qed.

Lemma in_place_additions_additive mg mg' :
  in_place_additions mg mg' → additive_update mg mg'.
Proof.
  induction 1 as [|mg idx vals mg1 mg2 Hnd Hlen Hadd _ IH].
  - apply additive_update_refl.
  - eapply additive_update_trans; [| done].
    by eapply iadd_idx_additive_update.
Qed.

Lemma crater_with_rim_additions mg d diameter radius H1 H2 m n noise :
  in_place_additions mg
    (crater_with_rim mg d diameter radius H1 H2 m n noise).1.
Proof.
  unfold crater_with_rim.
  destruct (take_idx mg _) as [Z_in|] eqn:HZin; [| constructor].
  destruct (take_idx mg (np_where (λ x, bool_decide (x > radius)) d))
    as [Z_out|] eqn:HZout; [| constructor].
  cbn zeta.
  apply take_idx_length in HZin, HZout.
  destruct (iadd_idx mg _ _) as [mg1|] eqn:Hmg1; [| constructor].
  assert (in_place_additions mg mg1) as Hstep1.
  { eapply in_place_additions_one; [apply np_where_NoDup | | done].
    repeat first [rewrite length_zip_with | rewrite length_fmap]. lia. }
  destruct (iadd_idx mg1 _ _) as [mg2|] eqn:Hmg2; [| done].
  eapply in_place_additions_trans; [done |].
  eapply in_place_additions_one; [apply np_where_NoDup | | done].
  repeat first [rewrite length_zip_with | rewrite length_fmap]. lia.
Qed.

Lemma crater_without_rim_additions mg d diameter radius H1 H2 m :
  in_place_additions mg (crater_without_rim mg d diameter radius H1 H2 m).1.
Proof.
  unfold crater_without_rim.
  destruct (take_idx mg _) as [Z_in|] eqn:HZin; [| constructor].
  cbn zeta. apply take_idx_length in HZin.
  destruct (iadd_idx mg _ _) as [mg1|] eqn:Hmg1; [| constructor].
  assert (in_place_additions mg mg1) as Hstep1.
  { eapply in_place_additions_one; [apply np_where_NoDup | | done].
    repeat first [rewrite length_zip_with | rewrite length_fmap]. lia. }
  destruct (iadd_idx mg1 _ _) as [mg2|] eqn:Hmg2; [| done].
  eapply in_place_additions_trans; [done |].
  eapply in_place_additions_one; [apply np_where_NoDup | | done].
  by rewrite length_replicate.
Qed.

Lemma crater_depth_additions g mg d diameter rim :
  in_place_additions mg (crater_depth g mg d diameter rim).1.
Proof.
  unfold crater_depth. destruct (shape_parameters _).
  - destruct rim; [apply crater_with_rim_additions
                  | apply crater_without_rim_additions].
  - constructor.
  - rewrite crater_complex_fst. constructor.
Qed.


(** ** Exceptions of the kernel *)

Lemma crater_depth_zero_diameter g mg d rim :
  crater_depth g mg d 0 rim = (mg, Some ZeroDivisionError).
Proof.
  unfold crater_depth, shape_parameters. rewrite Rmult_0_l.
  rewrite decide_False by lra. rewrite decide_True by lra.
  assert (Hpow : ∀ y, float_pow 0 y = 0).
  { intros y. unfold float_pow. rewrite decide_False by lra. done. }
  rewrite !Hpow. rewrite decide_True; [done |]. lra.
Qed.

Lemma crater_depth_negative_diameter g mg d diameter rim :
  diameter < 0 →
  crater_depth g mg d diameter rim = (mg, Some IndexError) ∨
  crater_depth g mg d diameter rim = (mg, Some UFuncTypeError).
Proof.
  intros Hneg. unfold crater_depth, shape_parameters.
  rewrite decide_True by lra. unfold crater_complex.
  repeat case_match; auto.
Qed.

(** With a rim every position of the distance array is in one of the two
    index arrays, so a position beyond the field stops the call at the
    first read. *)
Lemma crater_with_rim_long_distances mg d diameter radius H1 H2 m n noise :
  (length mg < length d)%nat →
  crater_with_rim mg d diameter radius H1 H2 m n noise = (mg, Some IndexError).
Proof.
  intros Hlen. unfold crater_with_rim.
  destruct (lookup_lt_is_Some_2 d (length mg) Hlen) as [x Hx].
  destruct (bool_decide (x <= radius)) eqn:Hin.
  - assert (take_idx mg (np_where (λ x, bool_decide (x <= radius)) d) = None)
      as ->; [| done].
    apply take_idx_None. exists (length mg). split; [| lia].
    apply np_where_elem. eauto.
  - assert (take_idx mg (np_where (λ x, bool_decide (x > radius)) d) = None)
      as ->; [| by case_match].
    apply take_idx_None. exists (length mg). split; [| lia].
    apply np_where_elem. exists x. split; [done |].
    by rewrite inside_or_outside, Hin.
Qed.

(** C7, as the code has it.  [crater_depth] checks neither the diameter nor
    the length of the distance array.  A zero or negative diameter still
    ends in an exception with the field untouched, raised by the arithmetic
    and not by a check.  A distance array longer than the field ends in an
    exception with the field untouched when the crater has a rim.  A
    distance array that is not longer than the field, of whatever length,
    is accepted with a positive diameter: the call raises nothing, unless
    the division of the exterior exponent fails, and nodes without a
    distance keep their elevation. *)
Theorem crater_depth_exceptions (g : module_state) (mg : list num)
    (d : list R) (diameter : R) (rim : bool) :
  (diameter <= 0 → ∃ e, crater_depth g mg d diameter rim = (mg, Some e)) ∧
  ((length mg < length d)%nat → rim = true →
     ∃ e, crater_depth g mg d diameter rim = (mg, Some e)) ∧
  (0 < diameter → (length d ≤ length mg)%nat →
     crater_depth g mg d diameter rim = (mg, Some ZeroDivisionError) ∨
     ∃ mg', crater_depth g mg d diameter rim = (mg', None) ∧
            length mg' = length mg ∧
            ∀ i, (length d ≤ i)%nat → mg' !! i = mg !! i).
Proof.
  split; [| split].
  - intros [Hneg | ->].
    + destruct (crater_depth_negative_diameter g mg d diameter rim Hneg)
        as [-> | ->]; eauto.
    + rewrite crater_depth_zero_diameter. eauto.
  - intros Hlen ->. unfold crater_depth.
    destruct (shape_parameters _); [| by eauto |].
    + rewrite crater_with_rim_long_distances by done. eauto.
    + unfold crater_complex.
      destruct (lookup_lt_is_Some_2 d (length mg) Hlen) as [x Hx].
      set (radius := diameter * 1000 / 2).
      destruct (bool_decide (x <= radius)) eqn:Hin.
      * assert (take_idx mg (np_where (λ x, bool_decide (x <= radius)) d)
                = None) as ->; [| by eauto].
        apply take_idx_None. exists (length mg). split; [| lia].
        apply np_where_elem. eauto.
      * assert (take_idx mg (np_where (λ x, bool_decide (x > radius)) d)
                = None) as ->; [| case_match; by eauto].
        apply take_idx_None. exists (length mg). split; [| lia].
        apply np_where_elem. exists x. split; [done |].
        by rewrite inside_or_outside, Hin.
  - intros Hpos Hlen. unfold crater_depth.
    destruct (shape_parameters _) as [H1 H2 m n | |] eqn:Hshape; [| by left |].
    + right. destruct rim.
      * destruct (crater_with_rim_nodes mg d (diameter * 1000)
                    (diameter * 1000 / 2) H1 H2 m n
                    (draw_Z_noise (default_rng (seed g))) Hlen)
          as (mg' & _ & _ & -> & _ & _ & Hl & Hnone & _).
        exists mg'. repeat split; [done |].
        intros i Hi. apply Hnone. by apply lookup_ge_None_2.
      * destruct (crater_without_rim_nodes mg d (diameter * 1000)
                    (diameter * 1000 / 2) H1 H2 m Hlen)
          as (mg' & -> & Hl & Hnone & _).
        exists mg'. repeat split; [done |].
        intros i Hi. apply Hnone. by apply lookup_ge_None_2.
    + exfalso. unfold shape_parameters in Hshape.
      rewrite decide_False in Hshape by lra. by repeat case_match.
Qed.

(** ** The increment of a call does not depend on the elevations *)

Lemma additive_update_NaN mg mg' i :
  additive_update mg mg' → mg !! i = Some NaN → mg' !! i = Some NaN.
Proof.
  intros (delta & Hlen & ->) Hi. rewrite lookup_zip_with, Hi. cbn.
  destruct (lookup_lt_is_Some_2 delta i) as [x ->]; [| done].
  rewrite Hlen. by eapply lookup_lt_Some.
Qed.

Lemma np_pow_sign a y : np_pow a y = NaN ∨ ∃ p, np_pow a y = Fin p ∧ 0 <= p.
Proof.
  unfold np_pow. repeat case_decide; eauto; right; eexists; (split; [done |]).
  - left. apply exp_pos.
  - lra.
  - lra.
Qed.

(** Outside the rim the factor G is 0 (or not a number), so the term
    [G * (E_ref_out - Z_out)] is 0 or not a number: the elevation and the
    two averages enter the increment through their finiteness only. *)
Lemma DE_out_at_pattern diameter radius H2 n a b a' b' z z' x :
  (a = NaN ↔ a' = NaN) → (b = NaN ↔ b' = NaN) →
  DE_out_at diameter radius H2 n a b (Fin z) x
  = DE_out_at diameter radius H2 n a' b' (Fin z') x.
Proof.
  intros Ha Hb. unfold DE_out_at, DH_out_at, E_ref_out_at.
  destruct (np_pow_sign (2 * x / diameter) (- n)) as [-> | (p & -> & Hp)];
    [done |].
  cbn [nmul lift2]. unfold ndiv.
  destruct (decide (H2 = 0)) as [HH2 | HH2]; [done |].
  cbn [np_min2 lift2]. replace (Rmin (1 - 1) (H2 * p / H2)) with 0.
  2:{ replace (H2 * p / H2) with p by (field; done).
      rewrite Rmin_left; lra. }
  destruct (np_pow (x / radius) (- n)) as [q|];
    destruct a as [a|], a' as [a'|], b as [b|], b' as [b'|]; cbn;
    try done;
    try (exfalso;
         first [discriminate (proj1 Ha eq_refl)
               | discriminate (proj2 Ha eq_refl)
               | discriminate (proj1 Hb eq_refl)
               | discriminate (proj2 Hb eq_refl)]).
  f_equal; lra.
Qed.

Lemma nsum_NaN (l : list num) : nsum l = NaN ↔ NaN ∈ l.
Proof.
  induction l as [|x l IH].
  - split; [done | by intros ?%elem_of_nil].
  - rewrite elem_of_cons. change (nsum (x :: l)) with (x + nsum l)%num.
    destruct x as [r|]; [| split; [by left | done]].
    destruct (nsum l) as [s|]; cbn.
    + split; [done |]. intros [? | Hin]; [done |].
      by apply IH in Hin.
    + split; [| done]. intros _. right. by apply IH.
Qed.

Lemma np_average_NaN (l : list num) : np_average l = NaN ↔ l = [] ∨ NaN ∈ l.
Proof.
  unfold np_average, ndiv.
  destruct (nsum l) as [s|] eqn:Hs.
  - destruct (decide (INR (length l) = 0)) as [H0 | H0].
    + split; [| done]. intros _. left.
      apply length_zero_iff_nil. by apply INR_eq.
    + split; [done |]. intros [-> | Hin]; [by destruct H0 |].
      apply nsum_NaN in Hin. congruence.
  - split; [| done]. intros _. right. by apply nsum_NaN.
Qed.

Lemma same_finiteness_refl mg : same_finiteness mg mg.
Proof. by apply Forall2_same_length_lookup_2; [done | intros; simplify_eq]. Qed.

Lemma same_finiteness_length mg mg' :
  same_finiteness mg mg' → length mg' = length mg.
Proof. intros HF. symmetry. by eapply Forall2_length. Qed.

Lemma same_finiteness_NaN_elem Z Z' :
  same_finiteness Z Z' → NaN ∈ Z → NaN ∈ Z'.
Proof.
  intros HF [k Hk]%list_elem_of_lookup.
  destruct (Forall2_lookup_l _ _ _ _ _ HF Hk) as (y & Hy & Hxy).
  apply list_elem_of_lookup. exists k. rewrite Hy. f_equal.
  by apply Hxy.
Qed.

Lemma same_finiteness_sym mg mg' :
  same_finiteness mg mg' → same_finiteness mg' mg.
Proof.
  intros HF. apply Forall2_flip. eapply Forall2_impl; [done |].
  cbn. intros x y [Hxy Hyx]. by split.
Qed.

Lemma np_average_same_finiteness Z Z' :
  same_finiteness Z Z' → np_average Z = NaN ↔ np_average Z' = NaN.
Proof.
  intros HF. rewrite !np_average_NaN.
  pose proof (Forall2_length _ _ _ HF) as Hlen.
  split; (intros [-> | Hin]; [left | right]).
  - destruct Z'; [done | cbn in Hlen; lia].
  - by eapply same_finiteness_NaN_elem.
  - destruct Z; [done | cbn in Hlen; lia].
  - eapply same_finiteness_NaN_elem; [| done]. by apply same_finiteness_sym.
Qed.

Lemma take_idx_same_finiteness mg mg' idx Z Z' :
  same_finiteness mg mg' →
  take_idx mg idx = Some Z → take_idx mg' idx = Some Z' →
  same_finiteness Z Z'.
Proof.
  intros HF HZ HZ'. apply Forall2_same_length_lookup_2.
  { rewrite (take_idx_length _ _ _ HZ), (take_idx_length _ _ _ HZ'). done. }
  intros k a b Ha Hb.
  destruct (lookup_lt_is_Some_2 idx k) as [i Hi].
  { rewrite <- (take_idx_length _ _ _ HZ). by eapply lookup_lt_Some. }
  rewrite (take_idx_lookup _ _ _ _ _ HZ Hi) in Ha.
  rewrite (take_idx_lookup _ _ _ _ _ HZ' Hi) in Hb.
  destruct (Forall2_lookup_l _ _ _ _ _ HF Ha) as (y & Hy & Hxy).
  congruence.
Qed.

(** Without a rim, whatever the length of the distance array: the call
    excavates when every position within 0.9 radius is a node of the field,
    and leaves the field as it was otherwise. *)
Lemma crater_without_rim_lookup mg d diameter radius H1 H2 m i z :
  mg !! i = Some z →
  (crater_without_rim mg d diameter radius H1 H2 m).1 !! i
  = Some (if decide (Forall (λ j, (j < length mg)%nat)
                       (np_where (λ x, bool_decide (x <= radius * 0.9)) d))
          then match d !! i with
               | Some x =>
                   if bool_decide (x <= radius * 0.9)
                   then (z + DE_in_at diameter radius H1 H2 H1 m z x)%num
                   else z
               | None => z
               end
          else z).
Proof.
  intros Hz. unfold crater_without_rim.
  set (in_idx := np_where (λ x, bool_decide (x <= radius * 0.9)) d).
  set (out_idx := np_where (λ x, bool_decide (x > radius * 0.9)) d).
  destruct (decide (Forall _ in_idx)) as [Hrange | Hrange]; last first.
  { destruct (take_idx mg in_idx) as [Z_in|] eqn:HZin; [| done].
    destruct Hrange. apply take_idx_is_Some. eauto. }
  destruct (proj2 (take_idx_is_Some mg in_idx) Hrange) as [Z_in HZin].
  rewrite HZin. cbn zeta.
  set (DE_in := zip_with nadd _ _).
  destruct (iadd_idx mg in_idx DE_in) as [mg1|] eqn:Hmg1; last first.
  { exfalso. apply eq_None_not_Some in Hmg1. apply Hmg1.
    by apply iadd_idx_is_Some. }
  assert ((match iadd_idx mg1 out_idx (replicate (length out_idx) (Fin 0)) with
           | Some mg2 => (mg2, None)
           | None => (mg1, Some IndexError)
           end).1 = mg1) as ->.
  { destruct (iadd_idx mg1 out_idx _) as [mg2|] eqn:Hmg2; [| done].
    by apply iadd_idx_zeros in Hmg2 as ->. }
  destruct (d !! i) as [x|] eqn:Hx; last first.
  { rewrite <- Hz. apply (iadd_idx_notin _ _ _ _ _ Hmg1).
    unfold in_idx. rewrite np_where_elem. intros (y & Hy & _). congruence. }
  destruct (bool_decide (x <= radius * 0.9)) eqn:Hin.
  - assert (i ∈ in_idx) as Hi by (unfold in_idx; rewrite np_where_elem; eauto).
    apply list_elem_of_lookup in Hi as [k Hk].
    assert (DE_in !! k = Some (DE_in_at diameter radius H1 H2 H1 m z x))
      as HDE.
    { unfold DE_in.
      repeat first [rewrite lookup_zip_with | rewrite list_lookup_fmap].
      rewrite Hk, !(take_idx_lookup _ _ _ _ _ HZin Hk), Hz. cbn.
      by rewrite (list_lookup_total_correct _ _ _ Hx). }
    destruct (iadd_idx_in _ _ _ _ _ _ _ (np_where_NoDup _ _) Hmg1 Hk HDE)
      as (z0 & Hz0 & ->).
    congruence.
  - rewrite <- Hz. apply (iadd_idx_notin _ _ _ _ _ Hmg1).
    unfold in_idx. rewrite np_where_elem. intros (y & Hy & Hle).
    rewrite Hx in Hy. injection Hy as <-. congruence.
Qed.

(** Two fields with the same non-finite nodes receive the same increment
    at every finite node. *)
Lemma crater_depth_same_increment g mg mg' d diameter rim i z z' :
  same_finiteness mg mg' →
  mg !! i = Some (Fin z) → mg' !! i = Some (Fin z') →
  ∃ inc,
    (crater_depth g mg d diameter rim).1 !! i = Some (Fin z + inc)%num ∧
    (crater_depth g mg' d diameter rim).1 !! i = Some (Fin z' + inc)%num.
Proof.
  intros HF Hz Hz'. pose proof (same_finiteness_length _ _ HF) as Hlen.
  assert (Hzero : ∃ inc, mg !! i = Some (Fin z + inc)%num ∧
                         mg' !! i = Some (Fin z' + inc)%num).
  { exists (Fin 0). by rewrite !nadd_0_r. }
  unfold crater_depth.
  destruct (shape_parameters (diameter * 1000)) as [H1 H2 m n | |];
    [| done | by rewrite !crater_complex_fst].
  set (Dm := diameter * 1000). set (radius := Dm / 2).
  set (noise := draw_Z_noise _).
  destruct rim.
  - destruct (decide (length d ≤ length mg)%nat) as [Hd | Hd]; last first.
    { rewrite !crater_with_rim_long_distances by lia. done. }
    destruct (crater_with_rim_nodes mg d Dm radius H1 H2 m n noise Hd)
      as (r & Z_in & Z_out & -> & HZin & HZout & _ & Hnone & Hsome).
    destruct (crater_with_rim_nodes mg' d Dm radius H1 H2 m n noise)
      as (r' & Z_in' & Z_out' & -> & HZin' & HZout' & _ & Hnone' & Hsome');
      [lia |].
    cbn [fst]. destruct (d !! i) as [x|] eqn:Hx; last first.
    { rewrite (Hnone i Hx), (Hnone' i Hx). done. }
    rewrite (Hsome i x _ Hx Hz), (Hsome' i x _ Hx Hz').
    destruct (bool_decide (x <= radius)).
    + rewrite !DE_in_at_finite. eauto.
    + eexists. split; [done |]. do 2 f_equal.
      apply DE_out_at_pattern; apply np_average_same_finiteness;
        apply same_finiteness_sym; by eapply take_idx_same_finiteness.
  - rewrite (crater_without_rim_lookup mg d Dm radius H1 H2 m i _ Hz).
    rewrite (crater_without_rim_lookup mg' d Dm radius H1 H2 m i _ Hz').
    rewrite Hlen. case_decide; [| by rewrite <- Hz, <- Hz'].
    destruct (d !! i) as [x|]; [| by rewrite <- Hz, <- Hz'].
    destruct (bool_decide (x <= radius * 0.9));
      [| by rewrite <- Hz, <- Hz'].
    rewrite !DE_in_at_finite. eauto.
Qed.

Lemma nadd_Fin_cancel z x y : (Fin z + x)%num = (Fin z + y)%num → x = y.
Proof.
  destruct x as [a|], y as [b|]; cbn; try done.
  intros [= Hab]. f_equal. lra.
Qed.

Lemma finite_choice {A} (a0 : A) (n : nat) (P : nat → A → Prop) :
  (∀ i, (i < n)%nat → ∃ a, P i a) →
  ∃ l, length l = n ∧ ∀ i a, l !! i = Some a → P i a.
Proof.
  induction n as [|n IH]; intros HP.
  { exists []. split; [done |]. intros i a. by rewrite lookup_nil. }
  destruct IH as (l & Hlen & Hl); [intros i Hi; apply HP; lia |].
  destruct (HP n) as [a Ha]; [lia |].
  exists (l ++ [a]). split; [rewrite length_app; cbn; lia |].
  intros i b Hi. apply lookup_app_Some in Hi as [Hi | [Hge Hi]]; [eauto |].
  rewrite Hlen in Hge, Hi. apply list_lookup_singleton_Some in Hi as [Hi ->].
  replace i with n by lia. done.
Qed.

(** One call adds a delta that is the same for every field with the same
    non-finite nodes. *)
Lemma crater_depth_delta g mg d diameter rim :
  ∃ delta,
    length delta = length mg ∧
    ∀ mg', same_finiteness mg mg' →
           (crater_depth g mg' d diameter rim).1 = zip_with nadd mg' delta.
Proof.
  destruct (finite_choice (Fin 0) (length mg)
              (λ i δ, ∀ mg' z', same_finiteness mg mg' → mg' !! i = Some z' →
                        (crater_depth g mg' d diameter rim).1 !! i
                        = Some (z' + δ)%num))
    as (delta & Hlen & Hdelta).
  { intros i Hi. destruct (lookup_lt_is_Some_2 mg i Hi) as [[z|] Hz].
    - destruct (crater_depth_same_increment g mg mg d diameter rim i z z
                  (same_finiteness_refl mg) Hz Hz) as (inc & Hinc & _).
      exists inc. intros mg' z' HF Hz'.
      destruct (Forall2_lookup_l _ _ _ _ _ HF Hz) as (y & Hy & Hxy).
      rewrite Hz' in Hy. injection Hy as <-.
      destruct z' as [z'|]; [| discriminate (proj2 Hxy eq_refl)].
      destruct (crater_depth_same_increment g mg mg' d diameter rim i z z'
                  HF Hz Hz') as (inc' & Hinc1 & Hinc2).
      rewrite Hinc in Hinc1. injection Hinc1 as Heq.
      apply nadd_Fin_cancel in Heq as <-. done.
    - exists (Fin 0). intros mg' z' HF Hz'.
      destruct (Forall2_lookup_l _ _ _ _ _ HF Hz) as (y & Hy & Hxy).
      rewrite Hz' in Hy. injection Hy as <-.
      rewrite (proj1 Hxy eq_refl) in Hz' |- *. cbn.
      eapply additive_update_NaN; [| done].
      apply in_place_additions_additive, crater_depth_additions. }
  exists delta. split; [done |]. intros mg' HF.
  pose proof (same_finiteness_length _ _ HF) as Hlen'.
  apply list_eq. intros i. rewrite lookup_zip_with.
  destruct (mg' !! i) as [z'|] eqn:Hz'; cbn.
  - destruct (lookup_lt_is_Some_2 delta i) as [δ Hδ].
    { rewrite Hlen, <- Hlen'. by eapply lookup_lt_Some. }
    rewrite Hδ. cbn. by eapply Hdelta.
  - apply lookup_ge_None.
    rewrite (additive_update_length mg' _
               (in_place_additions_additive _ _
                  (crater_depth_additions g mg' d diameter rim))).
    by apply lookup_ge_None.
Qed.

Lemma same_finiteness_add mg mg' delta :
  same_finiteness mg mg' →
  same_finiteness (zip_with nadd mg delta) (zip_with nadd mg' delta).
Proof.
  intros HF. revert delta.
  induction HF as [|x y mg mg' Hxy HF IH]; intros [|δ delta]; cbn;
    try constructor; [| by apply IH].
  destruct Hxy as [Hx Hy].
  destruct x, y, δ; cbn; split; intros; try done;
    first [discriminate (Hx eq_refl) | discriminate (Hy eq_refl)].
Qed.

(** A series of calls adds one delta per call, and the deltas are the same
    for every field with the same non-finite nodes. *)
Lemma apply_craters_deltas g mg evs :
  ∃ deltas,
    length deltas = length evs ∧
    Forall (λ delta, length delta = length mg) deltas ∧
    ∀ mg', same_finiteness mg mg' →
           apply_craters g mg' evs = foldl (zip_with nadd) mg' deltas.
Proof.
  revert mg. induction evs as [|ev evs IH]; intros mg.
  { exists []. by repeat split. }
  destruct (crater_depth_delta g mg (ev_distances ev) (ev_diameter ev)
              (ev_rim ev)) as (delta & Hlen & Hdelta).
  destruct (IH (zip_with nadd mg delta)) as (deltas & Hlens & Hall & Hdeltas).
  exists (delta :: deltas). split; [cbn; lia |]. split.
  - constructor; [done |]. eapply Forall_impl; [done |].
    cbn. intros δ ->. rewrite length_zip_with. lia.
  - intros mg' HF. cbn. unfold apply_crater at 2.
    rewrite (Hdelta mg' HF). apply Hdeltas. by apply same_finiteness_add.
Qed.

(** A call that stored values of its own in the field would not be of this
    form: no delta turns both the field [0] and the field [1] into
    the field [5]. *)
Lemma replacement_has_no_delta :
  ¬ ∃ delta, ∀ mg', same_finiteness [Fin 0] mg' →
                    [Fin 5] = zip_with nadd mg' delta.
Proof.
  intros [delta Hdelta].
  assert (H0 : same_finiteness [Fin 0] [Fin 0]).
  { repeat constructor; done. }
  assert (H1 : same_finiteness [Fin 0] [Fin 1]).
  { repeat constructor; done. }
  apply Hdelta in H0. apply Hdelta in H1.
  destruct delta as [|[a|] delta]; cbn in H0, H1; try done.
  injection H0 as H0. injection H1 as H1. lra.
Qed.

(** C9.  Through every series of [crater_depth] calls, with or without rim,
    the elevation field keeps the length it had (the node count), and the
    field is changed by in-place additions only, never by a replacement.
    Every call adds a per-node delta to the values it finds, and the delta
    does not depend on these values: there is one list of deltas, one per
    call, that gives the field after the series for every field that has the
    same nodes that are not finite numbers (the finiteness of the two
    averages of a crater with a rim is all that the increments read of the
    field).  A call that replaced values would not have it.  The series may
    contain calls that raise.  One more call again keeps the length and
    reaches its result by in-place additions. *)
Theorem apply_craters_length_additive (g : module_state) (mg : list num)
    (evs : list crater_event) (ev : crater_event) :
  length (apply_craters g mg evs) = length mg ∧
  in_place_additions mg (apply_craters g mg evs) ∧
  additive_update mg (apply_craters g mg evs) ∧
  length (apply_craters g mg (evs ++ [ev])) = length mg ∧
  in_place_additions (apply_craters g mg evs)
                     (apply_craters g mg (evs ++ [ev])) ∧
  additive_update (apply_craters g mg evs) (apply_craters g mg (evs ++ [ev])) ∧
  ∃ deltas : list (list num),
    length deltas = length evs ∧
    Forall (λ delta, length delta = length mg) deltas ∧
    ∀ mg', same_finiteness mg mg' →
           apply_craters g mg' evs = foldl (zip_with nadd) mg' deltas.
Proof.
  assert (Hall : ∀ evs' mg0, in_place_additions mg0 (apply_craters g mg0 evs')).
  { intros evs'. induction evs' as [|ev' evs' IH]; intros mg0; cbn.
    - constructor.
    - eapply in_place_additions_trans; [| apply IH].
      apply crater_depth_additions. }
  assert (Hlast : in_place_additions (apply_craters g mg evs)
                    (apply_craters g mg (evs ++ [ev]))).
  { unfold apply_craters. rewrite foldl_app. cbn. apply crater_depth_additions. }
  repeat split; auto using in_place_additions_additive.
  - by apply additive_update_length, in_place_additions_additive.
  - by apply additive_update_length, in_place_additions_additive.
  - apply apply_craters_deltas.
Qed.

End crater_properties.

(** ** The inverter *)

Section inverse_properties.
Context `{ProductionFn}.

Lemma inverse_body_y1 log_y xrange x y1 xrange' :
  inverse_body log_y xrange = Some (x, y1, xrange') →
  y1 = np_log10 (pf_cumulative (Rpower 10.0 x)).
Proof.
  unfold inverse_body. repeat case_match; try done. by intros [= <- <- <-].
Qed.

(** A pass fails exactly when the insertion point is past the last of the
    nine samples. *)
Lemma length_np_linspace a b n : length (np_linspace a b n) = n.
Proof.
  unfold np_linspace. by rewrite length_insert, length_fmap, length_seq.
Qed.

Lemma py_get_is_Some (a : list R) (q : nat) :
  (q < length a)%nat →
  is_Some (py_get a (Z.of_nat q)) ∧ is_Some (py_get a (Z.of_nat q - 1)).
Proof.
  intros Hq. unfold py_get. split.
  - rewrite decide_True by lia. rewrite Nat2Z.id. by apply lookup_lt_is_Some.
  - destruct (decide (0 ≤ Z.of_nat q - 1)%Z).
    + apply lookup_lt_is_Some. lia.
    + rewrite decide_True by lia. apply lookup_lt_is_Some. lia.
Qed.

Lemma py_get_past_end (a : list R) : py_get a (Z.of_nat (length a)) = None.
Proof.
  unfold py_get. rewrite decide_True by lia. rewrite Nat2Z.id.
  by apply lookup_ge_None_2.
Qed.

Lemma inverse_body_Some log_y xrange :
  let x0 := np_linspace xrange.2 xrange.1 divisions in
  let y0 := (λ x, np_log10 (pf_cumulative (Rpower 10.0 x))) <$> x0 in
  (np_searchsorted y0 log_y < 9)%nat →
  is_Some (inverse_body log_y xrange).
Proof.
  intros x0 y0 Hq. unfold inverse_body. fold x0. fold y0.
  destruct (py_get_is_Some x0 (np_searchsorted y0 log_y)) as [[a Ha] [b Hb]].
  { unfold x0. by rewrite length_np_linspace. }
  rewrite Ha, Hb. eauto.
Qed.

Lemma inverse_body_None log_y xrange :
  let x0 := np_linspace xrange.2 xrange.1 divisions in
  let y0 := (λ x, np_log10 (pf_cumulative (Rpower 10.0 x))) <$> x0 in
  np_searchsorted y0 log_y = 9%nat →
  inverse_body log_y xrange = None.
Proof.
  intros x0 y0 Hq. unfold inverse_body. fold x0. fold y0. rewrite Hq.
  replace 9%nat with (length x0) by (unfold x0; by rewrite length_np_linspace).
  by rewrite py_get_past_end.
Qed.




End inverse_properties.

(** ** The inverter on a flat production function *)

Lemma np_log10_1 : np_log10 1 = 0.
Proof. unfold np_log10. rewrite ln_1. lra. Qed.

Lemma ln_10_pos : 0 < ln 10.
Proof. rewrite <- ln_1. apply ln_increasing; lra. Qed.



Lemma fmap_constant {A B} (c : B) (l : list A) :
  (λ _, c) <$> l = replicate (length l) c.
Proof. induction l; cbn; [done | by f_equal]. Qed.

Lemma half_lt (lo hi : nat) :
  (lo < hi)%nat → (lo ≤ lo + (hi - lo) / 2 < hi)%nat.
Proof.
  intros Hlt. assert ((hi - lo) / 2 < hi - lo)%nat by (apply Nat.div_lt; lia).
  lia.
Qed.

Lemma bisect_left_all_ge fuel (a : list R) v lo hi :
  (∀ i, (lo ≤ i < hi)%nat → ¬ a !!! i < v) →
  bisect_left fuel a v lo hi = lo.
Proof.
  revert hi. induction fuel as [|fuel IH]; intros hi Hge; cbn [bisect_left];
    [done |].
  destruct (decide (lo < hi)%nat) as [Hlt|]; [| done].
  pose proof (half_lt lo hi Hlt) as Hmid.
  rewrite decide_False by (apply Hge; lia).
  apply IH. intros i Hi. apply Hge. lia.
Qed.

Lemma bisect_left_all_lt fuel (a : list R) v lo hi :
  (∀ i, (lo ≤ i < hi)%nat → a !!! i < v) →
  (lo ≤ hi)%nat → (hi - lo ≤ fuel)%nat →
  bisect_left fuel a v lo hi = hi.
Proof.
  revert lo. induction fuel as [|fuel IH]; intros lo Hlt Hle Hf;
    cbn [bisect_left].
  { lia. }
  destruct (decide (lo < hi)%nat) as [Hlo|]; [| lia].
  pose proof (half_lt lo hi Hlo) as Hmid.
  rewrite decide_True by (apply Hlt; lia).
  apply IH; [| lia | lia]. intros i Hi. apply Hlt. lia.
Qed.

Section flat_production.
#[local] Existing Instance flat_production.

Lemma flat_samples (xrange : R * R) :
  (λ x, np_log10 (pf_cumulative (Rpower 10.0 x)))
    <$> np_linspace xrange.2 xrange.1 divisions
  = replicate 9 0.
Proof.
  cbn [pf_cumulative flat_production]. rewrite np_log10_1.
  by rewrite fmap_constant, length_np_linspace.
Qed.

Lemma flat_inverse_body log_y xrange :
  log_y <= 0 →
  ∃ x xrange', inverse_body log_y xrange = Some (x, 0, xrange').
Proof.
  intros Hle.
  destruct (inverse_body_Some log_y xrange) as [[[x y1] xr'] Hbody].
  - cbn zeta. rewrite flat_samples. unfold np_searchsorted.
    rewrite bisect_left_all_ge; [lia |].
    intros i Hi. rewrite length_replicate in Hi.
    rewrite lookup_total_replicate_2 by lia. lra.
  - pose proof (inverse_body_y1 _ _ _ _ _ Hbody) as Hy1.
    cbn [pf_cumulative flat_production] in Hy1. rewrite np_log10_1 in Hy1.
    subst y1. eauto.
Qed.



Lemma flat_inverse_converges irange y :
  np_log10 y = 0 →
  ∃ x, crater_production_function_inverse irange y default_tol
       = Done (Rpower 10 x).
Proof.
  intros Hy. unfold crater_production_function_inverse, inverse_iterations.
  rewrite Hy. cbn [inverse_loop].
  destruct (flat_inverse_body 0 (np_log10 irange.1, np_log10 irange.2)
              ltac:(lra)) as (x & xr' & ->).
  rewrite bool_decide_eq_true_2; [by eauto |].
  replace (0 - 0) with 0 by lra. rewrite Rabs_R0. unfold default_tol. lra.
Qed.

End flat_production.

(** ** The generator *)

Section generate_properties.
Context `{RandomSource} `{ProductionFn} `{ChronologyFn}.
Variable time_interval : R * R.
Variable diameter_range : R * R.
Variable Area : R.
Variable poisson_intervals : bool.

#[local] Abbreviation loop :=
  (gen_loop time_interval diameter_range Area poisson_intervals).
#[local] Abbreviation body :=
  (gen_body diameter_range Area poisson_intervals).

Lemma gen_loop_stop fuel (t : num) rn_gen list_d :
  nle t (Fin time_interval.1) = false →
  loop (S fuel) t rn_gen list_d = Done (list_d, t).
Proof.
  intros Hgt. cbn [gen_loop]. destruct t as [tr|]; [| done].
  cbn in Hgt. by rewrite Hgt.
Qed.

Lemma gen_loop_continue fuel (tr : R) rn_gen list_d :
  tr <= time_interval.1 →
  loop (S fuel) (Fin tr) rn_gen list_d =
  match body tr rn_gen with
  | Done (d, dt, rn_gen') => loop fuel (Fin tr + dt)%num rn_gen' (list_d ++ [d])
  | Raised e => Raised e
  | OutOfFuel => OutOfFuel
  end.
Proof.
  intros Hle. cbn [gen_loop]. rewrite bool_decide_eq_true_2 by done.
  by repeat case_match.
Qed.

(** More fuel does not change a run that ended. *)
Lemma gen_loop_more_fuel fuel fuel' t rn_gen list_d r :
  (fuel ≤ fuel')%nat →
  loop fuel t rn_gen list_d = Done r → loop fuel' t rn_gen list_d = Done r.
Proof.
  revert fuel' t rn_gen list_d.
  induction fuel as [|fuel IH]; intros fuel' t rn_gen list_d Hf; [done |].
  destruct fuel' as [|fuel']; [lia |]. cbn [gen_loop].
  destruct t as [tr|]; [| done].
  destruct (bool_decide (tr <= time_interval.1)); [| done].
  destruct (body tr rn_gen) as [[[d dt] rn_gen']| |]; [| done | done].
  apply IH. lia.
Qed.

(** A run that ends has left the time interval, and has appended at least
    one diameter if it started inside. *)
Lemma gen_loop_done fuel t rn_gen list_d l tf :
  loop fuel t rn_gen list_d = Done (l, tf) →
  nle tf (Fin time_interval.1) = false ∧
  ∃ l', l = list_d ++ l' ∧
        (nle t (Fin time_interval.1) = true → l' ≠ []).
Proof.
  revert t rn_gen list_d.
  induction fuel as [|fuel IH]; intros t rn_gen list_d; [done |].
  cbn [gen_loop]. destruct t as [tr|]; last first.
  { intros [= <- <-]. split; [done |]. exists []. by rewrite app_nil_r. }
  destruct (bool_decide (tr <= time_interval.1)) eqn:Hle; last first.
  { intros [= <- <-]. split; [by cbn |]. exists [].
    rewrite app_nil_r. split; [done |]. cbn. congruence. }
  destruct (body tr rn_gen) as [[[d dt] rn_gen']| |]; [| done | done].
  intros Hrun. apply IH in Hrun as (Hfinal & l' & -> & _).
  split; [done |]. exists (d :: l').
  rewrite <- app_assoc. split; [done | done].
Qed.

(** A loop that starts inside the interval and leaves it with the first
    time increment makes exactly one pass. *)
Lemma gen_loop_one_pass fuel (t : R) rn_gen d dt rn_gen' :
  t <= time_interval.1 →
  body t rn_gen = Done (d, Fin dt, rn_gen') →
  time_interval.1 < t + dt →
  loop (S (S fuel)) (Fin t) rn_gen [] = Done ([d], Fin (t + dt)).
Proof.
  intros Hle Hbody Hdt. rewrite gen_loop_continue by done. rewrite Hbody.
  rewrite gen_loop_stop; [done |].
  cbn. apply bool_decide_eq_false_2. lra.
Qed.

End generate_properties.

Section generator_claims.
Context `{RandomSource} `{ProductionFn} `{ChronologyFn}.

Lemma generate_unfold g fuel time_interval size_interval domain_area
    cell_size poisson_intervals :
  generate_CSFD_from_production_function g fuel time_interval size_interval
    domain_area cell_size poisson_intervals
  = (loop_result
       (gen_loop time_interval
          (setup_diameter_range size_interval cell_size).1
          domain_area poisson_intervals fuel (Fin time_interval.2)
          (default_rng (seed g)) []),
     (setup_diameter_range size_interval cell_size).2).
Proof.
  unfold generate_CSFD_from_production_function.
  by destruct (setup_diameter_range size_interval cell_size) as [range warns].
Qed.
(** C3, as the code has it.  The time loop is [while t <= t_start]: it stops
    at the first test at which t exceeds t_start (or is not a number), and a
    run that ends has left the interval, with one diameter appended for
    every test passed.  The test comes before the pass and t starts at
    t_end, so whenever t_end <= t_start, the zero-width interval included,
    the result is never empty; for a zero-width interval whose first time
    increment is positive it holds exactly one diameter. *)
Theorem generate_runs_while_time_in_interval (g : module_state)
    (time_interval : R * R) (size_interval : option (R * R))
    (domain_area cell_size : R) (poisson_intervals : bool) :
  let range := (setup_diameter_range size_interval cell_size).1 in
  let loop := gen_loop time_interval range domain_area poisson_intervals in
  let generate fuel :=
    generate_CSFD_from_production_function g fuel time_interval size_interval
      domain_area cell_size poisson_intervals in
  (∀ fuel t rn acc,
     nle t (Fin time_interval.1) = false →
     loop (S fuel) t rn acc = Done (acc, t)) ∧
  (∀ fuel t rn acc l tf,
     loop fuel t rn acc = Done (l, tf) →
     nle tf (Fin time_interval.1) = false ∧
     (nle t (Fin time_interval.1) = true → (length acc < length l)%nat)) ∧
  (time_interval.2 <= time_interval.1 →
   ∀ fuel l, (generate fuel).1 = Done l → l ≠ []) ∧
  (∀ d dt rn',
     time_interval.2 <= time_interval.1 →
     gen_body range domain_area poisson_intervals time_interval.2
       (default_rng (seed g)) = Done (d, Fin dt, rn') →
     time_interval.1 < time_interval.2 + dt →
     ∀ fuel, (2 ≤ fuel)%nat → (generate fuel).1 = Done [d]).
Proof.
  intros range loop generate. split; [| split; [| split]].
  - intros fuel t rn acc Hgt. by apply gen_loop_stop.
  - intros fuel t rn acc l tf Hrun. split; [by eapply gen_loop_done |].
    intros Hin. apply gen_loop_done in Hrun as (_ & l' & -> & Hne).
    specialize (Hne Hin). rewrite length_app.
    destruct l'; [done | cbn; lia].
  - intros Hzero fuel l. unfold generate. rewrite generate_unfold. cbn [fst].
    destruct (gen_loop _ _ _ _ _ _ _ _) as [[l0 tf]| |] eqn:Hrun; try done.
    intros [= <-]. apply gen_loop_done in Hrun as (_ & l' & -> & Hne).
    cbn. apply Hne. cbn. by apply bool_decide_eq_true_2.
  - intros d dt rn' Hzero Hbody Hdt fuel Hfuel.
    unfold generate. rewrite generate_unfold. cbn [fst].
    destruct fuel as [|[|fuel]]; [lia | lia |].
    by erewrite gen_loop_one_pass.
Qed.

(** One pass of the time loop. *)
Lemma gen_loop_pass (time_interval diameter_range : R * R)
    (Area : R) (poisson_intervals : bool) (fuel : nat) (t : R) (rn : rng)
    (list_d : list R) :
  t <= time_interval.1 →
  let loop :=
    gen_loop time_interval diameter_range Area poisson_intervals in
  ∃ u rn1,
    uniform rn 0 1 = (u, rn1) ∧
    let y := u * (N_ diameter_range 1 - N_ diameter_range 2)
             + N_ diameter_range 2 in
    let lambda := phi t * N1_ratio diameter_range * Area in
    match crater_production_function_inverse diameter_range y default_tol with
    | Done d =>
        ∃ dt rn',
          (if poisson_intervals
           then ∃ u2, uniform rn1 0 1 = (u2, rn') ∧
                      dt = (nneg (nlog u2) / Fin lambda)%num
           else dt = (Fin 1.0 / Fin lambda)%num ∧ rn' = rn1) ∧
          loop (S fuel) (Fin t) rn list_d
          = loop fuel (Fin t + dt)%num rn' (list_d ++ [d])
    | Raised e => loop (S fuel) (Fin t) rn list_d = Raised e
    | OutOfFuel => loop (S fuel) (Fin t) rn list_d = OutOfFuel
    end.
Proof.
  intros Hle loop. unfold loop. rewrite gen_loop_continue by done.
  unfold gen_body. destruct (uniform rn 0 1) as [u rn1] eqn:Hu.
  exists u, rn1. split; [done |]. cbn zeta.
  destruct (crater_production_function_inverse _ _ _) as [d| |] eqn:Hinv;
    [| done | done].
  destruct poisson_intervals.
  - destruct (uniform rn1 0 1) as [u2 rn2] eqn:Hu2.
    eexists _, rn2. split; [| done]. eauto.
  - eexists _, rn1. split; [| done]. done.
Qed.

(** C5.  The time loop of the generator is the loop of the specification.
    In every pass the target is y = u * (N[1] - N[2]) + N[2] for a fresh
    uniform draw u, the rate is lambda = phi(t) * N1_ratio * Area, and the
    time increment is -ln(u2) / lambda for a second, fresh uniform draw u2
    when [poisson_intervals] is true and 1 / lambda when it is false; the
    loop goes on with the diameter of the target appended and with t + dt,
    and it ends, with the diameters and the time it has reached, at the
    first test at which t <= t_start fails.  (When the inverter raises, the
    pass and the loop end with its exception.)  [spec_time_loop] says this
    as a relation; the loop of the code ends in a result exactly when the
    relation gives that result. *)
Theorem gen_loop_iteration (time_interval diameter_range : R * R)
    (Area : R) (poisson_intervals : bool) (t : num) (rn : rng)
    (list_d : list R) (r : outcome (list R * num)) :
  spec_time_loop time_interval diameter_range Area poisson_intervals
    t rn list_d r
  ↔ r ≠ OutOfFuel ∧
    ∃ fuel, gen_loop time_interval diameter_range Area poisson_intervals
              fuel t rn list_d = r.
Proof.
  split.
  - induction 1 as [t rn list_d Hend | t rn list_d u rn1 e Hle Hu Hinv
                   | t rn list_d u rn1 d dt rn2 r Hle Hu Hinv Hdt _ IH].
    + split; [done |]. exists 1%nat. apply gen_loop_stop.
      destruct t as [tr|]; [| done]. cbn.
      apply bool_decide_eq_false_2. by apply Hend.
    + split; [done |]. exists 1%nat. rewrite gen_loop_continue by done.
      unfold gen_body. by rewrite Hu, Hinv.
    + destruct IH as [Hr [fuel Hrun]]. split; [done |]. exists (S fuel).
      rewrite gen_loop_continue by done. unfold gen_body.
      rewrite Hu, Hinv. unfold spec_time_increment in Hdt.
      destruct poisson_intervals.
      * destruct Hdt as (u2 & -> & ->). done.
      * destruct Hdt as [-> ->].
        replace (Fin 1.0) with (Fin 1) by (f_equal; lra). done.
  - intros [Hr [fuel Hrun]]. revert t rn list_d Hrun.
    induction fuel as [|fuel IH]; intros t rn list_d Hrun;
      [by destruct Hr |].
    destruct t as [tr|]; last first.
    { rewrite gen_loop_stop in Hrun by done. subst r.
      by apply spec_loop_ends. }
    destruct (decide (tr <= time_interval.1)) as [Hle | Hgt]; last first.
    { rewrite gen_loop_stop in Hrun
        by (cbn; by apply bool_decide_eq_false_2).
      subst r. apply spec_loop_ends. by intros ? [= <-]. }
    rewrite gen_loop_continue in Hrun by done. unfold gen_body in Hrun.
    destruct (uniform rn 0 1) as [u rn1] eqn:Hu.
    destruct (crater_production_function_inverse _ _ _) as [d| e |] eqn:Hinv.
    + destruct poisson_intervals.
      * destruct (uniform rn1 0 1) as [u2 rn2] eqn:Hu2.
        eapply spec_loop_pass; [done .. | | by apply IH].
        unfold spec_time_increment. eauto.
      * eapply spec_loop_pass; [done .. | | by apply IH].
        unfold spec_time_increment.
        split; [done |]. f_equal. f_equal. lra.
    + subst r. by eapply spec_loop_raises.
    + by destruct Hr.
Qed.

(** C8.  Without a size interval the diameter range is
    [cell_size, production_function.range[1]].  With a size interval that
    leaves the calibrated range on either side the generator issues the
    extrapolation warning, once, and nothing else changes: the diameters
    are those of the time loop run on the interval as given, whether or not
    the warning was issued. *)
Theorem generate_range_and_warning (g : module_state) (fuel : nat)
    (time_interval : R * R) (size_interval : option (R * R))
    (domain_area cell_size : R) (poisson_intervals : bool) :
  let diameter_range :=
    match size_interval with
    | None => (cell_size, pf_range.2)
    | Some interval => interval
    end in
  let outside :=
    match size_interval with
    | None => False
    | Some (d_min, d_max) => d_min < pf_range.1 ∨ d_max > pf_range.2
    end in
  let result :=
    generate_CSFD_from_production_function g fuel time_interval size_interval
      domain_area cell_size poisson_intervals in
  result.1 = loop_result
               (gen_loop time_interval diameter_range domain_area
                  poisson_intervals fuel (Fin time_interval.2)
                  (default_rng (seed g)) []) ∧
  (outside → result.2 = [extrapolation_warning]) ∧
  (¬ outside → result.2 = []).
Proof.
  intros diameter_range outside result. unfold result.
  rewrite generate_unfold. cbn [fst snd].
  unfold setup_diameter_range, diameter_range, outside.
  destruct size_interval as [[d_min d_max]|]; cbn [fst snd]; [| by auto].
  destruct (bool_decide (d_min < pf_range.1)) eqn:Hlo;
    destruct (bool_decide (d_max > pf_range.2)) eqn:Hhi; cbn [orb fst snd];
    repeat split; try done.
  all: try apply bool_decide_eq_true in Hlo; try apply bool_decide_eq_true in Hhi.
  all: try apply bool_decide_eq_false in Hlo; try apply bool_decide_eq_false in Hhi.
  all: intros Hout; try tauto.
Qed.

(** C10.  With the same seed the results are the same, whatever the state of
    the module-level generator: the generator returns the same outcome and
    the same warnings, and two runs that end return the same diameters even
    under different loop bounds; [crater_depth] run on two separate grids
    that hold the same field, with the same distances, diameter and rim
    flag, leaves the same field in both (and raises the same exception, if
    any), and touches no other grid. *)
Theorem same_seed_same_result (g1 g2 : module_state) :
  seed g1 = seed g2 →
  (∀ fuel time_interval size_interval domain_area cell_size poisson_intervals,
     generate_CSFD_from_production_function g1 fuel time_interval
       size_interval domain_area cell_size poisson_intervals
     = generate_CSFD_from_production_function g2 fuel time_interval
         size_interval domain_area cell_size poisson_intervals) ∧
  (∀ fuel1 fuel2 time_interval size_interval domain_area cell_size
     poisson_intervals l1 l2,
     (generate_CSFD_from_production_function g1 fuel1 time_interval
        size_interval domain_area cell_size poisson_intervals).1 = Done l1 →
     (generate_CSFD_from_production_function g2 fuel2 time_interval
        size_interval domain_area cell_size poisson_intervals).1 = Done l2 →
     l1 = l2) ∧
  (∀ (σ : gmap nat (list num)) (a b : nat) mg d diameter rim,
     a ≠ b → σ !! a = Some mg → σ !! b = Some mg →
     ∃ σ1 σ2 e,
       crater_depth_at g1 σ a d diameter rim = Some (σ1, e) ∧
       crater_depth_at g2 σ1 b d diameter rim = Some (σ2, e) ∧
       σ2 !! a = σ2 !! b ∧
       ∀ c, c ≠ a → c ≠ b → σ2 !! c = σ !! c).
Proof.
  intros Hseed.
  assert (Hgen : ∀ fuel ti si area cell p,
    generate_CSFD_from_production_function g1 fuel ti si area cell p
    = generate_CSFD_from_production_function g2 fuel ti si area cell p).
  { intros. by rewrite !generate_unfold, Hseed. }
  assert (Hcd : ∀ mg d diameter rim,
    crater_depth g1 mg d diameter rim = crater_depth g2 mg d diameter rim).
  { intros. unfold crater_depth. by rewrite Hseed. }
  split; [done |]. split.
  - intros fuel1 fuel2 ti si area cell p l1 l2.
    rewrite Hgen, !generate_unfold. cbn [fst].
    destruct (gen_loop _ _ _ _ fuel1 _ _ _) as [[l1' t1]| |] eqn:Hr1; try done.
    destruct (gen_loop _ _ _ _ fuel2 _ _ _) as [[l2' t2]| |] eqn:Hr2; try done.
    intros [= <-] [= <-].
    apply (gen_loop_more_fuel _ _ _ _ _ (fuel1 `max` fuel2)) in Hr1; [| lia].
    apply (gen_loop_more_fuel _ _ _ _ _ (fuel1 `max` fuel2)) in Hr2; [| lia].
    congruence.
  - intros σ a b mg d diameter rim Hab Ha Hb.
    unfold crater_depth_at. rewrite Ha. cbn.
    destruct (crater_depth g1 mg d diameter rim) as [mg' e] eqn:Hrun.
    exists (<[a := mg']> σ), (<[b := mg']> (<[a := mg']> σ)), e.
    split; [done |]. rewrite lookup_insert_ne by done. rewrite Hb. cbn.
    rewrite <- Hcd, Hrun. split; [done |]. split.
    + rewrite lookup_insert_ne by done. by rewrite !lookup_insert_eq.
    + intros c Hca Hcb. by rewrite !lookup_insert_ne.
Qed.

End generator_claims.

(** ** Sample runs *)

Section samples.
#[local] Existing Instance counting_source.
#[local] Existing Instance flat_production.
#[local] Existing Instance unit_chronology.

Lemma sample_gen_body (t : R) (k : nat) :
  ∃ d, gen_body (1, 10) 1 false t k = Done (d, Fin 1, S k).
Proof.
  unfold gen_body. cbn [uniform counting_source].
  destruct (flat_inverse_converges (1, 10)
              (/ INR (k + 2) * (N_ (1, 10) 1 - N_ (1, 10) 2) + N_ (1, 10) 2))
    as [x ->].
  { replace (_ + _) with 1; [apply np_log10_1 |]. cbn. lra. }
  exists (Rpower 10 x).
  assert (Hlam : phi t * N1_ratio (1, 10) * 1 = 1).
  { unfold N1_ratio, N_. cbn. lra. }
  rewrite Hlam. unfold ndiv. rewrite decide_False by lra.
  by replace (1.0 / 1) with 1 by lra.
Qed.

(** C3 does not hold as stated.  For the zero-width interval [4.5, 4.5] the test
    [t <= t_start] holds at the start, one pass is made, and the generator
    returns one diameter, not the empty sequence. *)
Lemma generate_zero_width_not_empty :
  ∃ d, generate_CSFD_from_production_function initial_module 2
         (4.5, 4.5) (Some (1, 10)) 1 1 false = (Done [d], []).
Proof.
  destruct (sample_gen_body 4.5 3) as [d Hbody]. exists d.
  rewrite generate_unfold.
  assert (setup_diameter_range (Some (1, 10)) 1 = ((1, 10), [])) as ->.
  { unfold setup_diameter_range. cbn.
    rewrite !bool_decide_eq_false_2 by lra. done. }
  cbn [fst snd].
  erewrite gen_loop_one_pass; [done | cbn; lra | apply Hbody | cbn; lra].
Qed.

(** C7 does not hold as stated.  A field of two nodes and a distance array of one
    entry (the node at the crater center), a crater of 1 km without rim: no
    exception is raised, and the first node is excavated. *)
Lemma crater_depth_accepts_short_distance_array :
  length [0] ≠ length [Fin 0; Fin 0] ∧
  ∃ z, z < 0 ∧
       crater_depth initial_module [Fin 0; Fin 0] [0] 1 false
       = ([Fin z; Fin 0], None).
Proof.
  split; [done |].
  exists (1.93 * Rpower 1000 0.52 - 2.54 * Rpower 1000 0.67).
  split.
  { pose proof pow_1000_067. pose proof pow_1000_052. lra. }
  unfold crater_depth. destruct shape_parameters_1km as (n & ->).
  destruct (crater_without_rim_nodes [Fin 0; Fin 0] [0] (1 * 1000)
              (1 * 1000 / 2) (2.54 * Rpower 1000 0.67)
              (1.93 * Rpower 1000 0.52) (0.73 * Rpower 1000 0.11))
    as (mg' & -> & Hlen & Hnone & Hsome); [cbn; lia |].
  f_equal. destruct mg' as [|a [|b [|? ?]]]; try done.
  pose proof (Hsome 0%nat 0 (Fin 0) eq_refl eq_refl) as Ha.
  pose proof (Hnone 1%nat eq_refl) as Hb.
  rewrite bool_decide_eq_true_2 in Ha by lra.
  cbn in Ha, Hb. injection Ha as ->. injection Hb as ->.
  f_equal. unfold DE_in_at, DH_in_at, np_pow.
  rewrite decide_False by lra. rewrite decide_True by lra.
  rewrite decide_True by (pose proof (Rpower_pos 1000 0.11); lra).
  cbn. f_equal. lra.
Qed.

(** *** The theorems with premises, at sample inputs *)

Lemma crater_depth_shape_parameters_witness :
  0 < 1 ∧
  let Dm := 1 * 1000 in
  ∃ H1 H2 m_exp : R,
    (Dm <= 7000 →
       H1 = 2.54 * Rpower Dm 0.67 ∧ H2 = 1.93 * Rpower Dm 0.52 ∧
       m_exp = 0.73 * Rpower Dm 0.11) ∧
    (Dm > 7000 →
       H1 = 12.20 * Rpower Dm 0.49 ∧ H2 = 0.79 * Rpower Dm 0.6 ∧
       m_exp = 0.64 * Rpower Dm 0.13) ∧
    let den := (H2 - H1) / 2 + H1 / (m_exp + 2) in
    let n := 2 - H2 / den in
    (den ≠ 0 →
       shape_parameters Dm = Shape H1 H2 m_exp n ∧
       crater_depth initial_module [Fin 0; Fin 0] [0; 1000] 1 true =
         crater_with_rim [Fin 0; Fin 0] [0; 1000] Dm (Dm / 2) H1 H2 m_exp n
           (draw_Z_noise (default_rng (seed initial_module)))) ∧
    (den = 0 →
       crater_depth initial_module [Fin 0; Fin 0] [0; 1000] 1 true
       = ([Fin 0; Fin 0], Some ZeroDivisionError)).
Proof.
  split; [lra |].
  apply (crater_depth_shape_parameters initial_module [Fin 0; Fin 0]
           [0; 1000] 1 true).
  lra.
Defined.

Lemma crater_depth_no_rim_frame_witness :
  0 < 1 ∧
  let radius := 1 * 1000 / 2 in
  let mg' := (crater_depth initial_module [Fin 0; Fin 0] [0; 1000] 1 false).1 in
  (∀ i x, [0; 1000] !! i = Some x → x > 0.9 * radius →
          mg' !! i = [Fin 0; Fin 0] !! i) ∧
  (∀ i, mg' !! i ≠ [Fin 0; Fin 0] !! i →
        ∃ x, [0; 1000] !! i = Some x ∧ x <= 0.9 * radius).
Proof.
  split; [lra |].
  apply (crater_depth_no_rim_frame initial_module [Fin 0; Fin 0] [0; 1000] 1).
  lra.
Defined.

Lemma same_seed_same_result_witness :
  seed initial_module = seed advanced_module ∧
  (∀ fuel time_interval size_interval domain_area cell_size poisson_intervals,
     generate_CSFD_from_production_function initial_module fuel time_interval
       size_interval domain_area cell_size poisson_intervals
     = generate_CSFD_from_production_function advanced_module fuel time_interval
         size_interval domain_area cell_size poisson_intervals) ∧
  (∀ fuel1 fuel2 time_interval size_interval domain_area cell_size
     poisson_intervals l1 l2,
     (generate_CSFD_from_production_function initial_module fuel1 time_interval
        size_interval domain_area cell_size poisson_intervals).1 = Done l1 →
     (generate_CSFD_from_production_function advanced_module fuel2 time_interval
        size_interval domain_area cell_size poisson_intervals).1 = Done l2 →
     l1 = l2) ∧
  (∀ (σ : gmap nat (list num)) (a b : nat) mg d diameter rim,
     a ≠ b → σ !! a = Some mg → σ !! b = Some mg →
     ∃ σ1 σ2 e,
       crater_depth_at initial_module σ a d diameter rim = Some (σ1, e) ∧
       crater_depth_at advanced_module σ1 b d diameter rim = Some (σ2, e) ∧
       σ2 !! a = σ2 !! b ∧
       ∀ c, c ≠ a → c ≠ b → σ2 !! c = σ !! c).
Proof.
  split; [reflexivity |].
  apply (same_seed_same_result initial_module advanced_module). reflexivity.
Defined.

End samples.

(** * Further properties of the kernel *)

Section kernel_extras.
Context `{RandomSource}.

Lemma nadd_comm (x y : num) : (x + y)%num = (y + x)%num.
Proof. destruct x, y; cbn; try done. f_equal; lra. Qed.

Lemma nadd_DE_in_at diameter radius H1 H2 c m (z : num) x :
  (z + DE_in_at diameter radius H1 H2 c m z x)%num
  = (z + DH_in_at diameter H1 H2 c m x)%num.
Proof.
  destruct z as [r|]; [| done]. by rewrite DE_in_at_finite.
Qed.

Lemma crater_depth_length g mg d diameter rim :
  length (crater_depth g mg d diameter rim).1 = length mg.
Proof.
  apply additive_update_length, in_place_additions_additive,
    crater_depth_additions.
Qed.

(** The field after a crater without rim, node by node. *)
Lemma crater_depth_no_rim_lookup (g : module_state) (mg : list num)
    (d : list R) (diameter : R) (i : nat) :
  (length d ≤ length mg)%nat →
  (crater_depth g mg d diameter false).1 !! i
  = (λ z, (z + no_rim_increment diameter (d !! i))%num) <$> mg !! i.
Proof.
  intros Hlen. unfold crater_depth, no_rim_increment.
  destruct (shape_parameters (diameter * 1000)) as [H1 H2 m n | |].
  - destruct (crater_without_rim_nodes mg d (diameter * 1000)
                (diameter * 1000 / 2) H1 H2 m Hlen)
      as (mg' & -> & Hl & Hnone & Hsome). cbn [fst].
    destruct (mg !! i) as [z|] eqn:Hz; cbn.
    + destruct (d !! i) as [x|] eqn:Hx.
      * rewrite (Hsome i x z Hx Hz).
        destruct (bool_decide (x <= diameter * 1000 / 2 * 0.9)).
        -- by rewrite nadd_DE_in_at.
        -- by rewrite nadd_0_r.
      * rewrite (Hnone i Hx), Hz. by rewrite nadd_0_r.
    + apply lookup_ge_None. rewrite Hl. by apply lookup_ge_None.
  - cbn [fst]. destruct (mg !! i) as [z|]; cbn; [| done].
    by rewrite nadd_0_r.
  - rewrite crater_complex_fst.
    destruct (mg !! i) as [z|]; cbn; [| done]. by rewrite nadd_0_r.
Qed.

(** Without a rim, and with a distance array that is not longer than the
    field, the new elevation of every node is its old elevation plus the
    shape term of its distance: the increment does not depend on the
    elevations, whatever they are. *)
Theorem crater_depth_no_rim_closed_form (g : module_state) (mg : list num)
    (d : list R) (diameter : R) (i : nat) :
  (length d ≤ length mg)%nat →
  (crater_depth g mg d diameter false).1 !! i
  = (λ z, (z + no_rim_increment diameter (d !! i))%num) <$> mg !! i.
Proof. apply crater_depth_no_rim_lookup. Qed.

(** Over the real numbers, two craters without rim commute: applied to the
    same field in either order they leave the same field.  (The sums of
    float64 are rounded, so the two orders of the program can differ in the
    last bit of an elevation.) *)
Theorem craters_without_rim_commute (g : module_state) (mg : list num)
    (d1 d2 : list R) (diameter1 diameter2 : R) :
  (length d1 ≤ length mg)%nat → (length d2 ≤ length mg)%nat →
  (crater_depth g (crater_depth g mg d1 diameter1 false).1
     d2 diameter2 false).1
  = (crater_depth g (crater_depth g mg d2 diameter2 false).1
       d1 diameter1 false).1.
Proof.
  intros Hl1 Hl2. apply list_eq. intros i.
  rewrite !crater_depth_no_rim_lookup
    by (rewrite ?crater_depth_length; done).
  destruct (mg !! i) as [z|]; cbn; [| done]. f_equal.
  rewrite <- !nadd_assoc. f_equal. apply nadd_comm.
Qed.

(** A NaN in the field is never repaired: through every series of calls
    the node stays NaN. *)
Lemma apply_craters_additions g mg evs :
  in_place_additions mg (apply_craters g mg evs).
Proof.
  revert mg. induction evs as [|ev evs IH]; intros mg; cbn.
  - constructor.
  - eapply in_place_additions_trans; [| apply IH].
    apply crater_depth_additions.
Qed.

(** A node whose elevation is not a number stays so under every sequence of
    craters: no crater repairs it. *)
Theorem apply_craters_keeps_NaN (g : module_state) (mg : list num)
    (evs : list crater_event) (i : nat) :
  mg !! i = Some NaN → apply_craters g mg evs !! i = Some NaN.
Proof.
  apply additive_update_NaN, in_place_additions_additive,
    apply_craters_additions.
Qed.

(** ** The shape of the bowl *)

Lemma np_pow_nonneg a m :
  0 <= a → 0 < m → np_pow a m = Fin (float_pow a m).
Proof.
  intros Ha Hm. unfold np_pow, float_pow.
  destruct (decide (0 < a)); [done |].
  rewrite decide_True by lra. by rewrite decide_True.
Qed.

Lemma Rpower_1_base m : Rpower 1 m = 1.
Proof. unfold Rpower. by rewrite ln_1, Rmult_0_r, exp_0. Qed.

Lemma float_pow_mono a b m :
  0 <= a → a <= b → 0 < m → 0 <= float_pow a m <= float_pow b m.
Proof.
  intros Ha Hab Hm. unfold float_pow.
  destruct (decide (0 < a)) as [Hpa|Hna].
  - rewrite decide_True by lra. split.
    + left. apply Rpower_pos.
    + apply Rle_Rpower_l; lra.
  - destruct (decide (0 < b)); [| lra].
    split; [lra |]. left. apply Rpower_pos.
Qed.

Lemma float_pow_lt_1 b m : 0 <= b → b < 1 → 0 < m → float_pow b m < 1.
Proof.
  intros Hb Hb1 Hm. unfold float_pow.
  destruct (decide (0 < b)); [| lra].
  rewrite <- (Rpower_1_base m). apply Rlt_Rpower_l; lra.
Qed.

Lemma DH_in_at_value diameter H1 H2 c m x :
  0 < diameter → 0 <= x → 0 < m →
  DH_in_at diameter H1 H2 c m x
  = Fin (H2 - H1 + c * float_pow (2 * x / diameter) m).
Proof.
  intros Hd Hx Hm. unfold DH_in_at.
  rewrite np_pow_nonneg; [done | | done].
  apply Rmult_le_pos; [lra |]. left. by apply Rinv_0_lt_compat.
Qed.

(** The node at the crater center, when its elevation is finite, is
    lowered by exactly H1 - H2, with or without rim. *)
Theorem crater_depth_center (g : module_state) (mg : list num) (d : list R)
    (diameter_km : R) (rim : bool) (H1 H2 m n : R) (i : nat) (z : R) :
  0 < diameter_km →
  shape_parameters (diameter_km * 1000) = Shape H1 H2 m n →
  (length d ≤ length mg)%nat →
  d !! i = Some 0 → mg !! i = Some (Fin z) →
  (crater_depth g mg d diameter_km rim).1 !! i = Some (Fin (z - (H1 - H2))).
Proof.
  intros Hpos Hshape Hlen Hx Hz.
  assert (0 < diameter_km * 1000) as HDm by lra.
  destruct (shape_parameters_positive _ _ _ _ _ HDm Hshape) as (_ & _ & Hm).
  assert (Hcenter : ∀ c, (Fin z + DH_in_at (diameter_km * 1000) H1 H2 c m 0)%num
                         = Fin (z - (H1 - H2))).
  { intros c. rewrite DH_in_at_value by (done || lra). cbn. f_equal.
    replace (2 * 0 / (diameter_km * 1000)) with 0 by (field; lra).
    unfold float_pow. rewrite decide_False by lra. lra. }
  destruct rim.
  - unfold crater_depth. rewrite Hshape.
    destruct (crater_with_rim_nodes mg d (diameter_km * 1000)
                (diameter_km * 1000 / 2) H1 H2 m n
                (draw_Z_noise (default_rng (seed g))) Hlen)
      as (mg' & Z_in & Z_out & -> & _ & _ & _ & _ & Hsome).
    cbn [fst]. rewrite (Hsome i 0 (Fin z) Hx Hz).
    rewrite bool_decide_eq_true_2 by lra.
    by rewrite nadd_DE_in_at, Hcenter.
  - rewrite crater_depth_no_rim_lookup by done. rewrite Hz, Hx.
    unfold no_rim_increment. rewrite Hshape.
    rewrite bool_decide_eq_true_2 by lra. cbn -[nadd]. by rewrite Hcenter.
Qed.

(** Without a rim the excavation is a bowl: of two excavated nodes that
    start at the same finite elevation, the one nearer to the center ends
    at least as low; no excavated node ends lower than the center would
    (H1 - H2 below the start) and none reaches the rim height H2 above the
    start. *)
Theorem crater_depth_bowl (g : module_state) (mg : list num) (d : list R)
    (diameter_km : R) (H1 H2 m n : R) (i j : nat) (xi xj z : R) :
  0 < diameter_km →
  shape_parameters (diameter_km * 1000) = Shape H1 H2 m n →
  (length d ≤ length mg)%nat →
  d !! i = Some xi → d !! j = Some xj →
  0 <= xi → xi <= xj → xj <= 0.9 * (diameter_km * 1000 / 2) →
  mg !! i = Some (Fin z) → mg !! j = Some (Fin z) →
  ∃ zi zj,
    (crater_depth g mg d diameter_km false).1 !! i = Some (Fin zi) ∧
    (crater_depth g mg d diameter_km false).1 !! j = Some (Fin zj) ∧
    z - (H1 - H2) <= zi ∧ zi <= zj ∧ zj < z + H2.
Proof.
  intros Hpos Hshape Hlen Hxi Hxj H0 Hij Hj Hzi Hzj.
  set (Dm := diameter_km * 1000) in *.
  assert (0 < Dm) as HDm by (unfold Dm; lra).
  destruct (shape_parameters_positive _ _ _ _ _ HDm Hshape) as (HH1 & _ & Hm).
  assert (Hnode : ∀ k x, d !! k = Some x → mg !! k = Some (Fin z) →
                         0 <= x → x <= 0.9 * (Dm / 2) →
    (crater_depth g mg d diameter_km false).1 !! k
    = Some (Fin (z + (H2 - H1 + H1 * float_pow (2 * x / Dm) m)))).
  { intros k x Hx Hz Hx0 Hx9.
    rewrite crater_depth_no_rim_lookup by done. rewrite Hz, Hx.
    unfold no_rim_increment. fold Dm. rewrite Hshape.
    rewrite bool_decide_eq_true_2 by lra.
    by rewrite DH_in_at_value. }
  eexists _, _. split; [apply (Hnode i xi); (done || lra) |].
  split; [apply (Hnode j xj); (done || lra) |].
  assert (0 <= 2 * xi / Dm <= 2 * xj / Dm) as [Ha Hab].
  { split.
    - apply Rmult_le_pos; [lra |]. left. by apply Rinv_0_lt_compat.
    - apply Rmult_le_compat_r; [| lra]. left. by apply Rinv_0_lt_compat. }
  assert (2 * xj / Dm < 1) as Hb1.
  { apply Rmult_lt_reg_r with Dm; [done |].
    replace (2 * xj / Dm * Dm) with (2 * xj) by (field; lra). lra. }
  destruct (float_pow_mono _ _ m Ha Hab Hm) as [Hp0 Hpm].
  pose proof (float_pow_lt_1 (2 * xj / Dm) m ltac:(lra) Hb1 Hm) as Hp1.
  repeat split; nra.
Qed.

(** ** A crater with a rim *)

Lemma Rpower_le_1 a c : 1 <= a → c <= 0 → Rpower a c <= 1.
Proof.
  intros Ha Hc. unfold Rpower. rewrite <- exp_0.
  assert (0 <= ln a) as Hln.
  { rewrite <- ln_1. destruct Ha as [Ha | <-]; [| lra].
    left. apply ln_increasing; lra. }
  destruct (Req_dec (c * ln a) 0) as [-> | Hne]; [lra |].
  left. apply exp_increasing. nra.
Qed.

(** Outside the rim the crater does not excavate.  For a crater whose
    exterior exponent n is not negative, on a field of finite elevations
    with at least one node within the radius, every node beyond the radius
    ends at least as high as it was and at most H2 higher.  (The exponent
    is between 3 and 5 for craters of a kilometer and more; for craters of
    about 100 m the denominator of n is near zero and n is large, of either
    sign.  Over the real numbers the node ends strictly higher; in float64
    a small increment leaves the elevation as it was.) *)
Theorem crater_depth_outside_deposits (g : module_state) (zs : list R)
    (d : list R) (diameter_km H1 H2 m n : R) (i : nat) (x z : R) :
  0 < diameter_km →
  shape_parameters (diameter_km * 1000) = Shape H1 H2 m n →
  0 <= n →
  (length d ≤ length zs)%nat →
  (∃ x0, x0 ∈ d ∧ x0 <= diameter_km * 1000 / 2) →
  d !! i = Some x → diameter_km * 1000 / 2 < x → zs !! i = Some z →
  ∃ z', (crater_depth g (Fin <$> zs) d diameter_km true).1 !! i
        = Some (Fin z') ∧ z <= z' <= z + H2.
Proof.
  intros Hpos Hshape Hn Hlen Hin Hx Hout Hz.
  destruct (crater_depth_increments_on_finite_field g zs d diameter_km
              H1 H2 m n Hpos Hshape Hlen Hin) as (mg' & -> & Hnodes).
  cbn [fst]. rewrite (Hnodes i x z Hx Hz).
  rewrite bool_decide_eq_false_2 by lra.
  assert (0 < diameter_km * 1000) as HDm by lra.
  destruct (shape_parameters_positive _ _ _ _ _ HDm Hshape) as (_ & HH2 & _).
  unfold DH_out_at, np_pow.
  rewrite decide_True by (apply Rdiv_lt_0_compat; lra). cbn.
  eexists. split; [done |].
  pose proof (Rpower_pos (2 * x / (diameter_km * 1000)) (- n)).
  assert (Rpower (2 * x / (diameter_km * 1000)) (- n) <= 1).
  { apply Rpower_le_1; [| lra].
    apply Rmult_le_reg_r with (diameter_km * 1000); [done |].
    replace (2 * x / (diameter_km * 1000) * (diameter_km * 1000))
      with (2 * x) by (field; lra).
    lra. }
  nra.
Qed.

(** A crater with a rim that contains no node turns every node that has a
    distance into NaN (when the call does not stop at the division of the
    exterior exponent). *)
Theorem crater_depth_no_node_inside (g : module_state) (mg : list num)
    (d : list R) (diameter_km : R) :
  0 < diameter_km →
  (length d ≤ length mg)%nat →
  Forall (λ x, x > diameter_km * 1000 / 2) d →
  crater_depth g mg d diameter_km true = (mg, Some ZeroDivisionError) ∨
  ∃ mg',
    crater_depth g mg d diameter_km true = (mg', None) ∧
    (∀ i, (i < length d)%nat → mg' !! i = Some NaN) ∧
    (∀ i, (length d ≤ i)%nat → mg' !! i = mg !! i).
Proof.
  intros Hpos Hlen Hout. unfold crater_depth.
  destruct (shape_parameters _) as [H1 H2 m n | |] eqn:Hshape; [| by left |].
  - right.
    destruct (crater_with_rim_no_node_inside mg d (diameter_km * 1000)
                (diameter_km * 1000 / 2) H1 H2 m n
                (draw_Z_noise (default_rng (seed g))) Hlen Hout)
      as (mg' & -> & _ & Hnan & Hrest).
    eauto.
  - exfalso. unfold shape_parameters in Hshape.
    rewrite decide_False in Hshape by lra. by repeat case_match.
Qed.

(** ** An exception after the excavation *)

(** Without a rim the call is not all-or-nothing.  When every node within
    0.9 * radius is a node of the field but the distance array has an entry
    beyond the field for a node further out, the excavation is carried out
    and only then the [+= 0] on the outside positions raises IndexError:
    the exception leaves the field excavated. *)
Theorem crater_depth_no_rim_partial_update (g : module_state)
    (mg : list num) (d : list R) (diameter_km : R) (H1 H2 m n : R) :
  shape_parameters (diameter_km * 1000) = Shape H1 H2 m n →
  (∀ i x, d !! i = Some x → x <= diameter_km * 1000 / 2 * 0.9 →
          (i < length mg)%nat) →
  (∃ i x, d !! i = Some x ∧ x > diameter_km * 1000 / 2 * 0.9 ∧
          (length mg ≤ i)%nat) →
  (crater_depth g mg d diameter_km false).2 = Some IndexError ∧
  ∀ i, (crater_depth g mg d diameter_km false).1 !! i
       = (λ z, (z + no_rim_increment diameter_km (d !! i))%num) <$> mg !! i.
Proof.
  intros Hshape Hin (k & xk & Hk & Hkout & Hkge).
  unfold crater_depth, no_rim_increment. rewrite Hshape.
  set (Dm := diameter_km * 1000) in *. set (radius := Dm / 2) in *.
  unfold crater_without_rim.
  set (in_idx := np_where (λ x, bool_decide (x <= radius * 0.9)) d).
  set (out_idx := np_where (λ x, bool_decide (x > radius * 0.9)) d).
  assert (Forall (λ i, (i < length mg)%nat) in_idx) as Hrange.
  { apply Forall_forall. intros i Hi. unfold in_idx in Hi.
    apply np_where_elem in Hi as (x & Hx & Hle).
    apply bool_decide_eq_true in Hle. eauto. }
  destruct (proj2 (take_idx_is_Some mg in_idx) Hrange) as [Z_in HZin].
  rewrite HZin. cbn zeta.
  set (DE_in := zip_with nadd _ _).
  destruct (iadd_idx mg in_idx DE_in) as [mg1|] eqn:Hmg1; last first.
  { exfalso. apply eq_None_not_Some in Hmg1. apply Hmg1.
    by apply iadd_idx_is_Some. }
  pose proof (iadd_idx_length _ _ _ _ Hmg1) as Hlen1.
  assert (iadd_idx mg1 out_idx (replicate (length out_idx) (Fin 0)) = None)
    as ->.
  { apply eq_None_not_Some. rewrite iadd_idx_is_Some, Forall_forall.
    intros Hall. specialize (Hall k). rewrite Hlen1 in Hall.
    assert (k ∈ out_idx) as Hko.
    { unfold out_idx. apply np_where_elem. exists xk. split; [done |].
      by apply bool_decide_eq_true_2. }
    apply Hall in Hko. lia. }
  split; [done |]. cbn [fst]. intros i.
  destruct (mg !! i) as [z|] eqn:Hz; cbn -[nadd]; last first.
  { apply lookup_ge_None. rewrite Hlen1. by apply lookup_ge_None. }
  destruct (d !! i) as [x|] eqn:Hx; last first.
  { rewrite nadd_0_r, <- Hz. apply (iadd_idx_notin _ _ _ _ _ Hmg1).
    unfold in_idx. rewrite np_where_elem. intros (y & Hy & _). congruence. }
  destruct (bool_decide (x <= radius * 0.9)) eqn:Hinside.
  - assert (i ∈ in_idx) as Hi by (unfold in_idx; rewrite np_where_elem; eauto).
    apply list_elem_of_lookup in Hi as [j Hj].
    assert (DE_in !! j = Some (DE_in_at Dm radius H1 H2 H1 m z x)) as HDE.
    { unfold DE_in.
      repeat first [rewrite lookup_zip_with | rewrite list_lookup_fmap].
      rewrite Hj, !(take_idx_lookup _ _ _ _ _ HZin Hj), Hz. cbn.
      by rewrite (list_lookup_total_correct _ _ _ Hx). }
    destruct (iadd_idx_in _ _ _ _ _ _ _ (np_where_NoDup _ _) Hmg1 Hj HDE)
      as (z' & Hz' & ->).
    rewrite Hz in Hz'. injection Hz' as <-. by rewrite nadd_DE_in_at.
  - rewrite nadd_0_r, <- Hz. apply (iadd_idx_notin _ _ _ _ _ Hmg1).
    unfold in_idx. rewrite np_where_elem. intros (y & Hy & Hle).
    rewrite Hx in Hy. injection Hy as <-. congruence.
Qed.

End kernel_extras.

(** * Further properties of the inverter *)

Lemma np_log10_increasing a b : 0 < a → a < b → np_log10 a < np_log10 b.
Proof.
  intros Ha Hab. unfold np_log10. pose proof ln_10_pos.
  apply Rmult_lt_compat_r; [by apply Rinv_0_lt_compat |].
  apply ln_increasing; lra.
Qed.

Lemma np_log10_mono a b : 0 < a → a <= b → np_log10 a <= np_log10 b.
Proof.
  intros Ha [Hab | ->]; [| lra]. left. by apply np_log10_increasing.
Qed.

Lemma np_log10_pow10 x : np_log10 (Rpower 10 x) = x.
Proof.
  unfold np_log10. rewrite ln_Rpower. pose proof ln_10_pos. field. lra.
Qed.

Lemma pow10_np_log10 D : 0 < D → Rpower 10 (np_log10 D) = D.
Proof.
  intros HD. unfold Rpower, np_log10. pose proof ln_10_pos.
  replace (ln D / ln 10 * ln 10) with (ln D) by (field; lra).
  by apply exp_ln.
Qed.

Lemma ten_is_ten : 10.0 = 10.
Proof. lra. Qed.

(** The samples of [np.linspace]. *)
Lemma np_linspace_lookup (start stop : R) (n i : nat) :
  (i < n)%nat → (2 ≤ n)%nat →
  np_linspace start stop n !!! i
  = start + INR i * ((stop - start) / INR (n - 1)).
Proof.
  intros Hi Hn. unfold np_linspace.
  assert (0 < INR (n - 1)) as Hpos by (apply lt_0_INR; lia).
  destruct (decide (i = n - 1)%nat) as [-> | Hne].
  - rewrite list_lookup_total_insert_eq
      by (rewrite length_fmap, length_seq; lia).
    field. lra.
  - rewrite list_lookup_total_insert_ne by done.
    rewrite !list_lookup_total_alt, list_lookup_fmap.
    by rewrite lookup_seq_lt.
Qed.

(** The two bisections on a sorted array. *)
Lemma bisect_left_sorted fuel (a : list R) v lo hi :
  (∀ i j, (i ≤ j < length a)%nat → a !!! i <= a !!! j) →
  (lo ≤ hi ≤ length a)%nat → (hi - lo ≤ fuel)%nat →
  (∀ i, (i < lo)%nat → a !!! i < v) →
  (∀ i, (hi ≤ i < length a)%nat → ¬ a !!! i < v) →
  let r := bisect_left fuel a v lo hi in
  (lo ≤ r ≤ hi)%nat ∧
  (∀ i, (i < r)%nat → a !!! i < v) ∧
  (∀ i, (r ≤ i < length a)%nat → ¬ a !!! i < v).
Proof.
  intros Hsorted. revert lo hi.
  induction fuel as [|fuel IH]; intros lo hi Hb Hf Hlo Hhi; cbn [bisect_left].
  { assert (lo = hi) as -> by lia. cbn. auto with lia. }
  destruct (decide (lo < hi)%nat) as [Hlt|]; last first.
  { assert (lo = hi) as -> by lia. cbn. auto with lia. }
  pose proof (half_lt lo hi Hlt) as Hmid.
  set (mid := (lo + (hi - lo) / 2)%nat) in *.
  destruct (decide (a !!! mid < v)) as [Hm | Hm].
  - destruct (IH (S mid) hi) as (Hr & Hbelow & Habove); [lia | lia | | done |].
    + intros i Hi. apply Rle_lt_trans with (a !!! mid); [| done].
      apply Hsorted. lia.
    + cbn zeta. split; [lia | done].
  - destruct (IH lo mid) as (Hr & Hbelow & Habove); [lia | lia | done | |].
    + intros i Hi Hiv. apply Hm. apply Rle_lt_trans with (a !!! i); [| done].
      apply Hsorted. lia.
    + cbn zeta. split; [lia | done].
Qed.

Lemma bisect_right_sorted fuel (a : list R) key imin imax :
  (∀ i j, (i ≤ j < length a)%nat → a !!! i <= a !!! j) →
  (imin ≤ imax ≤ length a)%nat → (imax - imin ≤ fuel)%nat →
  (∀ i, (i < imin)%nat → a !!! i <= key) →
  (∀ i, (imax ≤ i < length a)%nat → key < a !!! i) →
  let r := bisect_right fuel a key imin imax in
  (imin ≤ r ≤ imax)%nat ∧
  (∀ i, (i < r)%nat → a !!! i <= key) ∧
  (∀ i, (r ≤ i < length a)%nat → key < a !!! i).
Proof.
  intros Hsorted. revert imin imax.
  induction fuel as [|fuel IH]; intros lo hi Hb Hf Hlo Hhi;
    cbn [bisect_right].
  { assert (lo = hi) as -> by lia. cbn. auto with lia. }
  destruct (decide (lo < hi)%nat) as [Hlt|]; last first.
  { assert (lo = hi) as -> by lia. cbn. auto with lia. }
  pose proof (half_lt lo hi Hlt) as Hmid.
  set (mid := (lo + (hi - lo) / 2)%nat) in *.
  destruct (decide (key >= a !!! mid)) as [Hm | Hm].
  - destruct (IH (S mid) hi) as (Hr & Hbelow & Habove); [lia | lia | | done |].
    + intros i Hi. apply Rle_trans with (a !!! mid); [| lra].
      apply Hsorted. lia.
    + cbn zeta. split; [lia | done].
  - destruct (IH lo mid) as (Hr & Hbelow & Habove); [lia | lia | done | |].
    + intros i Hi. apply Rlt_le_trans with (a !!! mid); [lra |].
      apply Hsorted. lia.
    + cbn zeta. split; [lia | done].
Qed.

(** [np.interp] reproduces an affine relation between the samples. *)
Lemma np_interp_affine (x alpha beta : R) (xp fp : list R) :
  (0 < length xp)%nat →
  (∀ i j, (i < j < length xp)%nat → xp !!! i < xp !!! j) →
  (∀ i, (i < length xp)%nat → fp !!! i = alpha * xp !!! i + beta) →
  xp !!! 0%nat <= x <= xp !!! (length xp - 1)%nat →
  np_interp x xp fp = alpha * x + beta.
Proof.
  intros Hlen Hstrict Hfp [Hlo Hhi]. unfold np_interp.
  rewrite decide_False by lra. rewrite decide_False by lra.
  assert (Hsorted : ∀ i j, (i ≤ j < length xp)%nat → xp !!! i <= xp !!! j).
  { intros i j Hij. destruct (decide (i = j)) as [-> | Hne]; [lra |].
    left. apply Hstrict. lia. }
  destruct (bisect_right_sorted (length xp) xp x 0 (length xp) Hsorted)
    as (Hr & Hbelow & Habove); [lia | lia | intros; lia | intros; lia |].
  destruct (bisect_right _ _ _ _ _) as [|j] eqn:Hbis.
  { exfalso. specialize (Habove 0%nat ltac:(lia)). lra. }
  pose proof (Hbelow j ltac:(lia)) as Hj.
  destruct (decide (j = length xp - 1)%nat) as [-> | Hne].
  - rewrite Hfp by lia. f_equal. f_equal. lra.
  - destruct (decide (xp !!! j = x)) as [<- | Hnx].
    + apply Hfp. lia.
    + pose proof (Hstrict j (S j) ltac:(lia)).
      rewrite !Hfp by lia. field. lra.
Qed.

Section inverse_extras.
Context `{ProductionFn}.

Lemma fmap_lookup_total (f : R → R) (l : list R) (i : nat) :
  (i < length l)%nat → (f <$> l) !!! i = f (l !!! i).
Proof.
  intros Hi. rewrite !list_lookup_total_alt, list_lookup_fmap.
  by destruct (lookup_lt_is_Some_2 l i Hi) as [x ->].
Qed.

Lemma inverse_body_x log_y xrange x y1 xrange' :
  inverse_body log_y xrange = Some (x, y1, xrange') →
  x = np_interp log_y
        ((λ x, np_log10 (pf_cumulative (Rpower 10.0 x)))
           <$> np_linspace xrange.2 xrange.1 divisions)
        (np_linspace xrange.2 xrange.1 divisions).
Proof.
  unfold inverse_body. repeat case_match; try done. by intros [= <- <- <-].
Qed.

(** A target above the cumulative frequency of every diameter is refused
    with IndexError in the first pass: the function does not return an
    estimate. *)
Theorem inverse_target_above_samples (irange : R * R) (y tol : R) :
  (∀ D, 0 < pf_cumulative D < y) →
  crater_production_function_inverse irange y tol = Raised IndexError.
Proof.
  intros Hy. unfold crater_production_function_inverse, inverse_iterations.
  cbn [inverse_loop]. rewrite inverse_body_None; [done |].
  cbn zeta. unfold np_searchsorted.
  rewrite length_fmap, length_np_linspace. unfold divisions.
  apply bisect_left_all_lt; [| lia | lia].
  intros i Hi. rewrite fmap_lookup_total
    by (rewrite length_np_linspace; lia).
  cbn [fst snd].
  destruct (Hy (Rpower 10.0 (np_linspace (np_log10 irange.2)
                               (np_log10 irange.1) divisions !!! i)))
    as [Hpos Hlt].
  by apply np_log10_increasing.
Qed.

(** The inverter on a power law. *)
Lemma inverse_power_law (k dmin dmax D tol : R) :
  (∀ D', 0 < D' → pf_cumulative D' = Rpower D' (- k)) →
  0 < k → 0 < dmin → dmin < dmax → dmin <= D <= dmax → 0 < tol →
  inverse_iterations (dmin, dmax) (pf_cumulative D) tol
    = Done (np_log10 D, 1%nat) ∧
  crater_production_function_inverse (dmin, dmax) (pf_cumulative D) tol
    = Done D.
Proof.
  intros Hpf Hk Hdmin Hlt [HDlo HDhi] Htol.
  assert (0 < D) as HD by lra.
  set (a := np_log10 dmin). set (b := np_log10 dmax). set (L := np_log10 D).
  assert (a < b) as Hab by (by apply np_log10_increasing).
  assert (a <= L <= b) as [HaL HLb].
  { split; apply np_log10_mono; lra. }
  assert (Hlogpf : ∀ D', 0 < D' →
            np_log10 (pf_cumulative D') = - k * np_log10 D').
  { intros D' HD'. rewrite Hpf by done. unfold np_log10.
    rewrite ln_Rpower. pose proof ln_10_pos. field. lra. }
  assert (Hf : ∀ x, np_log10 (pf_cumulative (Rpower 10.0 x)) = - k * x).
  { intros x. rewrite ten_is_ten, Hlogpf by apply Rpower_pos.
    by rewrite np_log10_pow10. }
  assert (inverse_iterations (dmin, dmax) (pf_cumulative D) tol
          = Done (L, 1%nat)) as Hiter.
  { unfold inverse_iterations. rewrite Hlogpf by done.
    cbn [fst snd]. fold a b L. cbn [inverse_loop].
    set (x0 := np_linspace b a divisions).
    set (y0 := (λ x, np_log10 (pf_cumulative (Rpower 10.0 x))) <$> x0).
    assert (Hx0 : ∀ i, (i < 9)%nat →
              x0 !!! i = b + INR i * ((a - b) / INR 8)).
    { intros i Hi. unfold x0, divisions.
      by rewrite np_linspace_lookup by lia. }
    assert (Hy0 : ∀ i, (i < 9)%nat → y0 !!! i = - k * x0 !!! i).
    { intros i Hi. unfold y0.
      rewrite fmap_lookup_total
        by (unfold x0; rewrite length_np_linspace; unfold divisions; lia).
      apply Hf. }
    assert (Hlen0 : length y0 = 9%nat).
    { unfold y0, x0. by rewrite length_fmap, length_np_linspace. }
    assert (HINR8 : INR 8 = 8) by (simpl; lra).
    assert (Hstrict : ∀ i j, (i < j < length y0)%nat → y0 !!! i < y0 !!! j).
    { intros i j Hij. rewrite Hlen0 in Hij.
      rewrite !Hy0, !Hx0 by lia. rewrite HINR8.
      assert (INR i < INR j) by (apply lt_INR; lia).
      assert (0 < k * (INR j - INR i) * ((b - a) / 8)).
      { apply Rmult_lt_0_compat; [apply Rmult_lt_0_compat |]; lra. }
      lra. }
    assert (Hinterp : np_interp (- k * L) y0 x0 = L).
    { rewrite (np_interp_affine (- k * L) (- / k) 0 y0 x0).
      - field. lra.
      - lia.
      - done.
      - intros i Hi. rewrite Hlen0 in Hi. rewrite Hy0 by done. field. lra.
      - rewrite Hlen0. rewrite !Hy0, !Hx0 by lia. rewrite HINR8.
        replace (INR 0) with 0 by done. replace (INR (9 - 1)) with 8
          by (simpl; lra).
        split; nra. }
    destruct (inverse_body_Some (- k * L) (a, b)) as [[[x y1] xr'] Hbody].
    { cbn [fst snd]. fold x0. fold y0. unfold np_searchsorted.
      rewrite Hlen0.
      destruct (bisect_left_sorted 9 y0 (- k * L) 0 9)
        as (Hr & Hbelow & _).
      - intros i j Hij. destruct (decide (i = j)) as [-> | Hne]; [lra |].
        left. apply Hstrict. lia.
      - lia.
      - lia.
      - intros; lia.
      - intros; lia.
      - destruct (decide (bisect_left 9 y0 (- k * L) 0 9 = 9%nat))
          as [Heq|]; [| lia].
        exfalso. specialize (Hbelow 8%nat ltac:(lia)).
        rewrite Hy0, Hx0 in Hbelow by lia. rewrite HINR8 in Hbelow.
        replace (INR 8) with 8 in Hbelow by (simpl; lra). nra. }
    rewrite Hbody.
    pose proof (inverse_body_x _ _ _ _ _ Hbody) as Hx.
    pose proof (inverse_body_y1 _ _ _ _ _ Hbody) as Hy1.
    cbn [fst snd] in Hx. fold x0 in Hx. fold y0 in Hx.
    rewrite Hinterp in Hx. subst x. rewrite Hf in Hy1. subst y1.
    rewrite bool_decide_eq_true_2; [done |].
    replace (- k * L - - k * L) with 0 by lra. by rewrite Rabs_R0. }
  split; [done |].
  unfold crater_production_function_inverse. rewrite Hiter.
  f_equal. by apply pow10_np_log10.
Qed.

Lemma Rpower_antitone a b c :
  0 < a → a <= b → c <= 0 → Rpower b c <= Rpower a c.
Proof.
  intros Ha Hab Hc. unfold Rpower.
  assert (ln a <= ln b) as Hln.
  { destruct Hab as [Hab | <-]; [| lra]. left. by apply ln_increasing. }
  destruct (Req_dec (c * ln b) (c * ln a)) as [-> | Hne]; [lra |].
  left. apply exp_increasing. nra.
Qed.

(** On a power law every target between the cumulative frequencies of the
    two ends of the bracket has its diameter in the bracket, and the
    inverter returns it. *)
Lemma inverse_power_law_target (k dmin dmax y tol : R) :
  (∀ D', 0 < D' → pf_cumulative D' = Rpower D' (- k)) →
  0 < k → 0 < dmin → dmin < dmax →
  pf_cumulative dmax <= y <= pf_cumulative dmin → 0 < tol →
  ∃ d, crater_production_function_inverse (dmin, dmax) y tol = Done d ∧
       dmin <= d <= dmax.
Proof.
  intros Hpf Hk Hdmin Hlt [Hlo Hhi] Htol.
  rewrite Hpf in Hlo by lra. rewrite Hpf in Hhi by lra.
  assert (0 < y) as Hy.
  { pose proof (Rpower_pos dmax (- k)). lra. }
  assert (Hback : ∀ D', 0 < D' → Rpower (Rpower D' (- k)) (- / k) = D').
  { intros D' HD'. rewrite Rpower_mult.
    replace (- k * - / k) with 1 by (field; lra). by apply Rpower_1. }
  assert (Hy' : Rpower (Rpower y (- / k)) (- k) = y).
  { rewrite Rpower_mult. replace (- / k * - k) with 1 by (field; lra).
    by apply Rpower_1. }
  assert (0 < / k) as Hik by (by apply Rinv_0_lt_compat).
  assert (dmin <= Rpower y (- / k) <= dmax) as HD.
  { split.
    - apply Rle_trans with (Rpower (Rpower dmin (- k)) (- / k)).
      + right. symmetry. by apply Hback.
      + apply Rpower_antitone; [done | done | lra].
    - apply Rle_trans with (Rpower (Rpower dmax (- k)) (- / k)).
      + apply Rpower_antitone; [apply Rpower_pos | done | lra].
      + right. apply Hback. lra. }
  exists (Rpower y (- / k)). split; [| done].
  rewrite <- Hy' at 1. rewrite <- Hpf by apply Rpower_pos.
  by apply (inverse_power_law k dmin dmax (Rpower y (- / k)) tol).
Qed.

(** Round trip on a power law.  For the production function
    N(D) = D^(-k), k > 0, and a bracket dmin < dmax, the inverter returns
    exactly the diameter D of the bracket whose cumulative frequency is
    the target, and it does so in the first pass. *)
Theorem inverse_power_law_round_trip (k dmin dmax D tol : R) :
  (∀ D', 0 < D' → pf_cumulative D' = Rpower D' (- k)) →
  0 < k → 0 < dmin → dmin < dmax → dmin <= D <= dmax → 0 < tol →
  inverse_iterations (dmin, dmax) (pf_cumulative D) tol
    = Done (np_log10 D, 1%nat) ∧
  crater_production_function_inverse (dmin, dmax) (pf_cumulative D) tol
    = Done D.
Proof. apply inverse_power_law. Qed.

End inverse_extras.

(** * Further properties of the generator *)

Section generator_extras.
Context `{RandomSource} `{ProductionFn} `{ChronologyFn}.

Lemma inverse_Done_positive irange y tol d :
  crater_production_function_inverse irange y tol = Done d → 0 < d.
Proof.
  unfold crater_production_function_inverse.
  destruct (inverse_iterations irange y tol) as [[x c]| |]; [| done | done].
  intros [= <-]. apply Rpower_pos.
Qed.

Lemma gen_body_Done_positive diameter_range Area poisson t rn d dt rn' :
  gen_body diameter_range Area poisson t rn = Done (d, dt, rn') → 0 < d.
Proof.
  unfold gen_body. destruct (uniform rn 0 1) as [u rn1].
  destruct (crater_production_function_inverse _ _ _) as [d0| |] eqn:Hinv;
    [| done | done].
  apply inverse_Done_positive in Hinv.
  destruct poisson; [destruct (uniform rn1 0 1) |]; by intros [= <- _ _].
Qed.

Lemma gen_loop_positive time_interval diameter_range Area poisson
    fuel t rn acc l tf :
  Forall (λ d, 0 < d) acc →
  gen_loop time_interval diameter_range Area poisson fuel t rn acc
    = Done (l, tf) →
  Forall (λ d, 0 < d) l.
Proof.
  revert t rn acc. induction fuel as [|fuel IH]; intros t rn acc Hacc; [done |].
  cbn [gen_loop]. destruct t as [tr|]; [| by intros [= <- _]].
  destruct (bool_decide _); [| by intros [= <- _]].
  destruct (gen_body _ _ _ tr rn) as [[[d dt] rn']| |] eqn:Hbody;
    [| done | done].
  apply IH. apply Forall_app. split; [done |].
  constructor; [| constructor]. by eapply gen_body_Done_positive.
Qed.

(** The diameters of a run that returns. *)
Lemma generate_positive (g : module_state) (fuel : nat)
    (time_interval : R * R) (size_interval : option (R * R))
    (domain_area cell_size : R) (poisson_intervals : bool) :
  match (generate_CSFD_from_production_function g fuel time_interval
           size_interval domain_area cell_size poisson_intervals).1 with
  | Done list_d => Forall (λ d, 0 < d) list_d
  | _ => True
  end.
Proof.
  rewrite generate_unfold. cbn [fst].
  destruct (gen_loop _ _ _ _ _ _ _ _) as [[l tf]| |] eqn:Hrun; [| done | done].
  cbn. eapply gen_loop_positive; [| done]. constructor.
Qed.

(** Every diameter the generator returns is positive: [crater_depth] never
    receives a zero or negative diameter from it.  This is for a diameter
    range with positive bounds, a production function that is positive on
    the positive diameters and uniform draws in [0, 1], so that the targets
    and the samples of the inverter are positive and every logarithm is
    that of a positive number. *)
Theorem generate_diameters_positive (g : module_state) (fuel : nat)
    (time_interval : R * R) (size_interval : option (R * R))
    (domain_area cell_size : R) (poisson_intervals : bool) :
  let diameter_range := (setup_diameter_range size_interval cell_size).1 in
  0 < diameter_range.1 → 0 < diameter_range.2 →
  (∀ D, 0 < D → 0 < pf_cumulative D) →
  (∀ rn, 0 <= (uniform rn 0 1).1 <= 1) →
  match (generate_CSFD_from_production_function g fuel time_interval
           size_interval domain_area cell_size poisson_intervals).1 with
  | Done list_d => Forall (λ d, 0 < d) list_d
  | _ => True
  end.
Proof. intros _ _ _ _ _. apply generate_positive. Qed.

Lemma setup_diameter_range_Some interval cell_size :
  (setup_diameter_range (Some interval) cell_size).1 = interval.
Proof. unfold setup_diameter_range. by case_match. Qed.

(** With the mean interval instead of Poisson intervals the time loop ends
    when the rate is positive and bounded and the inverter returns on every
    target that a draw of [0, 1] gives: if (t_start - t) * L < n, at most n
    passes are made from t. *)
Lemma gen_loop_deterministic_terminates time_interval diameter_range Area
    (L : R) (n : nat) :
  0 < L →
  (∀ rn, 0 <= (uniform rn 0 1).1 <= 1) →
  (∀ t, 0 < phi t * N1_ratio diameter_range * Area <= L) →
  (∀ u, 0 <= u <= 1 →
        ∃ d, crater_production_function_inverse diameter_range
               (u * (N_ diameter_range 1 - N_ diameter_range 2)
                + N_ diameter_range 2) default_tol = Done d) →
  ∀ fuel t rn acc,
    (time_interval.1 - t) * L < INR n → (n < fuel)%nat →
    ∃ l tf,
      gen_loop time_interval diameter_range Area false fuel (Fin t) rn acc
        = Done (acc ++ l, tf) ∧
      (length l ≤ n)%nat ∧ (t <= time_interval.1 → (1 ≤ length l)%nat).
Proof.
  intros HL Hdraw Hlam Hinv.
  induction n as [|n IH]; intros fuel t rn acc Hn Hfuel.
  - destruct fuel as [|fuel]; [lia |].
    assert (¬ t <= time_interval.1) as Hgt by (cbn in Hn; nra).
    rewrite gen_loop_stop by (cbn; by apply bool_decide_eq_false_2).
    exists [], (Fin t). rewrite app_nil_r. split; [done |].
    split; [done | intros; lra].
  - destruct fuel as [|fuel]; [lia |].
    destruct (decide (t <= time_interval.1)) as [Hle | Hgt]; last first.
    { rewrite gen_loop_stop by (cbn; by apply bool_decide_eq_false_2).
      exists [], (Fin t). rewrite app_nil_r. split; [done |].
      split; [cbn; lia | intros; lra]. }
    rewrite gen_loop_continue by done. unfold gen_body.
    pose proof (Hdraw rn) as Hu.
    destruct (uniform rn 0 1) as [u rn1].
    destruct (Hinv u Hu) as [d ->].
    destruct (Hlam t) as [Hlam0 HlamL].
    set (lam := phi t * N1_ratio diameter_range * Area) in *.
    unfold ndiv. rewrite decide_False by lra. cbn [nadd lift2].
    destruct (IH fuel (t + 1.0 / lam) rn1 (acc ++ [d])) as (l & tf & Hrun & Hlen & _).
    + rewrite S_INR in Hn.
      assert (1 <= L / lam).
      { apply Rmult_le_reg_r with lam; [done |].
        replace (L / lam * lam) with L by (field; lra). lra. }
      replace (1.0 / lam) with (/ lam) by lra.
      replace ((time_interval.1 - (t + / lam)) * L)
        with ((time_interval.1 - t) * L - L / lam) by (field; lra).
      lra.
    + lia.
    + exists (d :: l), tf. rewrite Hrun, <- app_assoc. split; [done |].
      cbn. split; lia.
Qed.

(** The generator without Poisson intervals terminates, and the number of
    diameters is bounded by the length of the time interval times the
    largest rate.  The diameter range has positive bounds, the production
    function is positive on the positive diameters and the uniform draws
    are in [0, 1].  When the rate phi(t) * N1_ratio * domain_area is
    positive and at most L at every time, and the inverter returns for
    every target that a draw of [0, 1] gives (as it does on a power law), a
    run over an interval with t_end <= t_start returns at least one
    diameter and at most n, for every n above (t_start - t_end) * L;
    n + 1 passes of the loop are enough. *)
Theorem generate_deterministic_terminates (g : module_state) (n fuel : nat)
    (t_start t_end : R) (size_interval : option (R * R))
    (domain_area cell_size L : R) :
  let diameter_range := (setup_diameter_range size_interval cell_size).1 in
  t_end <= t_start → 0 < L →
  0 < diameter_range.1 → 0 < diameter_range.2 →
  (∀ D, 0 < D → 0 < pf_cumulative D) →
  (∀ rn, 0 <= (uniform rn 0 1).1 <= 1) →
  (∀ t, 0 < phi t * N1_ratio diameter_range * domain_area <= L) →
  (∀ u, 0 <= u <= 1 →
        ∃ d, crater_production_function_inverse diameter_range
               (u * (N_ diameter_range 1 - N_ diameter_range 2)
                + N_ diameter_range 2) default_tol = Done d) →
  (t_start - t_end) * L < INR n → (n < fuel)%nat →
  ∃ list_d,
    (generate_CSFD_from_production_function g fuel (t_start, t_end)
       size_interval domain_area cell_size false).1 = Done list_d ∧
    (1 ≤ length list_d ≤ n)%nat.
Proof.
  intros diameter_range Hle HL _ _ _ Hdraw Hlam Hinv Hn Hfuel.
  rewrite generate_unfold. cbn [fst snd]. fold diameter_range.
  destruct (gen_loop_deterministic_terminates (t_start, t_end)
              diameter_range domain_area L n HL Hdraw Hlam Hinv fuel t_end
              (default_rng (seed g)) [] Hn Hfuel)
    as (l & tf & -> & Hlen & Hone).
  exists l. cbn. split; [done |]. split; [by apply Hone | done].
Qed.

End generator_extras.

(** * weights *)

Lemma py_range_lookup (a b : Z) (i : nat) :
  py_range a b !! i
  = if decide (Z.of_nat i < b - a)%Z then Some (a + Z.of_nat i)%Z else None.
Proof.
  unfold py_range. rewrite list_lookup_fmap.
  destruct (decide (Z.of_nat i < b - a)%Z).
  - rewrite lookup_seq_lt by lia. done.
  - rewrite lookup_seq_ge by lia. done.
Qed.

Lemma length_py_range (a b : Z) : length (py_range a b) = Z.to_nat (b - a).
Proof. unfold py_range. by rewrite length_fmap, length_seq. Qed.

Lemma py_range_elem (a b D : Z) : D ∈ py_range a b ↔ (a ≤ D < b)%Z.
Proof.
  rewrite list_elem_of_lookup. split.
  - intros [i Hi]. rewrite py_range_lookup in Hi. case_decide; [| done].
    injection Hi as <-. lia.
  - intros HD. exists (Z.to_nat (D - a)). rewrite py_range_lookup.
    rewrite decide_True by lia. f_equal. lia.
Qed.

Lemma weight_positive D w : weight D = Some w → 0 < w.
Proof.
  unfold weight. case_decide as HD; [done |]. intros [= <-].
  apply not_0_IZR in HD. cbn.
  assert (0 < IZR D * (IZR D * 1)) by nra.
  assert (0 < / (IZR D * (IZR D * 1))) by (by apply Rinv_0_lt_compat).
  lra.
Qed.

Lemma mapM_weight_Some (l : list Z) :
  0%Z ∉ l → ∃ ws, mapM weight l = Some ws ∧ Forall (λ w, 0 < w) ws.
Proof.
  intros Hl. destruct (mapM weight l) as [ws|] eqn:Hm.
  - exists ws. split; [done |]. apply mapM_Some in Hm.
    apply Forall_lookup. intros i w Hw.
    destruct (Forall2_lookup_r _ _ _ _ _ Hm Hw) as (D & _ & HD).
    by eapply weight_positive.
  - exfalso. apply eq_None_not_Some in Hm. apply Hm. apply mapM_is_Some.
    apply Forall_forall. intros D HD. unfold compose, weight.
    rewrite decide_False; [done |]. intros ->. done.
Qed.

Lemma py_sum_cons (x : R) (l : list R) : py_sum (x :: l) = x + py_sum l.
Proof.
  unfold py_sum. cbn. rewrite Rplus_0_l.
  assert (Hgen : ∀ l a, foldl Rplus a l = a + foldl Rplus 0 l).
  { clear. induction l as [|y l IH]; intros a; cbn; [lra |].
    rewrite (IH (a + y)), (IH (0 + y)). lra. }
  apply Hgen.
Qed.

(** The scan returns the first index at which the running sum of the
    weights exceeds [rnd]. *)
Lemma weights_scan_spec (i0 : nat) (rnd : R) (ws : list R) :
  Forall (λ w, 0 < w) ws → 0 <= rnd < py_sum ws →
  ∃ i, weights_scan i0 rnd ws = Some (i0 + i)%nat ∧ (i < length ws)%nat ∧
       py_sum (take i ws) <= rnd < py_sum (take (S i) ws).
Proof.
  intros Hpos. revert i0 rnd.
  induction Hpos as [|w ws Hw Hpos IH]; intros i0 rnd [H0 Hsum].
  { unfold py_sum in Hsum. cbn in Hsum. lra. }
  rewrite py_sum_cons in Hsum. cbn [weights_scan].
  destruct (decide (rnd - w < 0)) as [Hneg | Hnneg].
  - exists 0%nat. rewrite Nat.add_0_r. split; [done |]. split; [cbn; lia |].
    cbn [firstn]. rewrite py_sum_cons, take_0. unfold py_sum. cbn. lra.
  - destruct (IH (S i0) (rnd - w)) as (i & Hscan & Hi & Hlo & Hhi); [lra |].
    exists (S i). rewrite Hscan. split; [f_equal; lia |].
    split; [cbn; lia |]. cbn [firstn]. rewrite !py_sum_cons. lra.
Qed.

Section weights_extras.
Context `{RandomSample}.

(** The index [weights] returns on a range without 0. *)
Lemma weights_index (g : module_state) (minD maxD : Z) :
  (minD < maxD)%Z → (0 < minD ∨ maxD ≤ 0)%Z →
  0 <= (random (default_rng (seed g))).1 < 1 →
  ∃ (i : nat) (ws : list R),
    weights g minD maxD = Done (Some i) ∧
    py_range minD maxD !! i = Some (minD + Z.of_nat i)%Z ∧
    (minD ≤ minD + Z.of_nat i < maxD)%Z ∧
    mapM weight (py_range minD maxD) = Some ws ∧
    py_sum (take i ws)
      <= (random (default_rng (seed g))).1 * py_sum ws
      < py_sum (take (S i) ws).
Proof.
  intros Hne Hzero [Hu0 Hu1]. unfold weights.
  destruct (mapM_weight_Some (py_range minD maxD)) as (ws & Hws & Hpos).
  { rewrite py_range_elem. lia. }
  rewrite Hws.
  assert (length ws = Z.to_nat (maxD - minD)) as Hlen.
  { rewrite <- length_py_range. symmetry. by eapply length_mapM. }
  assert (0 < py_sum ws) as Htotal.
  { destruct ws as [|w ws]; [cbn in Hlen; lia |].
    apply Forall_cons in Hpos as [Hw Hpos]. rewrite py_sum_cons.
    clear -Hw Hpos. induction Hpos as [|w' ws Hw' _ IH].
    - unfold py_sum. cbn. lra.
    - rewrite py_sum_cons. lra. }
  destruct (weights_scan_spec 0 ((random (default_rng (seed g))).1 * py_sum ws)
              ws Hpos) as (i & Hscan & Hi & Hsums).
  { split; nra. }
  exists i, ws. rewrite Hscan. cbn [Nat.add].
  split; [done |]. split.
  { rewrite py_range_lookup. rewrite decide_True by lia. done. }
  split; [lia |]. done.
Qed.

(** [weights] on the ranges it cannot serve. *)
Lemma weights_bad_range (g : module_state) (minD maxD : Z) :
  ((maxD ≤ minD)%Z → weights g minD maxD = Done None) ∧
  ((minD ≤ 0 < maxD)%Z → weights g minD maxD = Raised ZeroDivisionError).
Proof.
  unfold weights. split.
  - intros Hempty. unfold py_range.
    replace (Z.to_nat (maxD - minD)) with 0%nat by lia. done.
  - intros Hzero.
    destruct (mapM weight (py_range minD maxD)) as [ws|] eqn:Hm; [| done].
    exfalso. apply mapM_Some in Hm.
    assert (0%Z ∈ py_range minD maxD) as Hin by (apply py_range_elem; lia).
    apply list_elem_of_lookup in Hin as [i Hi].
    destruct (Forall2_lookup_l _ _ _ _ _ Hm Hi) as (w & _ & Hw).
    unfold weight in Hw. by rewrite decide_True in Hw.
Qed.

(** For a diameter range that is not empty and does not contain 0, and a
    draw in [0, 1), [weights] returns an index of the range, so the
    diameter taken from [range(minD, maxD)] at that index exists and lies
    in [minD, maxD); the index is the first at which the running sum of
    the weights exceeds the draw times their total. *)
Theorem weights_valid_index (g : module_state) (minD maxD : Z) :
  (minD < maxD)%Z → (0 < minD ∨ maxD ≤ 0)%Z →
  0 <= (random (default_rng (seed g))).1 < 1 →
  ∃ (i : nat) (ws : list R),
    weights g minD maxD = Done (Some i) ∧
    py_range minD maxD !! i = Some (minD + Z.of_nat i)%Z ∧
    (minD ≤ minD + Z.of_nat i < maxD)%Z ∧
    mapM weight (py_range minD maxD) = Some ws ∧
    py_sum (take i ws)
      <= (random (default_rng (seed g))).1 * py_sum ws
      < py_sum (take (S i) ws).
Proof. apply weights_index. Qed.

(** [weights] on an empty range returns [None]; on a range that contains 0
    it raises ZeroDivisionError. *)
Theorem weights_edge_cases (g : module_state) (minD maxD : Z) :
  ((maxD ≤ minD)%Z → weights g minD maxD = Done None) ∧
  ((minD ≤ 0 < maxD)%Z → weights g minD maxD = Raised ZeroDivisionError).
Proof. apply weights_bad_range. Qed.

End weights_extras.

(** * The drivers *)

Section drivers_extras.
Context `{RandomSample} `{!RandomIntegers} `{ProductionFn} `{ChronologyFn}.

#[local] Abbreviation elevation := topographic__elevation.
#[local] Abbreviation distances := calc_distances_of_nodes_to_point.

Lemma with_elevation_same (mg : RasterModelGrid) :
  with_elevation mg (elevation mg) = mg.
Proof. by destruct mg. Qed.

Lemma apply_craters_cons g z ev evs :
  apply_craters g z (ev :: evs) = apply_craters g (apply_crater g z ev) evs.
Proof. done. Qed.

(** The loop of [add_craters1] when [weights] returns the index [a] of the
    diameter [D]: every pass applies a crater of diameter [D]. *)
Lemma add_craters1_loop_events g mg grid_size minD maxD rim a D :
  weights g minD maxD = Done (Some a) →
  py_range minD maxD !! a = Some D →
  ∀ n rn z, ∃ centers,
    (length centers ≤ n)%nat ∧
    (add_craters1_loop g mg grid_size minD maxD rim n rn z).1
    = apply_craters g z
        (events_at mg rim centers (replicate (length centers) (IZR D))) ∧
    ((add_craters1_loop g mg grid_size minD maxD rim n rn z).2 = Returned →
     length centers = n).
Proof.
  intros Hw HD. induction n as [|n IH]; intros rn z.
  { exists []. by cbn. }
  cbn [add_craters1_loop]. rewrite Hw, HD.
  destruct (crater_center rn grid_size) as [[c rn']|].
  2:{ exists []. cbn. split; [lia |]. by split. }
  destruct (crater_depth g z (distances mg c) (IZR D) rim) as [z' [e|]] eqn:Hcd.
  - exists [c]. cbn. unfold apply_crater. cbn. rewrite Hcd.
    split; [lia |]. by split.
  - destruct (IH rn' z') as (centers & Hlen & Hz & Hret).
    exists (c :: centers). cbn [length replicate events_at zip_with].
    rewrite apply_craters_cons. unfold apply_crater at 1.
    cbn [ev_distances ev_diameter ev_rim]. rewrite Hcd. cbn [fst].
    fold (events_at mg rim centers (replicate (length centers) (IZR D))).
    split; [lia |]. split; [done |].
    intros Hr. by rewrite (Hret Hr).
Qed.

(** The loop of [add_craters1] when [weights] serves no diameter: no
    crater is applied. *)
Lemma add_craters1_loop_no_diameter g mg grid_size minD maxD rim n rn z :
  (∀ a D, weights g minD maxD = Done (Some a) →
          py_range minD maxD !! a = Some D → False) →
  (add_craters1_loop g mg grid_size minD maxD rim n rn z).1 = z ∧
  ((add_craters1_loop g mg grid_size minD maxD rim n rn z).2 = Returned →
   n = 0%nat).
Proof.
  intros Hno. destruct n as [|n]; [done |]. cbn [add_craters1_loop].
  destruct (weights g minD maxD) as [[a|]| |] eqn:Hw; try done.
  destruct (py_range minD maxD !! a) as [D|] eqn:HD; [| done].
  destruct (Hno a D eq_refl HD).
Qed.

(** The craters [add_craters1] applies. *)
Lemma add_craters1_events (g : module_state) (mg : RasterModelGrid)
    (Ncraters minD maxD : Z) (rim : bool) :
  ∃ (D : Z) (centers : list (Z * Z)),
    (length centers ≤ Z.to_nat Ncraters)%nat ∧
    (centers ≠ [] → (minD ≤ D < maxD)%Z) ∧
    elevation (add_craters1 g mg Ncraters minD maxD rim).1
    = apply_craters g (elevation mg)
        (events_at mg rim centers (replicate (length centers) (IZR D))) ∧
    ((add_craters1 g mg Ncraters minD maxD rim).2 = Returned →
     length centers = Z.to_nat Ncraters).
Proof.
  unfold add_craters1.
  set (grid_size := py_int _). set (rn := default_rng _).
  destruct (weights g minD maxD) as [[a|]| |] eqn:Hw.
  1: destruct (py_range minD maxD !! a) as [D|] eqn:HD.
  1:{ destruct (add_craters1_loop_events g mg grid_size minD maxD rim a D
                  Hw HD (Z.to_nat Ncraters) rn (elevation mg))
        as (centers & Hlen & Hz & Hret).
      exists D, centers.
      destruct (add_craters1_loop _ _ _ _ _ _ _ _ _) as [z e]. cbn in *.
      repeat split; try done.
      - apply (proj1 (py_range_elem minD maxD D)).
        by eapply list_elem_of_lookup_2.
      - apply (proj1 (py_range_elem minD maxD D)).
        by eapply list_elem_of_lookup_2. }
  all: destruct (add_craters1_loop_no_diameter g mg grid_size minD maxD rim
                   (Z.to_nat Ncraters) rn (elevation mg)) as [Hz Hret];
    [intros a' D' Hw' HD'; congruence |].
  all: exists 0%Z, [].
  all: destruct (add_craters1_loop _ _ _ _ _ _ _ _ _) as [z1 e1]; cbn in *.
  all: split; [lia |]; split; [done |]; split; [done |].
  all: intros Hr; symmetry; by apply Hret.
Qed.

(** [add_craters1] applies the same diameter at every pass: [weights]
    builds its generator from the seed at every call, so every call returns
    the same index.  The field the call leaves (it may have raised) is the
    field after craters of one diameter [D] of [range(minD, maxD)], one per
    center drawn, at most [Ncraters] of them and exactly [Ncraters] when
    the call returns. *)
Theorem add_craters1_one_diameter (g : module_state) (mg : RasterModelGrid)
    (Ncraters minD maxD : Z) (rim : bool) :
  ∃ (D : Z) (centers : list (Z * Z)),
    (length centers ≤ Z.to_nat Ncraters)%nat ∧
    (centers ≠ [] → (minD ≤ D < maxD)%Z) ∧
    elevation (add_craters1 g mg Ncraters minD maxD rim).1
    = apply_craters g (elevation mg)
        (events_at mg rim centers (replicate (length centers) (IZR D))) ∧
    ((add_craters1 g mg Ncraters minD maxD rim).2 = Returned →
     length centers = Z.to_nat Ncraters).
Proof. apply add_craters1_events. Qed.

(** [add_craters1] with a range it cannot serve.  On an empty range
    [weights] returns [None] and the list index raises TypeError; on a range
    that contains 0 [weights] raises ZeroDivisionError.  Both happen in the
    first pass, before the grid is touched. *)
Theorem add_craters1_bad_range (g : module_state) (mg : RasterModelGrid)
    (Ncraters minD maxD : Z) (rim : bool) :
  (0 < Ncraters)%Z →
  ((maxD ≤ minD)%Z →
   add_craters1 g mg Ncraters minD maxD rim = (mg, Threw TypeError)) ∧
  ((minD ≤ 0 < maxD)%Z →
   add_craters1 g mg Ncraters minD maxD rim
   = (mg, Threw (Kernel ZeroDivisionError))).
Proof.
  intros HN. unfold add_craters1.
  destruct (Z.to_nat Ncraters) as [|n] eqn:Hn; [lia |].
  cbn [add_craters1_loop].
  destruct (weights_bad_range g minD maxD) as [Hempty Hzero].
  split; intros Hr.
  - rewrite (Hempty Hr). by rewrite with_elevation_same.
  - rewrite (Hzero Hr). by rewrite with_elevation_same.
Qed.

(** [add_craters1] on a grid whose side, [int(dx * columns)], is less than
    one grid unit: the crater center cannot be drawn ([integers(1, 0)]) and
    the call raises ValueError in the first pass, before the grid is
    touched. *)
Theorem add_craters1_narrow_grid (g : module_state) (mg : RasterModelGrid)
    (Ncraters minD maxD : Z) (rim : bool) :
  (0 < Ncraters)%Z → (minD < maxD)%Z → (0 < minD ∨ maxD ≤ 0)%Z →
  0 <= (random (default_rng (seed g))).1 < 1 →
  (py_int (dx mg * IZR (number_of_node_columns mg)) < 1)%Z →
  add_craters1 g mg Ncraters minD maxD rim = (mg, Threw ValueError).
Proof.
  intros HN Hne Hzero Hu Hside. unfold add_craters1.
  destruct (Z.to_nat Ncraters) as [|n] eqn:Hn; [lia |].
  cbn [add_craters1_loop].
  destruct (weights_index g minD maxD Hne Hzero Hu)
    as (a & ws & -> & -> & _).
  unfold crater_center. rewrite decide_True by done.
  by rewrite with_elevation_same.
Qed.

(** The loop of [add_craters2]: one crater per diameter, in the order of
    the list, up to the pass that raises. *)
Lemma add_craters2_loop_events g mg grid_size rim :
  ∀ diameter_list rn z, ∃ centers,
    (length centers ≤ length diameter_list)%nat ∧
    (add_craters2_loop g mg grid_size rim diameter_list rn z).1
    = apply_craters g z (events_at mg rim centers diameter_list) ∧
    ((add_craters2_loop g mg grid_size rim diameter_list rn z).2 = Returned →
     length centers = length diameter_list).
Proof.
  induction diameter_list as [|D l IH]; intros rn z.
  { exists []. by cbn. }
  cbn [add_craters2_loop].
  destruct (crater_center rn (grid_size * 1000)) as [[c rn']|].
  2:{ exists []. cbn. split; [lia |]. by split. }
  destruct (crater_depth g z (distances mg c) D rim) as [z' [e|]] eqn:Hcd.
  - exists [c]. cbn. unfold apply_crater.
    destruct l; cbn; rewrite Hcd; (split; [lia |]); by split.
  - destruct (IH rn' z') as (centers & Hlen & Hz & Hret).
    exists (c :: centers). cbn [length events_at zip_with].
    rewrite apply_craters_cons. unfold apply_crater at 1.
    cbn [ev_distances ev_diameter ev_rim]. rewrite Hcd. cbn [fst].
    fold (events_at mg rim centers l).
    split; [lia |]. split; [done |].
    intros Hr. by rewrite (Hret Hr).
Qed.

(** [add_craters2] applies the generated population.  The generator is
    called with the square of the grid's side in km as domain area.  When
    it raises, [add_craters2] raises the same exception and the grid is
    untouched.  When it returns its list, the field the call leaves is the
    field after one crater per diameter, in the order of the list: all of
    them when the call returns, those up to the failing one when it
    raises. *)
Theorem add_craters2_applies_generated (g : module_state) (fuel : nat)
    (mg : RasterModelGrid) (time_interval : R * R)
    (size_interval : option (R * R)) (poisson_intervals rim : bool) :
  let cell_size := dx mg / 1000 in
  let grid_size := py_int (cell_size * IZR (number_of_node_columns mg)) in
  match (generate_CSFD_from_production_function g fuel time_interval
           size_interval (IZR (grid_size * grid_size)) cell_size
           poisson_intervals).1 with
  | Done diameter_list =>
      ∃ centers : list (Z * Z),
        (length centers ≤ length diameter_list)%nat ∧
        elevation (add_craters2 g fuel mg time_interval size_interval
                     poisson_intervals rim).1
        = apply_craters g (elevation mg)
            (events_at mg rim centers diameter_list) ∧
        ((add_craters2 g fuel mg time_interval size_interval
            poisson_intervals rim).2 = Returned →
         length centers = length diameter_list)
  | Raised e =>
      add_craters2 g fuel mg time_interval size_interval poisson_intervals
        rim = (mg, Threw (Kernel e))
  | OutOfFuel =>
      add_craters2 g fuel mg time_interval size_interval poisson_intervals
        rim = (mg, NoMoreFuel)
  end.
Proof.
  intros cell_size grid_size. unfold add_craters2.
  fold cell_size. fold grid_size.
  destruct (generate_CSFD_from_production_function _ _ _ _ _ _ _).1
    as [diameter_list| |]; [| done | done].
  destruct (add_craters2_loop_events g mg grid_size rim diameter_list
              (default_rng (seed g)) (elevation mg))
    as (centers & Hlen & Hz & Hret).
  exists centers.
  by destruct (add_craters2_loop _ _ _ _ _ _ _) as [z e].
Qed.

(** The field a driver leaves is the field it was given plus an increment
    at every node. *)
Lemma drivers_additive_update (g : module_state) (fuel : nat)
    (mg : RasterModelGrid) (Ncraters minD maxD : Z)
    (time_interval : R * R) (size_interval : option (R * R))
    (poisson_intervals : bool) (diameter : R) (rim : bool) :
  additive_update (elevation mg)
    (elevation (add_craters1 g mg Ncraters minD maxD rim).1) ∧
  additive_update (elevation mg)
    (elevation (add_craters2 g fuel mg time_interval size_interval
                  poisson_intervals rim).1) ∧
  additive_update (elevation mg)
    (elevation (central_crater g mg diameter rim).1).
Proof.
  split; [| split].
  - destruct (add_craters1_events g mg Ncraters minD maxD rim)
      as (D & centers & _ & _ & -> & _).
    apply in_place_additions_additive, apply_craters_additions.
  - unfold add_craters2.
    destruct (generate_CSFD_from_production_function _ _ _ _ _ _ _).1
      as [diameter_list| |]; [| apply additive_update_refl ..].
    match goal with
    | |- context [add_craters2_loop g mg ?gs rim diameter_list ?rn ?z] =>
        destruct (add_craters2_loop_events g mg gs rim diameter_list rn z)
          as (centers & _ & Hz & _);
        destruct (add_craters2_loop g mg gs rim diameter_list rn z)
          as [z' e]
    end.
    cbn in *. subst z'.
    apply in_place_additions_additive, apply_craters_additions.
  - unfold central_crater.
    match goal with
    | |- context [crater_depth g ?z ?d diameter rim] =>
        pose proof (crater_depth_additions g z d diameter rim) as Hadd;
        destruct (crater_depth g z d diameter rim) as [z' [e|]]
    end; cbn in *; by apply in_place_additions_additive.
Qed.

(** The drivers keep the nodes of the grid.  However [add_craters1],
    [add_craters2] and [central_crater] end, by a return or by an
    exception, the elevation field they leave has the length of the field
    they were given, and every node that was not a finite number is still
    not one. *)
Theorem drivers_keep_nodes (g : module_state) (fuel : nat)
    (mg : RasterModelGrid) (Ncraters minD maxD : Z)
    (time_interval : R * R) (size_interval : option (R * R))
    (poisson_intervals : bool) (diameter : R) (rim : bool) :
  let keeps (mg' : RasterModelGrid) :=
    length (elevation mg') = length (elevation mg) ∧
    ∀ i, elevation mg !! i = Some NaN → elevation mg' !! i = Some NaN in
  keeps (add_craters1 g mg Ncraters minD maxD rim).1 ∧
  keeps (add_craters2 g fuel mg time_interval size_interval
           poisson_intervals rim).1 ∧
  keeps (central_crater g mg diameter rim).1.
Proof.
  intros keeps.
  destruct (drivers_additive_update g fuel mg Ncraters minD maxD
              time_interval size_interval poisson_intervals diameter rim)
    as (H1' & H2' & H3').
  repeat split;
    first [by apply additive_update_length
          | intros i Hi; by eapply additive_update_NaN].
Qed.

End drivers_extras.

(** * make_noisy_surface *)

Section surface_extras.
Context `{Landlab} `{RandomArray}.

Lemma np_inplace_same_length f z a :
  length a = length z → np_inplace f z a = Some (zip_with f z a).
Proof. intros Hl. unfold np_inplace. by rewrite decide_True. Qed.

(** The surface [make_noisy_surface] builds, given that landlab's
    [node_x] and numpy's [random(n)] have one entry per node. *)
Lemma make_noisy_surface_value g grid_size cell_size slope rf mg0 :
  cell_size ≠ 0%Z →
  raster_model_grid (py_int (IZR grid_size / IZR cell_size)) (IZR cell_size)
  = Some mg0 →
  length (node_x mg0) = number_of_nodes mg0 →
  length (random_n (default_rng (seed g)) (number_of_nodes mg0)).1
  = number_of_nodes mg0 →
  make_noisy_surface g grid_size cell_size slope rf
  = inl (with_elevation mg0
           (zip_with
              (λ x r, if decide (rf = 0) then NaN
                      else Fin (r * rf - x * slope))
              (node_x mg0)
              (random_n (default_rng (seed g)) (number_of_nodes mg0)).1)).
Proof.
  intros Hcell Hgrid Hx Hr. unfold make_noisy_surface.
  rewrite decide_False by done. rewrite Hgrid.
  rewrite np_inplace_same_length
    by (by rewrite length_fmap, length_replicate).
  rewrite np_inplace_same_length.
  2:{ rewrite length_fmap, length_zip_with, length_replicate, length_fmap.
      lia. }
  do 2 f_equal. apply list_eq. intros i.
  rewrite list_lookup_fmap, !lookup_zip_with.
  rewrite !list_lookup_fmap.
  destruct (decide (i < number_of_nodes mg0)%nat) as [Hi | Hi].
  - rewrite lookup_replicate_2 by done.
    destruct (lookup_lt_is_Some_2 (node_x mg0) i) as [x ->]; [lia |].
    destruct (lookup_lt_is_Some_2
                (random_n (default_rng (seed g)) (number_of_nodes mg0)).1 i)
      as [r ->]; [lia |].
    cbn. unfold ndiv. destruct (decide (rf = 0)) as [-> | Hrf]; [done |].
    cbn. do 2 f_equal. field. done.
  - rewrite (lookup_ge_None_2 (node_x mg0)) by lia.
    rewrite (lookup_ge_None_2 (replicate _ _))
      by (rewrite length_replicate; lia).
    done.
Qed.

(** The surface of [make_noisy_surface].  With a nonzero cell size, on the
    grid landlab builds, whose [node_x] has one entry per node as the array
    of draws has, the elevation of a node at [x] with draw [r] is
    [r * rf - x * slope]: the noise is scaled by [rf] and the slope is not.
    With [rf = 0] no elevation is a finite number. *)
Theorem make_noisy_surface_elevation (g : module_state)
    (grid_size cell_size : Z) (slope rf : R) (mg0 : RasterModelGrid) :
  cell_size ≠ 0%Z →
  raster_model_grid (py_int (IZR grid_size / IZR cell_size)) (IZR cell_size)
  = Some mg0 →
  length (node_x mg0) = number_of_nodes mg0 →
  length (random_n (default_rng (seed g)) (number_of_nodes mg0)).1
  = number_of_nodes mg0 →
  ∃ mg,
    make_noisy_surface g grid_size cell_size slope rf = inl mg ∧
    length (topographic__elevation mg) = number_of_nodes mg0 ∧
    ∀ i x r,
      node_x mg0 !! i = Some x →
      (random_n (default_rng (seed g)) (number_of_nodes mg0)).1 !! i
      = Some r →
      topographic__elevation mg !! i
      = Some (if decide (rf = 0) then NaN else Fin (r * rf - x * slope)).
Proof.
  intros Hcell Hgrid Hx Hr.
  rewrite (make_noisy_surface_value g grid_size cell_size slope rf mg0)
    by done.
  eexists. split; [done |]. cbn. split.
  - rewrite length_zip_with. lia.
  - intros i x r Hxi Hri. by rewrite lookup_zip_with, Hxi, Hri.
Qed.

(** Without slope and with a positive [rf] the surface is noise between 0
    and [rf]: when every draw is in [0, 1), every elevation is a finite
    number in [0, rf). *)
Theorem make_noisy_surface_flat_range (g : module_state)
    (grid_size cell_size : Z) (rf : R) (mg0 : RasterModelGrid) :
  cell_size ≠ 0%Z →
  raster_model_grid (py_int (IZR grid_size / IZR cell_size)) (IZR cell_size)
  = Some mg0 →
  length (node_x mg0) = number_of_nodes mg0 →
  length (random_n (default_rng (seed g)) (number_of_nodes mg0)).1
  = number_of_nodes mg0 →
  Forall (λ r, 0 <= r < 1)
    (random_n (default_rng (seed g)) (number_of_nodes mg0)).1 →
  0 < rf →
  ∃ mg,
    make_noisy_surface g grid_size cell_size 0 rf = inl mg ∧
    Forall (λ v, ∃ e, v = Fin e ∧ 0 <= e < rf) (topographic__elevation mg).
Proof.
  intros Hcell Hgrid Hx Hr Hdraws Hrf.
  rewrite (make_noisy_surface_value g grid_size cell_size 0 rf mg0) by done.
  eexists. split; [done |]. cbn.
  apply Forall_lookup. intros i v. rewrite lookup_zip_with.
  destruct (node_x mg0 !! i) as [x|]; [| done]. cbn.
  destruct (_ !! i) as [r|] eqn:Hri; [| done]. cbn. intros [= <-].
  rewrite decide_False by lra.
  destruct (proj1 (Forall_lookup _ _) Hdraws i r Hri) as [Hr0 Hr1].
  eexists. split; [done |]. split; nra.
Qed.

End surface_extras.

(** * Facts about the sample collaborators *)

(** At 1 km the exterior exponent is above 2. *)
Lemma shape_parameters_1km_exponent :
  ∃ n, shape_parameters (1 * 1000)
       = Shape (2.54 * Rpower 1000 0.67) (1.93 * Rpower 1000 0.52)
               (0.73 * Rpower 1000 0.11) n ∧ 2 < n.
Proof.
  replace (1 * 1000) with 1000 by lra.
  unfold shape_parameters.
  rewrite decide_False by lra. rewrite decide_True by lra.
  rewrite !float_pow_pos by lra.
  rewrite decide_False by apply den_1000_nonzero.
  eexists. split; [done |].
  set (H1 := 2.54 * Rpower 1000 0.67). set (H2 := 1.93 * Rpower 1000 0.52).
  set (m := 0.73 * Rpower 1000 0.11).
  pose proof pow_1000_067. pose proof pow_1000_052. pose proof pow_1000_011.
  pose proof (Rpower_pos 1000 0.52).
  assert (Hm : 1.387 <= m) by (unfold m; lra).
  assert (HH1 : 251.46 <= H1) by (unfold H1; lra).
  assert (HH2 : H2 <= 90.71) by (unfold H2; lra).
  assert (0 < H2) by (unfold H2; lra).
  clearbody H1 H2 m.
  set (den := (H2 - H1) / 2 + H1 / (m + 2)).
  assert (Heq : den * (2 * (m + 2)) = H2 * (m + 2) - H1 * m)
    by (unfold den; field; lra).
  assert (den < 0) as Hden by nra.
  assert (0 < H2 / - den) by (apply Rdiv_lt_0_compat; lra).
  replace (H2 / den) with (- (H2 / - den)) by (field; lra). lra.
Qed.

Lemma counting_uniform_unit (rn : @rng counting_source) :
  0 <= (@uniform counting_source rn 0 1).1 <= 1.
Proof.
  change (0 <= / INR (rn + 2) <= 1).
  assert (1 <= INR (rn + 2)) as Hge.
  { rewrite plus_INR. pose proof (pos_INR rn). cbn. lra. }
  split.
  - left. apply Rinv_0_lt_compat. lra.
  - apply Rmult_le_reg_l with (INR (rn + 2)); [lra |].
    rewrite Rinv_r by lra. lra.
Qed.

Lemma power_law_N :
  @N_ power_law_production (1, 10) 0 = 1 ∧
  @N_ power_law_production (1, 10) 1 = 1 ∧
  @N_ power_law_production (1, 10) 2 = Rpower 10 (- 2).
Proof.
  unfold N_. cbn. replace 1.0 with 1 by lra.
  by rewrite Rpower_1_base.
Qed.

Lemma power_law_sample_rate (t : R) :
  0 < @phi unit_chronology t * @N1_ratio power_law_production (1, 10) * 1 <= 1.
Proof.
  unfold N1_ratio. destruct power_law_N as (-> & -> & _). cbn. lra.
Qed.

Lemma power_law_sample_inverse (u : R) :
  0 <= u <= 1 →
  ∃ d, @crater_production_function_inverse power_law_production (1, 10)
         (u * (@N_ power_law_production (1, 10) 1
               - @N_ power_law_production (1, 10) 2)
          + @N_ power_law_production (1, 10) 2) default_tol = Done d.
Proof.
  intros Hu. destruct power_law_N as (_ & HN1 & HN2). rewrite HN1, HN2.
  assert (Rpower 10 (- 2) <= 1) as Hle by (apply Rpower_le_1; lra).
  destruct (@inverse_power_law_target power_law_production 2 1 10
              (u * (1 - Rpower 10 (- 2)) + Rpower 10 (- 2)) default_tol)
    as (d & Hd & _); try lra; eauto.
  - cbn. rewrite Rpower_1_base. split; nra.
  - unfold default_tol. lra.
Qed.

(** * The further properties at sample inputs *)

Section extras_samples.
#[local] Existing Instance counting_source.
#[local] Existing Instance counting_sample.
#[local] Existing Instance unit_chronology.

Lemma crater_depth_no_rim_closed_form_witness :
  (length [0; 1000] ≤ length [Fin 0; NaN; Fin 0])%nat ∧
  (crater_depth initial_module [Fin 0; NaN; Fin 0] [0; 1000] 1 false).1
    !! 0%nat
  = (λ z, (z + no_rim_increment 1 ([0; 1000] !! 0%nat))%num)
      <$> [Fin 0; NaN; Fin 0] !! 0%nat.
Proof.
  assert (Hlen : (length [0; 1000] ≤ length [Fin 0; NaN; Fin 0])%nat)
    by (cbn; lia).
  split; [done |].
  apply (crater_depth_no_rim_closed_form initial_module [Fin 0; NaN; Fin 0]
           [0; 1000] 1 0 Hlen).
Defined.

Lemma craters_without_rim_commute_witness :
  ((length [0; 1000] ≤ length [Fin 0; Fin 0])%nat ∧
   (length [1000; 0] ≤ length [Fin 0; Fin 0])%nat) ∧
  (crater_depth initial_module
     (crater_depth initial_module [Fin 0; Fin 0] [0; 1000] 1 false).1
     [1000; 0] 10 false).1
  = (crater_depth initial_module
       (crater_depth initial_module [Fin 0; Fin 0] [1000; 0] 10 false).1
       [0; 1000] 1 false).1.
Proof.
  assert (H1 : (length [0; 1000] ≤ length [Fin 0; Fin 0])%nat) by (cbn; lia).
  assert (H2 : (length [1000; 0] ≤ length [Fin 0; Fin 0])%nat) by (cbn; lia).
  split; [done |].
  apply (craters_without_rim_commute initial_module [Fin 0; Fin 0]
           [0; 1000] [1000; 0] 1 10 H1 H2).
Defined.

Lemma apply_craters_keeps_NaN_witness :
  [Fin 0; NaN] !! 1%nat = Some NaN ∧
  apply_craters initial_module [Fin 0; NaN]
    [{| ev_distances := [1000; 0]; ev_diameter := 1; ev_rim := false |}]
    !! 1%nat
  = Some NaN.
Proof.
  split; [done |].
  by apply (apply_craters_keeps_NaN initial_module [Fin 0; NaN]).
Defined.

Lemma crater_depth_center_witness :
  ∃ n,
    (0 < 1 ∧
     shape_parameters (1 * 1000)
     = Shape (2.54 * Rpower 1000 0.67) (1.93 * Rpower 1000 0.52)
             (0.73 * Rpower 1000 0.11) n ∧
     (length [0; 1000] ≤ length [Fin 7; Fin 7])%nat ∧
     [0; 1000] !! 0%nat = Some 0 ∧ [Fin 7; Fin 7] !! 0%nat = Some (Fin 7)) ∧
    (crater_depth initial_module [Fin 7; Fin 7] [0; 1000] 1 true).1 !! 0%nat
    = Some (Fin (7 - (2.54 * Rpower 1000 0.67 - 1.93 * Rpower 1000 0.52))).
Proof.
  destruct shape_parameters_1km as [n Hshape]. exists n.
  assert (Hpos : 0 < 1) by lra.
  assert (Hlen : (length [0; 1000] ≤ length [Fin 7; Fin 7])%nat)
    by (cbn; lia).
  split; [done |].
  apply (crater_depth_center initial_module [Fin 7; Fin 7] [0; 1000] 1 true
           _ _ _ n 0 7 Hpos Hshape Hlen eq_refl eq_refl).
Defined.

Lemma crater_depth_bowl_witness :
  ∃ n,
    (0 < 1 ∧
     shape_parameters (1 * 1000)
     = Shape (2.54 * Rpower 1000 0.67) (1.93 * Rpower 1000 0.52)
             (0.73 * Rpower 1000 0.11) n ∧
     (length [0; 100; 1000] ≤ length [Fin 7; Fin 7; Fin 7])%nat ∧
     [0; 100; 1000] !! 0%nat = Some 0 ∧ [0; 100; 1000] !! 1%nat = Some 100 ∧
     0 <= 0 ∧ 0 <= 100 ∧ 100 <= 0.9 * (1 * 1000 / 2) ∧
     [Fin 7; Fin 7; Fin 7] !! 0%nat = Some (Fin 7) ∧
     [Fin 7; Fin 7; Fin 7] !! 1%nat = Some (Fin 7)) ∧
    ∃ zi zj,
      (crater_depth initial_module [Fin 7; Fin 7; Fin 7] [0; 100; 1000] 1
         false).1 !! 0%nat = Some (Fin zi) ∧
      (crater_depth initial_module [Fin 7; Fin 7; Fin 7] [0; 100; 1000] 1
         false).1 !! 1%nat = Some (Fin zj) ∧
      7 - (2.54 * Rpower 1000 0.67 - 1.93 * Rpower 1000 0.52) <= zi ∧
      zi <= zj ∧ zj < 7 + 1.93 * Rpower 1000 0.52.
Proof.
  destruct shape_parameters_1km as [n Hshape]. exists n.
  assert (Hpos : 0 < 1) by lra.
  assert (Hlen : (length [0; 100; 1000] ≤ length [Fin 7; Fin 7; Fin 7])%nat)
    by (cbn; lia).
  assert (H0 : 0 <= 0) by lra.
  assert (H1 : 0 <= 100) by lra.
  assert (H2 : 100 <= 0.9 * (1 * 1000 / 2)) by lra.
  split; [done |].
  apply (crater_depth_bowl initial_module [Fin 7; Fin 7; Fin 7]
           [0; 100; 1000] 1 _ _ _ n 0 1 0 100 7 Hpos Hshape Hlen
           eq_refl eq_refl H0 H1 H2 eq_refl eq_refl).
Defined.

Lemma crater_depth_outside_deposits_witness :
  ∃ n,
    (0 < 1 ∧
     shape_parameters (1 * 1000)
     = Shape (2.54 * Rpower 1000 0.67) (1.93 * Rpower 1000 0.52)
             (0.73 * Rpower 1000 0.11) n ∧
     0 <= n ∧
     (length [0; 1000] ≤ length [7; 7])%nat ∧
     (∃ x0, x0 ∈ [0; 1000] ∧ x0 <= 1 * 1000 / 2) ∧
     [0; 1000] !! 1%nat = Some 1000 ∧ 1 * 1000 / 2 < 1000 ∧
     [7; 7] !! 1%nat = Some 7) ∧
    ∃ z', (crater_depth initial_module (Fin <$> [7; 7]) [0; 1000] 1 true).1
            !! 1%nat = Some (Fin z') ∧
          7 <= z' <= 7 + 1.93 * Rpower 1000 0.52.
Proof.
  destruct shape_parameters_1km_exponent as (n & Hshape & Hn2). exists n.
  assert (Hpos : 0 < 1) by lra.
  assert (Hn : 0 <= n) by lra.
  assert (Hlen : (length [0; 1000] ≤ length [7; 7])%nat) by (cbn; lia).
  assert (Hin : ∃ x0, x0 ∈ [0; 1000] ∧ x0 <= 1 * 1000 / 2).
  { exists 0. split; [apply list_elem_of_here | lra]. }
  assert (Hout : 1 * 1000 / 2 < 1000) by lra.
  split; [done |].
  apply (crater_depth_outside_deposits initial_module [7; 7] [0; 1000] 1
           _ _ _ n 1 1000 7 Hpos Hshape Hn Hlen Hin eq_refl Hout eq_refl).
Defined.

Lemma crater_depth_no_node_inside_witness :
  (0 < 1 ∧ (length [2000; 1000] ≤ length [Fin 7; Fin 7; Fin 7])%nat ∧
   Forall (λ x, x > 1 * 1000 / 2) [2000; 1000]) ∧
  (crater_depth initial_module [Fin 7; Fin 7; Fin 7] [2000; 1000] 1 true
   = ([Fin 7; Fin 7; Fin 7], Some ZeroDivisionError) ∨
   ∃ mg',
     crater_depth initial_module [Fin 7; Fin 7; Fin 7] [2000; 1000] 1 true
     = (mg', None) ∧
     (∀ i, (i < length [2000; 1000])%nat → mg' !! i = Some NaN) ∧
     (∀ i, (length [2000; 1000] ≤ i)%nat →
           mg' !! i = [Fin 7; Fin 7; Fin 7] !! i)).
Proof.
  assert (Hpos : 0 < 1) by lra.
  assert (Hlen : (length [2000; 1000] ≤ length [Fin 7; Fin 7; Fin 7])%nat)
    by (cbn; lia).
  assert (Hout : Forall (λ x, x > 1 * 1000 / 2) [2000; 1000]).
  { repeat constructor; lra. }
  split; [done |].
  apply (crater_depth_no_node_inside initial_module [Fin 7; Fin 7; Fin 7]
           [2000; 1000] 1 Hpos Hlen Hout).
Defined.

Lemma crater_depth_no_rim_partial_update_witness :
  ∃ n,
    (shape_parameters (1 * 1000)
     = Shape (2.54 * Rpower 1000 0.67) (1.93 * Rpower 1000 0.52)
             (0.73 * Rpower 1000 0.11) n ∧
     (∀ i x, [0; 1000000] !! i = Some x → x <= 1 * 1000 / 2 * 0.9 →
             (i < length [Fin 7])%nat) ∧
     (∃ i x, [0; 1000000] !! i = Some x ∧ x > 1 * 1000 / 2 * 0.9 ∧
             (length [Fin 7] ≤ i)%nat)) ∧
    (crater_depth initial_module [Fin 7] [0; 1000000] 1 false).2
      = Some IndexError ∧
    ∀ i, (crater_depth initial_module [Fin 7] [0; 1000000] 1 false).1 !! i
         = (λ z, (z + no_rim_increment 1 ([0; 1000000] !! i))%num)
             <$> [Fin 7] !! i.
Proof.
  destruct shape_parameters_1km as [n Hshape]. exists n.
  assert (Hin : ∀ i x, [0; 1000000] !! i = Some x →
                       x <= 1 * 1000 / 2 * 0.9 → (i < length [Fin 7])%nat).
  { intros [|[|i]] x Hx Hle; cbn in *; [lia | | done].
    injection Hx as <-. lra. }
  assert (Hout : ∃ i x, [0; 1000000] !! i = Some x ∧
                        x > 1 * 1000 / 2 * 0.9 ∧ (length [Fin 7] ≤ i)%nat).
  { exists 1%nat, 1000000. split; [done |]. split; [lra | cbn; lia]. }
  split; [done |].
  apply (crater_depth_no_rim_partial_update initial_module [Fin 7]
           [0; 1000000] 1 _ _ _ n Hshape Hin Hout).
Defined.

Lemma inverse_target_above_samples_witness :
  (∀ D, 0 < @pf_cumulative flat_production D < 10) ∧
  @crater_production_function_inverse flat_production (1, 10) 10 default_tol
  = Raised IndexError.
Proof.
  assert (Hy : ∀ D, 0 < @pf_cumulative flat_production D < 10)
    by (intros D; cbn; lra).
  split; [done |].
  apply (@inverse_target_above_samples flat_production (1, 10) 10
           default_tol Hy).
Defined.

Lemma inverse_power_law_round_trip_witness :
  ((∀ D', 0 < D' → @pf_cumulative power_law_production D' = Rpower D' (- 2)) ∧
   0 < 2 ∧ 0 < 1 ∧ 1 < 10 ∧ 1 <= 5 <= 10 ∧ 0 < default_tol) ∧
  @inverse_iterations power_law_production (1, 10)
    (@pf_cumulative power_law_production 5) default_tol
    = Done (np_log10 5, 1%nat) ∧
  @crater_production_function_inverse power_law_production (1, 10)
    (@pf_cumulative power_law_production 5) default_tol
    = Done 5.
Proof.
  assert (Hpf : ∀ D', 0 < D' →
            @pf_cumulative power_law_production D' = Rpower D' (- 2))
    by (intros; reflexivity).
  assert (Hk : 0 < 2) by lra.
  assert (H1 : 0 < 1) by lra.
  assert (H2 : 1 < 10) by lra.
  assert (H3 : 1 <= 5 <= 10) by lra.
  assert (Htol : 0 < default_tol) by (unfold default_tol; lra).
  split; [done |].
  apply (@inverse_power_law_round_trip power_law_production 2 1 10 5
           default_tol Hpf Hk H1 H2 H3 Htol).
Defined.

Lemma generate_diameters_positive_witness :
  (0 < (@setup_diameter_range flat_production (Some (1, 10)) 1).1.1 ∧
   0 < (@setup_diameter_range flat_production (Some (1, 10)) 1).1.2 ∧
   (∀ D, 0 < D → 0 < @pf_cumulative flat_production D) ∧
   (∀ rn, 0 <= (@uniform counting_source rn 0 1).1 <= 1)) ∧
  match (@generate_CSFD_from_production_function counting_source
           flat_production unit_chronology initial_module 5 (4.5, 3.5)
           (Some (1, 10)) 1 1 true).1 with
  | Done list_d => Forall (λ d, 0 < d) list_d
  | _ => True
  end.
Proof.
  assert (H1 : 0 < (@setup_diameter_range flat_production
                      (Some (1, 10)) 1).1.1).
  { rewrite (@setup_diameter_range_Some flat_production). cbn. lra. }
  assert (H2 : 0 < (@setup_diameter_range flat_production
                      (Some (1, 10)) 1).1.2).
  { rewrite (@setup_diameter_range_Some flat_production). cbn. lra. }
  assert (Hpf : ∀ D, 0 < D → 0 < @pf_cumulative flat_production D)
    by (intros; cbn; lra).
  split; [by auto using counting_uniform_unit |].
  apply (@generate_diameters_positive counting_source flat_production
           unit_chronology initial_module 5 (4.5, 3.5) (Some (1, 10)) 1 1
           true H1 H2 Hpf counting_uniform_unit).
Defined.

Lemma generate_deterministic_terminates_witness :
  (3.5 <= 4.5 ∧ 0 < 1 ∧
   0 < (@setup_diameter_range power_law_production (Some (1, 10)) 1).1.1 ∧
   0 < (@setup_diameter_range power_law_production (Some (1, 10)) 1).1.2 ∧
   (∀ D, 0 < D → 0 < @pf_cumulative power_law_production D) ∧
   (∀ rn, 0 <= (@uniform counting_source rn 0 1).1 <= 1) ∧
   (∀ t, 0 < @phi unit_chronology t
             * @N1_ratio power_law_production
                 (@setup_diameter_range power_law_production
                    (Some (1, 10)) 1).1
             * 1 <= 1) ∧
   (∀ u, 0 <= u <= 1 →
      ∃ d,
      @crater_production_function_inverse power_law_production
        (@setup_diameter_range power_law_production (Some (1, 10)) 1).1
        (u * (@N_ power_law_production
                (@setup_diameter_range power_law_production
                   (Some (1, 10)) 1).1 1
              - @N_ power_law_production
                  (@setup_diameter_range power_law_production
                     (Some (1, 10)) 1).1 2)
         + @N_ power_law_production
             (@setup_diameter_range power_law_production
                (Some (1, 10)) 1).1 2)
        default_tol = Done d) ∧
   (4.5 - 3.5) * 1 < INR 2 ∧ (2 < 3)%nat) ∧
  ∃ list_d,
    (@generate_CSFD_from_production_function counting_source
       power_law_production unit_chronology initial_module 3 (4.5, 3.5)
       (Some (1, 10)) 1 1 false).1 = Done list_d ∧
    (1 ≤ length list_d ≤ 2)%nat.
Proof.
  assert (Hle : 3.5 <= 4.5) by lra.
  assert (HL : 0 < 1) by lra.
  assert (Hrange : (@setup_diameter_range power_law_production
                      (Some (1, 10)) 1).1 = (1, 10))
    by apply (@setup_diameter_range_Some power_law_production).
  assert (H1 : 0 < (@setup_diameter_range power_law_production
                      (Some (1, 10)) 1).1.1) by (rewrite Hrange; cbn; lra).
  assert (H2 : 0 < (@setup_diameter_range power_law_production
                      (Some (1, 10)) 1).1.2) by (rewrite Hrange; cbn; lra).
  assert (Hpf : ∀ D, 0 < D → 0 < @pf_cumulative power_law_production D)
    by (intros; apply Rpower_pos).
  assert (Hlam : ∀ t, 0 < @phi unit_chronology t
             * @N1_ratio power_law_production
                 (@setup_diameter_range power_law_production
                    (Some (1, 10)) 1).1
             * 1 <= 1)
    by (rewrite Hrange; apply power_law_sample_rate).
  assert (Hinv : ∀ u, 0 <= u <= 1 →
      ∃ d,
      @crater_production_function_inverse power_law_production
        (@setup_diameter_range power_law_production (Some (1, 10)) 1).1
        (u * (@N_ power_law_production
                (@setup_diameter_range power_law_production
                   (Some (1, 10)) 1).1 1
              - @N_ power_law_production
                  (@setup_diameter_range power_law_production
                     (Some (1, 10)) 1).1 2)
         + @N_ power_law_production
             (@setup_diameter_range power_law_production
                (Some (1, 10)) 1).1 2)
        default_tol = Done d)
    by (rewrite Hrange; apply power_law_sample_inverse).
  assert (Hn : (4.5 - 3.5) * 1 < INR 2) by (cbn; lra).
  assert (Hfuel : (2 < 3)%nat) by lia.
  split; [by auto 10 using counting_uniform_unit |].
  apply (@generate_deterministic_terminates counting_source
           power_law_production unit_chronology initial_module 2 3 4.5 3.5
           (Some (1, 10)) 1 1 1
           Hle HL H1 H2 Hpf counting_uniform_unit Hlam Hinv Hn Hfuel).
Defined.

Lemma weights_valid_index_witness :
  ((1 < 5)%Z ∧ (0 < 1 ∨ 5 ≤ 0)%Z ∧
   0 <= (random (default_rng (seed initial_module))).1 < 1) ∧
  ∃ (i : nat) (ws : list R),
    weights initial_module 1 5 = Done (Some i) ∧
    py_range 1 5 !! i = Some (1 + Z.of_nat i)%Z ∧
    (1 ≤ 1 + Z.of_nat i < 5)%Z ∧
    mapM weight (py_range 1 5) = Some ws ∧
    py_sum (take i ws)
      <= (random (default_rng (seed initial_module))).1 * py_sum ws
      < py_sum (take (S i) ws).
Proof.
  assert (H1 : (1 < 5)%Z) by lia.
  assert (H2 : (0 < 1 ∨ 5 ≤ 0)%Z) by lia.
  assert (Hu : 0 <= (random (default_rng (seed initial_module))).1 < 1).
  { change (0 <= / INR 5 < 1). rewrite INR_IZR_INZ.
    change (Z.of_nat 5) with 5%Z.
    split; [apply Rlt_le, Rinv_0_lt_compat; lra |].
    apply (Rmult_lt_reg_l 5); [lra |]. rewrite Rinv_r; lra. }
  split; [done |].
  apply (weights_valid_index initial_module 1 5 H1 H2 Hu).
Defined.

Lemma add_craters1_bad_range_witness :
  (0 < 3)%Z ∧
  ((3 ≤ 0)%Z →
   @add_craters1 counting_source counting_sample counting_integers
     initial_module small_grid 3 0 3 true = (small_grid, Threw TypeError)) ∧
  ((0 ≤ 0 < 3)%Z →
   @add_craters1 counting_source counting_sample counting_integers
     initial_module small_grid 3 0 3 true
   = (small_grid, Threw (Kernel ZeroDivisionError))).
Proof.
  assert (HN : (0 < 3)%Z) by lia.
  split; [done |].
  apply (@add_craters1_bad_range counting_source counting_sample
           counting_integers initial_module small_grid 3 0 3 true HN).
Defined.

Lemma add_craters1_narrow_grid_witness :
  ((0 < 3)%Z ∧ (1 < 5)%Z ∧ (0 < 1 ∨ 5 ≤ 0)%Z ∧
   0 <= (random (default_rng (seed initial_module))).1 < 1 ∧
   (py_int (dx narrow_grid * IZR (number_of_node_columns narrow_grid)) < 1)%Z)
  ∧ @add_craters1 counting_source counting_sample counting_integers
      initial_module narrow_grid 3 1 5 true
    = (narrow_grid, Threw ValueError).
Proof.
  assert (HN : (0 < 3)%Z) by lia.
  assert (H1 : (1 < 5)%Z) by lia.
  assert (H2 : (0 < 1 ∨ 5 ≤ 0)%Z) by lia.
  assert (Hu : 0 <= (random (default_rng (seed initial_module))).1 < 1).
  { change (0 <= / INR 5 < 1). rewrite INR_IZR_INZ.
    change (Z.of_nat 5) with 5%Z.
    split; [apply Rlt_le, Rinv_0_lt_compat; lra |].
    apply (Rmult_lt_reg_l 5); [lra |]. rewrite Rinv_r; lra. }
  assert (Hside : (py_int (dx narrow_grid
                           * IZR (number_of_node_columns narrow_grid)) < 1)%Z).
  { unfold py_int. cbn [dx number_of_node_columns narrow_grid].
    rewrite decide_True by lra.
    rewrite <- (Int_part_spec (0.25 * 2) 0); [lia | lra]. }
  split; [done |].
  apply (@add_craters1_narrow_grid counting_source counting_sample
           counting_integers initial_module narrow_grid 3 1 5 true
           HN H1 H2 Hu Hside).
Defined.

Lemma make_noisy_surface_elevation_witness :
  let xy := py_int (IZR 2 / IZR 1) in
  let mg0 :=
    {| number_of_node_columns := xy;
       dx := IZR 1;
       calc_distances_of_nodes_to_point :=
         λ _, replicate (Z.to_nat (xy * xy)) 0;
       topographic__elevation := [] |} in
  let draws :=
    (@random_n counting_source counting_array
       (default_rng (seed initial_module))
       (@number_of_nodes square_landlab mg0)).1 in
  (1%Z ≠ 0%Z ∧
   @raster_model_grid square_landlab xy (IZR 1) = Some mg0 ∧
   length (@node_x square_landlab mg0) = @number_of_nodes square_landlab mg0 ∧
   length draws = @number_of_nodes square_landlab mg0) ∧
  ∃ mg,
    @make_noisy_surface square_landlab counting_source counting_array
      initial_module 2 1 0.5 2 = inl mg ∧
    length (topographic__elevation mg) = @number_of_nodes square_landlab mg0 ∧
    ∀ i x r,
      @node_x square_landlab mg0 !! i = Some x →
      draws !! i = Some r →
      topographic__elevation mg !! i
      = Some (if decide (2 = 0) then NaN else Fin (r * 2 - x * 0.5)).
Proof.
  intros xy mg0 draws.
  assert (Hcell : 1%Z ≠ 0%Z) by lia.
  assert (Hgrid : @raster_model_grid square_landlab xy (IZR 1) = Some mg0)
    by reflexivity.
  assert (Hx : length (@node_x square_landlab mg0)
               = @number_of_nodes square_landlab mg0).
  { cbn. by rewrite length_fmap, length_seq. }
  assert (Hr : length draws = @number_of_nodes square_landlab mg0).
  { unfold draws. cbn. by rewrite length_replicate. }
  split; [done |].
  apply (@make_noisy_surface_elevation square_landlab counting_source
           counting_array initial_module 2 1 0.5 2 mg0 Hcell Hgrid Hx Hr).
Defined.

Lemma make_noisy_surface_flat_range_witness :
  let xy := py_int (IZR 2 / IZR 1) in
  let mg0 :=
    {| number_of_node_columns := xy;
       dx := IZR 1;
       calc_distances_of_nodes_to_point :=
         λ _, replicate (Z.to_nat (xy * xy)) 0;
       topographic__elevation := [] |} in
  let draws :=
    (@random_n counting_source counting_array
       (default_rng (seed initial_module))
       (@number_of_nodes square_landlab mg0)).1 in
  (1%Z ≠ 0%Z ∧
   @raster_model_grid square_landlab xy (IZR 1) = Some mg0 ∧
   length (@node_x square_landlab mg0) = @number_of_nodes square_landlab mg0 ∧
   length draws = @number_of_nodes square_landlab mg0 ∧
   Forall (λ r, 0 <= r < 1) draws ∧ 0 < 2) ∧
  ∃ mg,
    @make_noisy_surface square_landlab counting_source counting_array
      initial_module 2 1 0 2 = inl mg ∧
    Forall (λ v, ∃ e, v = Fin e ∧ 0 <= e < 2) (topographic__elevation mg).
Proof.
  intros xy mg0 draws.
  assert (Hcell : 1%Z ≠ 0%Z) by lia.
  assert (Hgrid : @raster_model_grid square_landlab xy (IZR 1) = Some mg0)
    by reflexivity.
  assert (Hx : length (@node_x square_landlab mg0)
               = @number_of_nodes square_landlab mg0).
  { cbn. by rewrite length_fmap, length_seq. }
  assert (Hr : length draws = @number_of_nodes square_landlab mg0).
  { unfold draws. cbn. by rewrite length_replicate. }
  assert (Hdraws : Forall (λ r, 0 <= r < 1) draws).
  { unfold draws.
    change (Forall (λ r, 0 <= r < 1)
              (replicate (@number_of_nodes square_landlab mg0) (/ INR 5))).
    apply Forall_replicate. rewrite INR_IZR_INZ.
    change (Z.of_nat 5) with 5%Z.
    split; [apply Rlt_le, Rinv_0_lt_compat; lra |].
    apply (Rmult_lt_reg_l 5); [lra |]. rewrite Rinv_r; lra. }
  assert (Hrf : 0 < 2) by lra.
  split; [done |].
  apply (@make_noisy_surface_flat_range square_landlab counting_source
           counting_array initial_module 2 1 2 mg0 Hcell Hgrid Hx Hr
           Hdraws Hrf).
Defined.

End extras_samples.
